(** * Runtime module compiler and manifest linker of the workspace app

    A shallow embedding of the module of the workspace app: the virtual
    file tree
    ([File], [Directory], [FileSystemNode]), its flattening [buildFs], the
    leaf walker [walk], the linking step [compile] and the orchestrator
    [App], together with the properties of the build pass.

    JavaScript objects are represented by their list of own enumerable
    string-keyed properties, in the order [Object.entries] reports them.
    Strings are sequences of characters below 256. *)

From Stdlib Require Import String Ascii List Arith NArith Bool Lia DecimalString.
From Stdlib Require Import Sorted Permutation.
Import ListNotations.

Local Open Scope list_scope.
Local Open Scope string_scope.

Set Implicit Arguments.

(* ================================================================= *)
(** ** JavaScript objects as ordered property lists *)

Module JsObject.

(** [Object.entries] lists the keys that are array indices first, in
    ascending numeric order, and then every other string key in the
    order it was created.  An array index is the canonical decimal
    spelling of an integer in [0, 2^32 - 2]. *)

Definition is_digit (c : ascii) : bool :=
  let n := N_of_ascii c in ((48 <=? n) && (n <=? 57))%N.

Fixpoint digits_value (s : string) (acc : N) : option N :=
  match s with
  | EmptyString => Some acc
  | String c r =>
      if is_digit c
      then digits_value r (10 * acc + (N_of_ascii c - 48))%N
      else None
  end.

Definition array_index (k : string) : option N :=
  match k with
  | EmptyString => None
  | String c r =>
      if (c =? "0")%char && negb (r =? "") then None
      else match digits_value k 0%N with
           | Some n => if (n <? 4294967295)%N then Some n else None
           | None => None
           end
  end.

Section Props.
Variable V : Type.

Definition t := list (string * V).

(** [o[k]]; [None] stands for [undefined]. *)
Fixpoint get (k : string) (o : t) : option V :=
  match o with
  | [] => None
  | (k', v) :: r => if k' =? k then Some v else get k r
  end.

Definition has (k : string) (o : t) : bool :=
  match get k o with Some _ => true | None => false end.

Definition keys (o : t) : list string := map fst o.

(** Writing an existing property keeps its place. *)
Fixpoint replace (k : string) (v : V) (o : t) : t :=
  match o with
  | [] => []
  | (k', v') :: r =>
      if k' =? k then (k, v) :: r else (k', v') :: replace k v r
  end.

(** A new array-index key goes among the index keys, by value. *)
Fixpoint insert_index (n : N) (k : string) (v : V) (o : t) : t :=
  match o with
  | [] => [(k, v)]
  | (k', v') :: r =>
      match array_index k' with
      | Some n' =>
          if (n' <? n)%N then (k', v') :: insert_index n k v r
          else (k, v) :: o
      | None => (k, v) :: o
      end
  end.

(** [{...o, [k]: v}]: the copy of [o] has the properties of [o] in the
    same order; then [k] is defined on it. *)
Definition set (k : string) (v : V) (o : t) : t :=
  if has k o then replace k v o
  else match array_index k with
       | Some n => insert_index n k v o
       | None => (o ++ [(k, v)])%list
       end.

(** [Object.entries(o)] *)
Definition entries (o : t) : list (string * V) := o.

End Props.

End JsObject.

(* ================================================================= *)
(** ** Strings *)

(** [s.endsWith(suffix)] *)
Definition endsWith (s suffix : string) : bool :=
  let ls := String.length s in
  let lf := String.length suffix in
  Nat.leb lf ls && (substring (ls - lf) lf s =? suffix).

(** Decimal spelling of a non-negative integer, as [String(i)]. *)
Definition decimal (n : N) : string := NilEmpty.string_of_uint (N.to_uint n).

(* ================================================================= *)
(** ** The virtual tree *)

Unset Elimination Schemes.

Inductive FileSystemNode : Type :=
| mkNode (name : string) (value : DirOrFile)
with DirOrFile : Type :=
| Directory (entries : list FileSystemNode)
| File (content : string).

(** [interface FileSystem { [path: string]: string | FileSystem }]; a value
    of [string | FileSystem] is what [walk] receives. *)
Inductive FileSystem : Type :=
| FsFile (content : string)
| FsDir (entries : JsObject.t FileSystem).

Set Elimination Schemes.

Definition name (n : FileSystemNode) : string :=
  match n with mkNode nm _ => nm end.

Definition value (n : FileSystemNode) : DirOrFile :=
  match n with mkNode _ v => v end.

(** [isDir]: the value has an [entries] array. *)
Definition isDir (v : DirOrFile) : bool :=
  match v with Directory _ => true | File _ => false end.

Record State : Type := { fileSystem : list FileSystemNode }.

(** One step of the reducer in [buildFs]: [{...acc, [node.name]: v}], where
    [v] is the flattened value of the node. *)
Definition reducer (flat : DirOrFile -> FileSystem)
    (acc : JsObject.t FileSystem) (node : FileSystemNode) : JsObject.t FileSystem :=
  JsObject.set (name node) (flat (value node)) acc.

(** The value the reducer binds to [node.name]: [buildFs(node.value.entries)]
    when [isDir(node.value)], and [node.value.content] otherwise. *)
Fixpoint flatValue (v : DirOrFile) : FileSystem :=
  match v with
  | Directory es => FsDir (fold_left (reducer flatValue) es [])
  | File c => FsFile c
  end.

(** [buildFs]: [nodes.reduce((acc, node) => ({...acc, [node.name]: ...}), {})] *)
Definition buildFs (nodes : list FileSystemNode) : JsObject.t FileSystem :=
  fold_left (reducer flatValue) nodes [].

Record TsContent : Type := { path : string; content : string }.

(** The [root] handed to a child: [`${root === "" ? "" : `${root}/`}${name}`]. *)
Definition child_root (root nm : string) : string :=
  (if root =? "" then "" else root ++ "/") ++ nm.

(** [walk]: the units the generator yields, in the order it yields them. *)
Fixpoint walk (fs : FileSystem) (root : string) : list TsContent :=
  match fs with
  | FsFile c =>
      if negb (endsWith root ".ts") && negb (endsWith root ".tsx") then []
      else [{| path := root; content := c |}]
  | FsDir o =>
      flat_map (fun e => walk (snd e) (child_root root (fst e)))
               (JsObject.entries o)
  end.

(* ================================================================= *)
(** ** Asynchronous code: calls to the toolchain and rejections *)

(** What the process asks of the embedded toolchain and of the module
    loader. *)
Inductive Event : Type :=
| EvInitialize
| EvTransform (modData : string)
| EvImport (specifier : string).

Module Async.

Section Monad.
Variable Err : Type.

(** An [async] computation: the calls it makes, in order, and the
    value it fulfils with ([inr]) or the reason it rejects with
    ([inl]). *)
Definition t (A : Type) : Type := (list Event * (Err + A))%type.

Definition ret {A} (a : A) : t A := ([], inr a).

Definition bind {A B} (m : t A) (k : A -> t B) : t B :=
  match snd m with
  | inl e => (fst m, inl e)
  | inr a => ((fst m ++ fst (k a))%list, snd (k a))
  end.

(** A call to an external function whose outcome is [r]. *)
Definition call {A} (ev : Event) (r : Err + A) : t A := ([ev], r).

(** A function that may throw. *)
Definition lift {A} (r : Err + A) : t A := ([], r).

(** [await p] on a promise that already exists: the calls that made it
    are not made again, only its outcome is observed. *)
Definition await {A} (p : t A) : t A := ([], snd p).

(** [for (const x of xs) { acc = await body(x, acc) }] *)
Fixpoint for_of {X S} (xs : list X) (body : X -> S -> t S) (acc : S) : t S :=
  match xs with
  | [] => ret acc
  | x :: r => bind (body x acc) (for_of r body)
  end.

Definition events {A} (m : t A) : list Event := fst m.
Definition outcome {A} (m : t A) : Err + A := snd m.

End Monad.

Arguments ret {Err A} a.
Arguments lift {Err A} r.
Arguments call {Err A} ev r.

End Async.

Notation "x <- m ;; k" := (Async.bind m (fun x => k))
  (at level 61, m at next level, right associativity).

(* ================================================================= *)
(** ** Manifest, source map and the build pass *)

Section Workspace.

(** Live module namespace objects, and the reasons a promise rejects with
    or a call throws. *)
Variable Module : Type.
Variable Err : Type.

Unset Elimination Schemes.

(** The values found in a manifest and in a source map. *)
Inductive jsval : Type :=
| JStr (s : string)
| JObj (props : JsObject.t jsval)
| JMod (m : Module).

Set Elimination Schemes.

Definition AppManifest : Type := JsObject.t jsval.
Definition SourceMap : Type := JsObject.t jsval.

(** What [mod.ts] imports and what the host gives it. *)
Record Imports : Type :=
  { (** the [TypeError] a failed conversion throws *)
    TypeError : Err;
    (** esbuild: the outcome of [initialize(options)], and the [code] of
        [transform(modData, options)] *)
    initialize : Err + unit;
    transform : string -> Err + string;
    (** [btoa] and the dynamic [import(specifier)] *)
    btoa : string -> Err + string;
    import : string -> Err + Module;
    (** [join(a, b, c)] of std/path and [dirname(import.meta.url)] *)
    join : string -> string -> string -> string;
    currdir : string;
    (** [./manifest.gen.ts] and [buildSourceMap] of deco *)
    manifest : AppManifest;
    buildSourceMap : AppManifest -> SourceMap;
    (** the enumerable exports of a module, and [`${m}`] on a module *)
    exportsOf : Module -> JsObject.t jsval;
    moduleToString : Module -> Err + string }.

Variable env : Imports.

(** [const initializePromise = initialize({ wasmURL, worker: false })],
    evaluated with the module. *)
Definition initializePromise : Async.t Err unit :=
  Async.call EvInitialize (initialize env).

(** The own enumerable properties that [{...v}] copies: none for
    [undefined] (nor for what [manifest[blockType]] inherits from
    [Object.prototype], which has none that is enumerable), the characters
    by position for a string. *)
Fixpoint chars_from (i : N) (s : string) : JsObject.t jsval :=
  match s with
  | EmptyString => []
  | String c r => (decimal i, JStr (String c "")) :: chars_from (N.succ i) r
  end.

Definition ownProps (v : option jsval) : JsObject.t jsval :=
  match v with
  | None => []
  | Some (JStr s) => chars_from 0 s
  | Some (JObj o) => o
  | Some (JMod m) => exportsOf env m
  end.

(** [`${v}`]: an object without a [toString] of its own goes through
    [Object.prototype.toString]; a [toString] that is not callable leaves
    no conversion. *)
Definition toString (v : option jsval) : Err + string :=
  match v with
  | None => inr "undefined"
  | Some (JStr s) => inr s
  | Some (JObj o) =>
      if JsObject.has "toString" o then inl (TypeError env)
      else inr "[object Object]"
  | Some (JMod m) => moduleToString env m
  end.

Definition importFromString (modData : string) : Async.t Err Module :=
  code <- Async.call (EvTransform modData) (transform env modData) ;;
  b64 <- Async.lift (btoa env code) ;;
  let specifier := "data:application/javascript;base64," ++ b64 in
  Async.call (EvImport specifier) (import env specifier).

Definition sourceMapEntry (blockPath content : string) : jsval :=
  JObj [("path", JStr blockPath); ("content", JStr content)].

(** [`${manifest.name}/${blockType}/${path}`], once [manifest.name] is a
    string. *)
Definition blockKeyOf (name blockType path : string) : string :=
  name ++ "/" ++ blockType ++ "/" ++ path.

Definition compile (blockType : string) (tsContent : TsContent)
    (manifest : AppManifest) (sourceMap : SourceMap)
  : Async.t Err (AppManifest * SourceMap) :=
  _ <- Async.await initializePromise ;;
  tsModule <- importFromString (content tsContent) ;;
  let blockPath := join env (currdir env) blockType (path tsContent) in
  name <- Async.lift (toString (JsObject.get "name" manifest)) ;;
  let blockKey := blockKeyOf name blockType (path tsContent) in
  Async.ret
    (JsObject.set blockType
       (JObj (JsObject.set blockKey (JMod tsModule)
                (ownProps (JsObject.get blockType manifest))))
       manifest,
     JsObject.set blockKey
       (sourceMapEntry blockPath (content tsContent))
       sourceMap).

Record AppResult : Type :=
  { app_manifest : AppManifest;
    app_state : JsObject.t FileSystem;
    app_sourceMap : SourceMap }.

Definition App (st : State) : Async.t Err AppResult :=
  let fs := buildFs (fileSystem st) in
  let appManifest := manifest env in
  let appSourceMap := buildSourceMap env appManifest in
  acc <- Async.for_of (JsObject.entries fs)
           (fun entry acc =>
              let blockType := fst entry in
              let blockContentOrFs := snd entry in
              Async.for_of (walk blockContentOrFs "")
                (fun tsContent acc =>
                   compile blockType tsContent (fst acc) (snd acc))
                acc)
           (appManifest, appSourceMap) ;;
  Async.ret {| app_manifest := fst acc;
               app_state := fs;
               app_sourceMap := snd acc |}.

(** What a process does with the toolchain: the module is evaluated once,
    then come the build passes asked of it. *)
Definition process (passes : list State) : list Event :=
  (Async.events initializePromise
   ++ flat_map (fun st => Async.events (App st)) passes)%list.

End Workspace.

Arguments JStr {Module} s.
Arguments sourceMapEntry {Module} blockPath content.

(* ================================================================= *)
(** ** A concrete host

    std/path for POSIX paths, and a toolchain that stands in for esbuild and
    the module loader: [transform] returns the source it is given, except
    for one text it rejects, [btoa] returns the code as it is, and the
    module loaded from a specifier is that specifier. *)

Module Posix.

Fixpoint split_from (cur : string) (s : string) : list string :=
  match s with
  | EmptyString => [cur]
  | String c r =>
      if (c =? "/")%char then cur :: split_from "" r
      else split_from (cur ++ String c "") r
  end.

(** [path.split("/")] *)
Definition split (s : string) : list string := split_from "" s.

Definition last_is_dotdot (res : list string) : bool :=
  match rev res with
  | seg :: _ => seg =? ".."
  | [] => false
  end.

(** [normalizeString]: [.] and empty segments go, [..] takes the segment
    before it, or stays when there is none and the path is relative. *)
Fixpoint resolve (allowAboveRoot : bool) (segs res : list string) : list string :=
  match segs with
  | [] => res
  | seg :: r =>
      if (seg =? "") || (seg =? ".") then resolve allowAboveRoot r res
      else if seg =? ".." then
        match res with
        | [] => resolve allowAboveRoot r (if allowAboveRoot then [".."] else [])
        | _ :: _ =>
            if last_is_dotdot res
            then resolve allowAboveRoot r
                   (if allowAboveRoot then (res ++ [".."])%list else res)
            else resolve allowAboveRoot r (removelast res)
        end
      else resolve allowAboveRoot r (res ++ [seg])%list
  end.

Definition normalize (p : string) : string :=
  if p =? "" then "."
  else
    let isAbsolute := prefix "/" p in
    let trailingSeparator := endsWith p "/" in
    let body := String.concat "/" (resolve (negb isAbsolute) (split p) []) in
    let body := if (body =? "") && negb isAbsolute then "." else body in
    let body := if negb (body =? "") && trailingSeparator then body ++ "/" else body in
    if isAbsolute then "/" ++ body else body.

(** [join(a, b, c)]: the non-empty arguments joined by [/], normalized. *)
Definition join (a b c : string) : string :=
  match filter (fun p => negb (p =? "")) [a; b; c] with
  | [] => "."
  | ps => normalize (String.concat "/" ps)
  end.

End Posix.

Module Demo.

(** Source text that does not transform. *)
Definition broken : string := "export default (".

Definition esbuild (modData : string) : string + string :=
  if modData =? broken then inl "SyntaxError" else inr modData.

Definition base : AppManifest string :=
  [("name", JStr "acme");
   ("baseUrl", JStr "file:///deco/apps/workspace/");
   ("loaders", JObj [])].

Definition env : Imports string string :=
  {| TypeError := "TypeError";
     initialize := inr tt;
     transform := esbuild;
     btoa := fun code => inr code;
     import := fun specifier => inr specifier;
     join := Posix.join;
     currdir := "file:///deco/apps/workspace";
     manifest := base;
     buildSourceMap := fun _ => [];
     exportsOf := fun _ => [];
     moduleToString := fun _ => inl "TypeError" |}.

Definition file (nm c : string) : FileSystemNode := mkNode nm (File c).
Definition dir (nm : string) (es : list FileSystemNode) : FileSystemNode :=
  mkNode nm (Directory es).
Definition unit (p c : string) : TsContent := {| path := p; content := c |}.

(** Five units under [loaders]; the third does not transform. *)
Definition five : State :=
  {| fileSystem :=
       [dir "loaders"
          [file "a.ts" "A"; file "b.ts" "B"; file "c.ts" broken;
           file "d.ts" "D"; file "e.ts" "E"]] |}.

(** One unit two directories down, a leaf that is no source, and a leaf at
    the top level. *)
Definition nested : State :=
  {| fileSystem :=
       [dir "loaders" [dir "foo" [file "bar.ts" "A"]; file "x.md" "M"];
        file "top.ts" "T"] |}.

(** Two units under a top-level entry called [name]. *)
Definition named : State :=
  {| fileSystem := [dir "name" [file "a.ts" "A"; file "b.ts" "B"]] |}.

(** Two units with one block key under two top-level entries. *)
Definition crossing : State :=
  {| fileSystem :=
       [dir "x" [dir "y" [file "z.ts" "A"]]; dir "x/y" [file "z.ts" "B"]] |}.

(** Two leaves that the walker reaches with the same path: a directory with
    the empty name adds nothing to the root. *)
Definition colliding : State :=
  {| fileSystem :=
       [dir "loaders" [dir "" [file "x.ts" "A"]; file "x.ts" "B"]] |}.

(** A directory stored as [2] then [1]. *)
Definition numbered : list FileSystemNode :=
  [dir "2" [file "a.ts" "A"]; dir "1" [file "b.ts" "B"]].

End Demo.

(* ================================================================= *)
(** ** Specification vocabulary for the build pass *)

Section Vocabulary.

Variable Module : Type.

(** The units of one pass with the top-level entry each was found under,
    in the order the two nested loops of [App] reach them. *)
Definition App_units (fs : JsObject.t FileSystem) : list (string * TsContent) :=
  flat_map (fun entry => map (pair (fst entry)) (walk (snd entry) ""))
           (JsObject.entries fs).

(** The body of the inner loop of [App] on one unit. *)
Definition App_step {Err} (env : Imports Module Err) (cu : string * TsContent)
    (acc : AppManifest Module * SourceMap Module) :=
  compile env (fst cu) (snd cu) (fst acc) (snd acc).

(** The pair [compile] fulfils with, given the loaded module and the
    string [ns] that [manifest.name] converts to. *)
Definition linked {Err} (env : Imports Module Err) (ns blockType : string)
    (u : TsContent) (tsModule : Module)
    (acc : AppManifest Module * SourceMap Module)
  : AppManifest Module * SourceMap Module :=
  let blockKey := blockKeyOf ns blockType (path u) in
  (JsObject.set blockType
     (JObj (JsObject.set blockKey (JMod tsModule)
              (ownProps env (JsObject.get blockType (fst acc)))))
     (fst acc),
   JsObject.set blockKey
     (sourceMapEntry (join env (currdir env) blockType (path u)) (content u))
     (snd acc)).

Definition under_name (cu : string * TsContent) : bool := fst cu =? "name".

(** The prefix of a block key, by whether [manifest.name] was replaced. *)
Definition prefix_at (ns : string) (clobbered : bool) : string :=
  if clobbered then "[object Object]" else ns.

(** The block keys of the units of a pass, in processing order: the prefix
    is the name [ns] of the base manifest until a unit under a top-level
    entry called [name] has been linked, and [[object Object]] after it.
    [clobbered] tells whether that has happened before the first unit. *)
Fixpoint keys_from (clobbered : bool) (ns : string)
    (units : list (string * TsContent)) : list string :=
  match units with
  | [] => []
  | cu :: r =>
      blockKeyOf (prefix_at ns clobbered) (fst cu) (path (snd cu))
      :: keys_from (clobbered || under_name cu) ns r
  end.

Definition block_keys (ns : string) (units : list (string * TsContent))
  : list string := keys_from false ns units.

(** The prefix of the block key of a unit that comes after the units
    [pre], and that key. *)
Definition namespace_after (ns : string) (pre : list (string * TsContent))
  : string :=
  prefix_at ns (existsb under_name pre).

Definition key_of (ns : string) (pre : list (string * TsContent))
    (cu : string * TsContent) : string :=
  blockKeyOf (namespace_after ns pre) (fst cu) (path (snd cu)).

(** The block keys of the units [post] that follow [pre] and [cu]. *)
Definition later_keys (ns : string) (pre : list (string * TsContent))
    (cu : string * TsContent) (post : list (string * TsContent))
  : list string :=
  keys_from (existsb under_name (pre ++ [cu])) ns post.

(** What [manifest.name] is during a pass: the string [ns] of the base
    manifest, or, once a unit has been linked under [name], an object
    without a [toString] of its own. *)
Definition name_state (clobbered : bool) (ns : string)
    (m : AppManifest Module) : Prop :=
  if clobbered
  then exists o, JsObject.get "name" m = Some (JObj o)
                 /\ JsObject.has "toString" o = false
  else JsObject.get "name" m = Some (JStr ns).

Definition not_initialize (ev : Event) : Prop := ev <> EvInitialize.

(** [manifest[blockType][blockKey]], for a [manifest[blockType]] that is an
    object. *)
Definition binding (blockType blockKey : string) (m : AppManifest Module)
  : option (jsval Module) :=
  match JsObject.get blockType m with
  | Some (JObj o) => JsObject.get blockKey o
  | _ => None
  end.

(** [sourceMap[blockKey].content] and [sourceMap[blockKey].path] *)
Definition field (f : string) (v : option (jsval Module)) : option (jsval Module) :=
  match v with
  | Some (JObj o) => JsObject.get f o
  | _ => None
  end.

(** The string has a [/] in it. *)
Fixpoint has_slash (s : string) : bool :=
  match s with
  | EmptyString => false
  | String c r => (c =? "/")%char || has_slash r
  end.

(** What [root.endsWith(".ts") || root.endsWith(".tsx")] decides. *)
Definition is_source (p : string) : bool :=
  endsWith p ".ts" || endsWith p ".tsx".

(** [Leaf fs root p c]: walking [fs] from [root] reaches a leaf with
    content [c] when the path it has built is [p]. *)
Inductive Leaf : FileSystem -> string -> string -> string -> Prop :=
| Leaf_file c root : Leaf (FsFile c) root root c
| Leaf_dir o root nm sub p c :
    In (nm, sub) (JsObject.entries o) ->
    Leaf sub (child_root root nm) p c ->
    Leaf (FsDir o) root p c.

(** The names of a directory are all new string keys: none is an array
    index and none occurs twice. *)
Definition plain_names (nodes : list FileSystemNode) : Prop :=
  NoDup (map name nodes)
  /\ Forall (fun n => JsObject.array_index (name n) = None) nodes.

End Vocabulary.

(** Induction on a flattened tree, with the entries of a directory. *)
Section FileSystem_induction.
Variable P : FileSystem -> Prop.
Hypothesis P_file : forall c, P (FsFile c).
Hypothesis P_dir : forall o, Forall (fun e => P (snd e)) o -> P (FsDir o).

Fixpoint FileSystem_nested_ind (fs : FileSystem) : P fs :=
  match fs with
  | FsFile c => P_file c
  | FsDir o =>
      P_dir
        ((fix all (l : list (string * FileSystem))
            : Forall (fun e => P (snd e)) l :=
            match l with
            | [] => Forall_nil _
            | e :: r => Forall_cons e (FileSystem_nested_ind (snd e)) (all r)
            end) o)
  end.
End FileSystem_induction.

(* ================================================================= *)
(** ** The linking step on a store of objects

    [compile] once more, this time with the identity of the objects it
    works on: a manifest, a category of it and a source map are references
    into a store, an object literal allocates a new object, and a spread
    reads the object it copies from. *)

Module Heap.

Section Monad.
Variable Module : Type.
Variable Err : Type.

Definition loc : Type := nat.

(** A value: a string, a reference to an object of the store, or a module
    namespace object. *)
Inductive val : Type :=
| VStr (s : string)
| VRef (l : loc)
| VMod (m : Module).

(** An object is its own enumerable properties; the store holds the objects
    made so far, each at its reference. *)
Definition object : Type := JsObject.t val.
Definition store : Type := list object.

(** An [async] computation that reads and extends the store. *)
Definition t (A : Type) : Type := store -> Async.t Err A * store.

Definition ret {A} (a : A) : t A := fun h => (Async.ret a, h).

Definition bind {A B} (m : t A) (k : A -> t B) : t B :=
  fun h =>
    let (r, h1) := m h in
    match Async.outcome r with
    | inl e => ((Async.events r, inl e), h1)
    | inr a =>
        let (r2, h2) := k a h1 in
        (((Async.events r ++ Async.events r2)%list, Async.outcome r2), h2)
    end.

(** Work of the toolchain: it is given strings and gives back a string or a
    module, so it holds no reference into the store. *)
Definition async {A} (m : Async.t Err A) : t A := fun h => (m, h).

(** The properties of the object at [l], as the store has them now. *)
Definition read (l : loc) : t object :=
  fun h => (Async.ret (nth l h []), h).

(** An object literal with the properties [o]: a new object, after the
    objects there are. *)
Definition new (o : object) : t loc :=
  fun h => (Async.ret (List.length h), (h ++ [o])%list).

End Monad.

Arguments VStr {Module} s.
Arguments VRef {Module} l.
Arguments ret {Module Err A} a.
Arguments async {Module Err A} m.
Arguments read {Module Err} l.
Arguments new {Module Err} o.

Notation "x <~ m ;; k" := (bind m (fun x => k))
  (at level 61, m at next level, right associativity).

Section Linking.
Variable Module : Type.
Variable Err : Type.

(** The imports of the module, and the enumerable exports of a module
    namespace object as values over the store. *)
Variable env : Imports Module Err.
Variable exported : Module -> object Module.

Fixpoint chars_from (i : N) (s : string) : object Module :=
  match s with
  | EmptyString => []
  | String c r => (decimal i, VStr (String c "")) :: chars_from (N.succ i) r
  end.

(** The own enumerable properties that [{...v}] copies. *)
Definition ownProps (v : option (val Module)) : t Module Err (object Module) :=
  match v with
  | None => ret []
  | Some (VStr s) => ret (chars_from 0 s)
  | Some (VRef l) => read l
  | Some (VMod m) => ret (exported m)
  end.

(** [`${v}`] *)
Definition toString (v : option (val Module)) : t Module Err string :=
  match v with
  | None => ret "undefined"
  | Some (VStr s) => ret s
  | Some (VRef l) =>
      o <~ read l ;;
      async (Async.lift
               (if JsObject.has "toString" o then inl (TypeError env)
                else inr "[object Object]"))
  | Some (VMod m) => async (Async.lift (moduleToString env m))
  end.

(** [o[k]] on the object at [l]. *)
Definition prop (l : loc) (k : string) : t Module Err (option (val Module)) :=
  o <~ read l ;; ret (JsObject.get k o).

(** [compile]: the two awaits, then the template string, then the two
    object literals of the returned pair, each with its inner literal. *)
Definition compile (blockType : string) (tsContent : TsContent)
    (manifest sourceMap : loc) : t Module Err (loc * loc) :=
  _ <~ async (Async.await (initializePromise env)) ;;
  tsModule <~ async (importFromString env (content tsContent)) ;;
  let blockPath := join env (currdir env) blockType (path tsContent) in
  manifestName <~ prop manifest "name" ;;
  name <~ toString manifestName ;;
  let blockKey := blockKeyOf name blockType (path tsContent) in
  manifestProps <~ read manifest ;;
  category <~ prop manifest blockType ;;
  categoryProps <~ ownProps category ;;
  newCategory <~ new (JsObject.set blockKey (VMod tsModule) categoryProps) ;;
  newManifest <~ new (JsObject.set blockType (VRef newCategory) manifestProps) ;;
  sourceMapProps <~ read sourceMap ;;
  entry <~ new [("path", VStr blockPath);
                ("content", VStr (content tsContent))] ;;
  newSourceMap <~ new (JsObject.set blockKey (VRef entry) sourceMapProps) ;;
  ret (newManifest, newSourceMap).

(** The value [j] is what the value [v] is in the store [h]: the same
    string, the same module, or the object at a reference with the same
    keys in the same order and values that correspond. *)
Unset Elimination Schemes.

Inductive represents (h : store Module) : val Module -> jsval Module -> Prop :=
| rep_str s : represents h (VStr s) (JStr s)
| rep_mod m : represents h (VMod m) (JMod m)
| rep_obj l ho o :
    nth_error h l = Some ho ->
    Forall2 (fun e e' => fst e = fst e' /\ represents h (snd e) (snd e'))
            ho o ->
    represents h (VRef l) (JObj o).

Set Elimination Schemes.

Definition related (h : store Module)
    (e : string * val Module) (e' : string * jsval Module) : Prop :=
  fst e = fst e' /\ represents h (snd e) (snd e').

(** Every object of [h] is in [h'] at the same reference with the same
    properties. *)
Definition unchanged (h h' : store Module) : Prop :=
  forall l, l < List.length h -> nth_error h' l = nth_error h l.

(** The reference [l] is to an object that [h] does not have. *)
Definition fresh (h : store Module) (l : loc) : Prop := List.length h <= l.

End Linking.

End Heap.

(** A store after one link on the concrete host: the manifest with the
    unit [a.ts] under [loaders], and the source map with its entry. *)
Module DemoStore.

Definition store : Heap.store string :=
  [ [("name", Heap.VStr "acme");
     ("baseUrl", Heap.VStr "file:///deco/apps/workspace/");
     ("loaders", Heap.VRef 1)];
    [("acme/loaders/a.ts",
      Heap.VMod "data:application/javascript;base64,A")];
    [("acme/loaders/a.ts", Heap.VRef 3)];
    [("path", Heap.VStr "file:/deco/apps/workspace/loaders/a.ts");
     ("content", Heap.VStr "A")] ].

Definition manifest : AppManifest string :=
  [("name", JStr "acme");
   ("baseUrl", JStr "file:///deco/apps/workspace/");
   ("loaders",
    JObj [("acme/loaders/a.ts",
           JMod "data:application/javascript;base64,A")])].

Definition sourceMap : SourceMap string :=
  [("acme/loaders/a.ts",
    JObj [("path", JStr "file:/deco/apps/workspace/loaders/a.ts");
          ("content", JStr "A")])].

End DemoStore.


(* ================================================================= *)
(** ** Further vocabulary: calls, names and paths *)

(** The sources handed to [transform], in the order of the calls. *)
Fixpoint transformed (evs : list Event) : list string :=
  match evs with
  | [] => []
  | EvTransform modData :: r => modData :: transformed r
  | _ :: r => transformed r
  end.

(** A host as [Demo.env] whose toolchain failed to initialize. *)
Definition uninitialized : Imports string string :=
  {| TypeError := TypeError Demo.env;
     initialize := inl "InitializationError";
     transform := transform Demo.env;
     btoa := btoa Demo.env;
     import := import Demo.env;
     join := join Demo.env;
     currdir := currdir Demo.env;
     manifest := manifest Demo.env;
     buildSourceMap := buildSourceMap Demo.env;
     exportsOf := exportsOf Demo.env;
     moduleToString := moduleToString Demo.env |}.

(** The last node of a sequence that has the name [nm]. *)
Definition last_named (nm : string) (nodes : list FileSystemNode)
  : option FileSystemNode :=
  find (fun n => name n =? nm) (rev nodes).

(** The key is an array index. *)
Definition is_index (k : string) : bool :=
  match JsObject.array_index k with Some _ => true | None => false end.

(** The order [Object.entries] keeps between two keys: an array index comes
    before every other key, and array indices ascend. *)
Definition entries_order (k1 k2 : string) : Prop :=
  match JsObject.array_index k1, JsObject.array_index k2 with
  | Some a, Some b => (a <= b)%N
  | Some _, None => True
  | None, Some _ => False
  | None, None => True
  end.

(** The strings of [l] that are not in [seen], each at its first place. *)
Fixpoint first_occurrences (seen l : list string) : list string :=
  match l with
  | [] => []
  | k :: r =>
      if existsb (String.eqb k) seen then first_occurrences seen r
      else k :: first_occurrences (seen ++ [k]) r
  end.

Definition plain_keys (ks : list string) : list string :=
  filter (fun k => negb (is_index k)) ks.

(** A name that is not empty and has no [/] in it. *)
Definition ordinary_name (nm : string) : Prop :=
  nm <> "" /\ has_slash nm = false.

Unset Elimination Schemes.

(** A node value all of whose nodes, at every depth, have ordinary names. *)
Inductive ordinary_value : DirOrFile -> Prop :=
| ordinary_File c : ordinary_value (File c)
| ordinary_Directory es :
    Forall (fun n => ordinary_name (name n) /\ ordinary_value (value n)) es ->
    ordinary_value (Directory es).

(** A flattened tree all of whose directories have each key once, every key
    an ordinary name. *)
Inductive ordinary_fs : FileSystem -> Prop :=
| ordinary_FsFile c : ordinary_fs (FsFile c)
| ordinary_FsDir o :
    NoDup (JsObject.keys o) ->
    Forall (fun e => ordinary_name (fst e) /\ ordinary_fs (snd e)) o ->
    ordinary_fs (FsDir o).

Set Elimination Schemes.

(** [Reach fs names c]: following [names], one entry per directory, from
    [fs] ends on a leaf with content [c]. *)
Inductive Reach : FileSystem -> list string -> string -> Prop :=
| Reach_file c : Reach (FsFile c) [] c
| Reach_dir o nm sub names c :
    In (nm, sub) (JsObject.entries o) ->
    Reach sub names c ->
    Reach (FsDir o) (nm :: names) c.

(** The names after the empty names in front. *)
Fixpoint drop_leading_empty (names : list string) : list string :=
  match names with
  | [] => []
  | nm :: r => if nm =? "" then drop_leading_empty r else nm :: r
  end.

(** The string is empty or begins with [/]. *)
Definition slash_tail (t : string) : Prop :=
  t = "" \/ exists r, t = String "/" r.

(** Induction on a node value, with the nodes of a directory. *)
Section DirOrFile_induction.
Variable P : DirOrFile -> Prop.
Hypothesis P_file : forall c, P (File c).
Hypothesis P_dir : forall es, Forall (fun n => P (value n)) es -> P (Directory es).

Fixpoint DirOrFile_nested_ind (v : DirOrFile) : P v :=
  match v with
  | File c => P_file c
  | Directory es =>
      P_dir
        ((fix all (l : list FileSystemNode)
            : Forall (fun n => P (value n)) l :=
            match l with
            | [] => Forall_nil _
            | n :: r =>
                Forall_cons n
                  (match n return P (value n) with
                   | mkNode _ v' => DirOrFile_nested_ind v'
                   end)
                  (all r)
            end) es)
  end.
End DirOrFile_induction.

(* ================================================================= *)
(** ** Object literals with a spread, and rest properties *)

(** [{...target, ...source}]: the properties of [source] are defined one by
    one, in their order, on the copy of [target]. *)
Definition assign {V : Type} (target source : JsObject.t V) : JsObject.t V :=
  fold_left (fun acc kv => JsObject.set (fst kv) (snd kv) acc) source target.

(** [const { [k]: _, ...rest } = o]: the properties of [o] but [k]. *)
Definition rest_without {V : Type} (k : string) (o : JsObject.t V)
  : JsObject.t V :=
  filter (fun kv => negb (fst kv =? k)) o.

(* ================================================================= *)
(** ** The assistants of the AI assistants hub *)

Module Assistants.

Section Hub.

(** [AIAssistant] values, and the reasons a promise rejects with. *)
Variable AIAssistant : Type.
Variable Err : Type.

(** What calling a deferred assistant does: it throws, or returns a value,
    or returns a promise that fulfils, rejects or stays pending. *)
Inductive Returned : Type :=
| Throws (e : Err)
| Value (a : AIAssistant)
| Awaitable (settles : option (Err + AIAssistant)).

(** An element of [state.assistants] that [filter(Boolean)] keeps: an
    assistant, or a deferred one ([isDeferred]); [name] is what
    [assistant.name] reads on it. *)
Inductive Element : Type :=
| Plain (name : string) (a : AIAssistant)
| Deferred (name : string) (call : Returned).

Definition name (e : Element) : string :=
  match e with Plain n _ => n | Deferred n _ => n end.

(** The state a [deferred<AIAssistant>()] ends in. *)
Inductive DeferredState : Type :=
| Pending
| Resolved (a : AIAssistant)
| Rejected (e : Err).

(** The deferred the reducer makes for an element, as it is once the
    promises have settled; [inl] when the call of the element throws. *)
Definition assistantDeferred (e : Element) : Err + DeferredState :=
  match e with
  | Plain _ a => inr (Resolved a)
  | Deferred _ (Throws err) => inl err
  | Deferred _ (Value a) => inr (Resolved a)
  | Deferred _ (Awaitable None) => inr Pending
  | Deferred _ (Awaitable (Some (inr a))) => inr (Resolved a)
  | Deferred _ (Awaitable (Some (inl err))) => inr (Rejected err)
  end.

(** [filter(Boolean)]: [None] stands for an element that is falsy. *)
Fixpoint truthy (l : list (option Element)) : list Element :=
  match l with
  | [] => []
  | Some e :: r => e :: truthy r
  | None :: r => truthy r
  end.

(** One call of the reducer:
    [{ [assistant.name]: assistantDeferred, ...acc }]. *)
Definition reducer (acc : Err + JsObject.t DeferredState)
    (assistant : Element) : Err + JsObject.t DeferredState :=
  match acc with
  | inl e => inl e
  | inr o =>
      match assistantDeferred assistant with
      | inl e => inl e
      | inr d => inr (assign [(name assistant, d)] o)
      end
  end.

(** [(state.assistants ?? []).filter(Boolean).reduce(..., {})] *)
Definition assistants (stateAssistants : option (list (option Element)))
  : Err + JsObject.t DeferredState :=
  fold_left reducer
    (truthy (match stateAssistants with Some l => l | None => [] end))
    (inr []).

(** What the hub takes from the OpenAI app: the app that [openai(state)]
    returns, the values of the properties of its state, the object
    [openAIApp.state.openAI.beta.assistants], and the promise its
    [retrieve] returns. *)
Variable OpenAIProps : Type.
Variable OpenAIApp : Type.
Variable OpenAIValue : Type.
Variable AssistantsAPI : Type.
Variable Promise : Type.
Variable Manifest : Type.

Record Props : Type :=
  { openAIProps : OpenAIProps;
    assistantId : string;
    instructions : option string;
    props_assistants : option (list (option Element)) }.

Record Imports : Type :=
  { (** [./manifest.gen.ts] *)
    hub_manifest : Manifest;
    (** [openai(state)], which may throw *)
    openai : Props -> Err + OpenAIApp;
    (** the own enumerable properties of [openAIApp.state] *)
    stateOf : OpenAIApp -> JsObject.t OpenAIValue;
    (** [openAIApp.state.openAI.beta.assistants]; reading through a link
        that is [undefined] throws *)
    assistantsOf : OpenAIApp -> Err + AssistantsAPI;
    (** [assistantsAPI.retrieve(id)], which may throw *)
    retrieve : AssistantsAPI -> string -> Err + Promise }.

Variable env : Imports.

(** The values of the properties of the state of the hub. *)
Inductive StateValue : Type :=
| FromOpenAI (v : OpenAIValue)
| Assistants (o : JsObject.t DeferredState)
| Instructions (s : string)
| Assistant (p : Promise).

Record Hub : Type :=
  { manifest : Manifest;
    state : JsObject.t StateValue;
    dependencies : list OpenAIApp }.

(** [App]: [openai(state)] and the read of the assistants API come first;
    the properties of the returned state are evaluated in the order they
    are written. *)
Definition App (props : Props) : Err + Hub :=
  match openai env props with
  | inl e => inl e
  | inr openAIApp =>
      match assistantsOf env openAIApp with
      | inl e => inl e
      | inr assistantsAPI =>
          let spread := map (fun p => (fst p, FromOpenAI (snd p)))
                            (stateOf env openAIApp) in
          match assistants (props_assistants props) with
          | inl e => inl e
          | inr byName =>
              let text :=
                match instructions props with Some s => s | None => "" end in
              match retrieve env assistantsAPI (assistantId props) with
              | inl e => inl e
              | inr assistant =>
                  inr {| manifest := hub_manifest env;
                         state :=
                           JsObject.set "assistant" (Assistant assistant)
                             (JsObject.set "instructions" (Instructions text)
                                (JsObject.set "assistants" (Assistants byName)
                                   spread));
                         dependencies := [openAIApp] |}
              end
          end
      end
  end.

End Hub.

Arguments Pending {AIAssistant Err}.

End Assistants.

(* ================================================================= *)
(** ** The list of pages *)

Module Pages.

Section Pages.

(** The values of a stored block that are no strings. *)
Variable Other : Type.

Inductive FieldValue : Type :=
| Undefined
| Str (s : string)
| Value (x : Other).

Definition Block : Type := JsObject.t FieldValue.

Definition PAGE_RESOLVE_TYPE : string := "website/pages/Page.tsx".

(** [o[k]] *)
Definition prop (k : string) (o : Block) : FieldValue :=
  match JsObject.get k o with Some v => v | None => Undefined end.

(** [([id, { __resolveType, ...blockState }]) =>
     ({ id, ...blockState, module: __resolveType })] *)
Definition toMetadata (entry : string * Block) : Block :=
  let id := fst entry in
  let __resolveType := prop "__resolveType" (snd entry) in
  let blockState := rest_without "__resolveType" (snd entry) in
  JsObject.set "module" __resolveType (assign [("id", Str id)] blockState).

(** The stored block resolves to a page. *)
Definition isPageBlock (block : Block) : bool :=
  match prop "__resolveType" block with
  | Str s => s =? PAGE_RESOLVE_TYPE
  | _ => false
  end.

(** [(block) => block.module === PAGE_RESOLVE_TYPE] *)
Definition isPage (block : Block) : bool :=
  match prop "module" block with
  | Str s => s =? PAGE_RESOLVE_TYPE
  | _ => false
  end.

Record Pagination : Type :=
  { data : list Block; page : nat; pageSize : nat; total : nat }.

(** [ListPages], from the state the storage returned ([None] when it is
    [null] or [undefined]). *)
Definition ListPages (state : option (JsObject.t Block)) : Pagination :=
  match state with
  | None => {| data := []; page := 0; pageSize := 0; total := 0 |}
  | Some st =>
      let data := filter isPage (map toMetadata (JsObject.entries st)) in
      {| data := data; page := 0;
         pageSize := List.length data; total := List.length data |}
  end.

End Pages.

Arguments Undefined {Other}.
Arguments Str {Other} s.

End Pages.

(* ================================================================= *)
(** ** The cookies the add-to-cart action forwards *)

Module CartCookies.

(** The white space [trim] removes, among the characters below 256. *)
Definition is_space (c : ascii) : bool :=
  let n := N_of_ascii c in
  ((9 <=? n) && (n <=? 13) || (n =? 32) || (n =? 160))%N.

Fixpoint trimStart (s : string) : string :=
  match s with
  | EmptyString => EmptyString
  | String c r => if is_space c then trimStart r else s
  end.

Fixpoint trimEnd (s : string) : string :=
  match s with
  | EmptyString => EmptyString
  | String c r =>
      match trimEnd r with
      | EmptyString => if is_space c then EmptyString else String c EmptyString
      | r' => String c r'
      end
  end.

(** [s.trim()] *)
Definition trim (s : string) : string := trimStart (trimEnd s).

Fixpoint split_from (sep : ascii) (cur s : string) : list string :=
  match s with
  | EmptyString => [cur]
  | String c r =>
      if (c =? sep)%char then cur :: split_from sep "" r
      else split_from sep (cur ++ String c "") r
  end.

(** [s.split(",")] *)
Definition split_comma (s : string) : list string := split_from "," "" s.

Definition desiredCookies : list string :=
  ["store_session_payload_2734114"; "store_login_session"].

(** The strings the action appends as [Set-Cookie] to its response, from
    what [response.headers.get("set-cookie")] gave ([None] for [null]). *)
Definition cookiesToSet (setCookie : option string) : list string :=
  let setCookiesArray :=
    match setCookie with Some h => split_comma h | None => [] end in
  flat_map
    (fun cookieStr =>
       if existsb (fun desiredCookie => prefix desiredCookie (trim cookieStr))
                  desiredCookies
       then [trim cookieStr] else [])
    setCookiesArray.

Fixpoint has_comma (s : string) : bool :=
  match s with
  | EmptyString => false
  | String c r => (c =? ",")%char || has_comma r
  end.

End CartCookies.

(* ================================================================= *)
(** ** The add-to-cart action *)

Module AddItems.

Section Action.

(** Numbers, the value of [result.cart] and of [result?.cart?.id] (either
    may be [undefined]), a [Headers] object for the request, and what is
    thrown. *)
Variable Number : Type.
Variable Cart : Type.
Variable Id : Type.
Variable Headers : Type.
Variable Err : Type.

Record AddItemProps : Type :=
  { quantity : Number;
    itemId : Number;
    add_to_cart_enhanced : option string }.

(** [req.headers.get("Cookie")] and [req.url] *)
Record Request : Type := { cookie : option string; url : string }.

Record AppContext : Type := { publicUrl : string }.

(** The value [response.json()] fulfils with: [null], or a value with the
    [cart] that [result.cart] reads on it. *)
Inductive Body : Type :=
| Null
| Value (cart : Cart).

Record RequestInit : Type :=
  { method : string;
    headers : Headers;
    body : list (string * string) }.

(** What the action asks of the world outside, in order: the request
    upstream, the read of the body of the answer, [setCartCookie] on the
    headers of its own response, and an [append] on those headers. *)
Inductive Effect : Type :=
| Fetch (input : string) (init : RequestInit)
| Json
| SetCartCookie (id : Id)
| Append (name value : string).

(** The answer of the upstream: what [headers.get("set-cookie")] gives, and
    what [json()] fulfils or rejects with. *)
Record Response : Type :=
  { set_cookie : option string;
    json : Err + Body }.

Record Platform : Type :=
  { TypeError : Err;
    (** [new Headers()] and [append] on a [Headers] of the action's own,
        which throws on a value that is no header value *)
    emptyHeaders : Headers;
    append : Headers -> string -> string -> Err + Headers;
    (** the conversion of a number that [URLSearchParams.append] makes *)
    numberToString : Number -> string;
    fetch : string -> RequestInit -> Err + Response;
    (** [cart?.id] *)
    idOf : Cart -> Id;
    undefinedId : Id;
    (** [setCartCookie(ctx.response.headers, id)] and
        [ctx.response.headers.append(name, value)], which may throw *)
    setCartCookie : Id -> Err + unit;
    appendToResponse : string -> string -> Err + unit }.

Variable P : Platform.

(** An [async] function: what it asked of the world, and what it fulfils or
    rejects with. *)
Definition M (A : Type) : Type := (list Effect * (Err + A))%type.

Definition ret {A} (a : A) : M A := ([], inr a).

Definition bind {A B} (m : M A) (k : A -> M B) : M B :=
  match snd m with
  | inl e => (fst m, inl e)
  | inr a => ((fst m ++ fst (k a))%list, snd (k a))
  end.

Definition perform {A} (ef : Effect) (r : Err + A) : M A := ([ef], r).

Definition throws {A} (r : Err + A) : M A := ([], r).

(** [for (const cookie of cookiesToSet) ctx.response.headers.append(...)] *)
Fixpoint appendAll (cookiesToSet : list string) : M unit :=
  match cookiesToSet with
  | [] => ret tt
  | cookie :: r =>
      bind (perform (Append "Set-Cookie" cookie)
              (appendToResponse P "Set-Cookie" cookie))
           (fun _ => appendAll r)
  end.

(** [result?.cart?.id] *)
Definition cartId (result : Body) : Id :=
  match result with
  | Null => undefinedId P
  | Value cart => idOf P cart
  end.

(** The headers of the request upstream: [myHeaders] after its
    [append]s, the first of which is made when the request has a cookie
    string that is not empty. *)
Definition requestHeaders (req : Request) (ctx : AppContext)
  : Err + Headers :=
  let requestCookies := cookie req in
  match (match requestCookies with
         | Some c =>
             if c =? "" then inr (emptyHeaders P)
             else append P (emptyHeaders P) "Cookie" c
         | None => inr (emptyHeaders P)
         end) with
  | inl e => inl e
  | inr h1 =>
      match append P h1 "Origin" (publicUrl ctx) with
      | inl e => inl e
      | inr h2 =>
          match append P h2 "Referer" (url req) with
          | inl e => inl e
          | inr h3 =>
              match append P h3 "X-Requested-With" "XMLHttpRequest" with
              | inl e => inl e
              | inr h4 =>
                  append P h4 "Content-Type"
                    "application/x-www-form-urlencoded"
              end
          end
      end
  end.

(** [requestOptions], with the three parameters of [urlencoded];
    [add_to_cart_enhanced] is ["1"] when it is not given. *)
Definition requestOptions (props : AddItemProps) (myHeaders : Headers)
  : RequestInit :=
  let urlencoded :=
    [("add_to_cart", numberToString P (itemId props));
     ("quantity", numberToString P (quantity props));
     ("add_to_cart_enhanced",
      match add_to_cart_enhanced props with Some v => v | None => "1" end)] in
  {| method := "POST"; headers := myHeaders; body := urlencoded |}.

Definition action (props : AddItemProps) (req : Request) (ctx : AppContext)
  : M Cart :=
  bind (throws (requestHeaders req ctx)) (fun myHeaders =>
  let input := publicUrl ctx ++ "/comprar/" in
  bind (perform (Fetch input (requestOptions props myHeaders))
          (fetch P input (requestOptions props myHeaders))) (fun response =>
  bind (perform Json (json response)) (fun result =>
  bind (perform (SetCartCookie (cartId result))
          (setCartCookie P (cartId result))) (fun _ =>
  let cookiesToSet := CartCookies.cookiesToSet (set_cookie response) in
  bind (appendAll cookiesToSet) (fun _ =>
  match result with
  | Null => throws (inl (TypeError P))
  | Value cart => ret cart
  end))))).

End Action.

End AddItems.

(* ================================================================= *)
(** ** The VTEX segment *)

Module Segment.

Section Segment.

(** JSON values that are neither [null] nor a string, and what is thrown. *)
Variable Json : Type.
Variable Err : Type.

Inductive Val : Type :=
| Undefined
| Null
| Str (s : string)
| Other (j : Json).

Definition Partial : Type := JsObject.t Val.

(** What the module does not define itself: the truth value of the other
    JSON values, [removeNonLatin1Chars], [JSON.stringify], [btoa], and the
    properties of [JSON.parse(atob(cookie))] that a spread copies. *)
Variable truthyJson : Json -> bool.
Variable removeNonLatin1Chars : Val -> Err + Val.
Variable stringify : Partial -> string.
Variable btoa : string -> Err + string.
Variable parse : string -> Err + Partial.

Definition truthy (v : Val) : bool :=
  match v with
  | Undefined | Null => false
  | Str s => negb (s =? "")
  | Other j => truthyJson j
  end.

(** [o[k]] *)
Definition prop (k : string) (o : Partial) : Val :=
  match JsObject.get k o with Some v => v | None => Undefined end.

Definition SEGMENT_COOKIE_NAME : string := "vtex_segment".

Definition DEFAULT_SEGMENT : Partial :=
  [("utmi_campaign", Null);
   ("utm_campaign", Null);
   ("utm_source", Null);
   ("channel", Str "1");
   ("cultureInfo", Str "pt-BR");
   ("currencyCode", Str "BRL");
   ("currencySymbol", Str "R$");
   ("countryCode", Str "BRA")].

Definition isAnonymous (payload : Partial) : bool :=
  negb (truthy (prop "campaigns" payload))
  && negb (truthy (prop "utm_campaign" payload))
  && negb (truthy (prop "utm_source" payload))
  && negb (truthy (prop "utmi_campaign" payload))
  && negb (truthy (prop "channel" payload))
  && negb (truthy (prop "priceTables" payload))
  && negb (truthy (prop "regionId" payload)).

(** [v && removeNonLatin1Chars(v)] *)
Definition cleaned (v : Val) : Err + Val :=
  if truthy v then removeNonLatin1Chars v else inr v.

Definition serialize (segment : Partial) : Err + string :=
  match cleaned (prop "utm_campaign" segment) with
  | inl e => inl e
  | inr utm_campaign =>
      match cleaned (prop "utm_source" segment) with
      | inl e => inl e
      | inr utm_source =>
          match cleaned (prop "utmi_campaign" segment) with
          | inl e => inl e
          | inr utmi_campaign =>
              let seg :=
                [("campaigns", prop "campaigns" segment);
                 ("channel", prop "channel" segment);
                 ("priceTables", prop "priceTables" segment);
                 ("regionId", prop "regionId" segment);
                 ("utm_campaign", utm_campaign);
                 ("utm_source", utm_source);
                 ("utmi_campaign", utmi_campaign);
                 ("currencyCode", prop "currencyCode" segment);
                 ("currencySymbol", prop "currencySymbol" segment);
                 ("countryCode", prop "countryCode" segment);
                 ("cultureInfo", prop "cultureInfo" segment);
                 ("channelPrivacy", prop "channelPrivacy" segment)] in
              btoa (stringify seg)
          end
      end
  end.

Definition SEGMENT_QUERY_PARAMS : list string :=
  ["utmi_campaign"; "utm_campaign"; "utm_source"].

(** [buildSegmentCookie], from the parameters of the query of [req.url] in
    their order; [url.searchParams.get] gives the first value of a name. *)
Definition buildSegmentCookie (searchParams : list (string * string))
  : Partial :=
  fold_left
    (fun partialSegment qs =>
       match JsObject.get qs searchParams with
       | Some param =>
           if negb (param =? "")
           then JsObject.set qs (Str param) partialSegment
           else partialSegment
       | None => partialSegment
       end)
    SEGMENT_QUERY_PARAMS [].

Record WrappedSegment : Type := { payload : Partial; token : string }.

(** [vtex_segment && parse(vtex_segment)], as the properties a spread
    copies from it: none when there is no cookie or the cookie is empty. *)
Definition segmentFromCookie (vtex_segment : option string) : Err + Partial :=
  match vtex_segment with
  | Some c => if c =? "" then inr [] else parse c
  | None => inr []
  end.

(** [{ channel: ctx.salesChannel, ...DEFAULT_SEGMENT, ...ctx.defaultSegment,
      ...segmentFromCookie, ...segmentFromRequest }] *)
Definition merged (salesChannel : Val) (defaultSegment : option Partial)
    (fromCookie fromRequest : Partial) : Partial :=
  assign
    (assign
       (assign
          (assign [("channel", salesChannel)] DEFAULT_SEGMENT)
          (match defaultSegment with Some d => d | None => [] end))
       fromCookie)
    fromRequest.

(** [setSegmentBag]: what it puts in the bag, and the value of the cookie
    it sets on the response, if it sets one.  [cookie] is
    [cookies["vtex_segment"]], [salesChannel] and [defaultSegment] are those
    of [ctx]. *)
Definition setSegmentBag (cookie : option string)
    (searchParams : list (string * string))
    (salesChannel : Val) (defaultSegment : option Partial)
  : Err + (WrappedSegment * option string) :=
  let vtex_segment := cookie in
  match segmentFromCookie vtex_segment with
  | inl e => inl e
  | inr fromCookie =>
      let segmentFromRequest := buildSegmentCookie searchParams in
      let segment :=
        merged salesChannel defaultSegment fromCookie segmentFromRequest in
      match serialize segment with
      | inl e => inl e
      | inr token =>
          inr ({| payload := segment; token := token |},
               match vtex_segment with
               | Some c => if c =? token then None else Some token
               | None => Some token
               end)
      end
  end.

End Segment.

Arguments Undefined {Json}.
Arguments Null {Json}.
Arguments Str {Json} s.
Arguments buildSegmentCookie {Json} searchParams.

End Segment.

(* ================================================================= *)
(** ** Concrete inputs for the further properties *)

Module Samples.

(** A stored page with an [id] of its own, and a stored section. *)
Definition home : Pages.Block unit :=
  [("__resolveType", Pages.Str "website/pages/Page.tsx");
   ("id", Pages.Str "custom");
   ("name", Pages.Str "Home")].

Definition hero : Pages.Block unit :=
  [("__resolveType", Pages.Str "site/sections/Hero.tsx")].

(** Stand-ins for what the segment module imports: every other JSON value
    is truthy, [removeNonLatin1Chars] and [btoa] return what they are
    given, [JSON.stringify] is replaced by the list of the keys, and no
    cookie parses to a property. *)
Definition stringify (o : Segment.Partial unit) : string :=
  String.concat "," (JsObject.keys o).

Definition setSegmentBag :=
  @Segment.setSegmentBag unit string
    (fun _ => true) (fun v => inr v) stringify (fun s => inr s)
    (fun _ => inr []).

(** Two assistants with one name, and a falsy element between them. *)
Definition helpers : list (option (Assistants.Element string string)) :=
  [Some (@Assistants.Plain string string "helper" "first");
   None;
   Some (@Assistants.Deferred string string "helper"
           (@Assistants.Value string string "second"))].

(** A query with a campaign and an empty source. *)
Definition query : list (string * string) :=
  [("utm_campaign", "spring"); ("utm_source", ""); ("page", "2")].

(** A stand-in for the platform of the add-to-cart action: a [Headers]
    is the list of what was appended to it, a cart is its id, and the
    upstream answers every request with two cookies of the store, the first
    with a date, and one other cookie between them. *)
Definition upstreamSetCookie : string :=
  "store_login_session=abc; Expires=Wed, 21 Oct 2026 07:28:00 GMT, other=1, store_session_payload_2734114=xyz; Path=/".

Definition platform
  : AddItems.Platform N (option string) (option string)
      (list (string * string)) string :=
  {| AddItems.TypeError := "TypeError";
     AddItems.emptyHeaders := [];
     AddItems.append := fun h name value => inr (h ++ [(name, value)])%list;
     AddItems.numberToString := decimal;
     AddItems.fetch := fun _ _ =>
       inr {| AddItems.set_cookie := Some upstreamSetCookie;
              AddItems.json := inr (AddItems.Value (Some "cart-1")) |};
     AddItems.idOf := fun cart => cart;
     AddItems.undefinedId := None;
     AddItems.setCartCookie := fun _ => inr tt;
     AddItems.appendToResponse := fun _ _ => inr tt |}.

Definition addTwo : AddItems.AddItemProps N :=
  {| AddItems.quantity := 2%N;
     AddItems.itemId := 77%N;
     AddItems.add_to_cart_enhanced := None |}.

Definition request : AddItems.Request :=
  {| AddItems.cookie := Some "sid=1";
     AddItems.url := "https://shop.example/produtos/x" |}.

Definition context : AddItems.AppContext :=
  {| AddItems.publicUrl := "https://shop.example" |}.

End Samples.
(* ================================================================= *)
(** ** Properties of property lists *)

Module JsObjectFacts.
Import JsObject.

Section Facts.
Variable V : Type.
Implicit Types (o : JsObject.t V) (k : string) (v : V).

Lemma get_app k o1 o2 :
  get k (o1 ++ o2)%list
  = match get k o1 with Some v => Some v | None => get k o2 end.
Proof.
  induction o1 as [|[k1 v1] r IH]; simpl; [reflexivity|].
  destruct (k1 =? k); [reflexivity | exact IH].
Qed.

Lemma get_replace_same k v o : has k o = true -> get k (replace k v o) = Some v.
Proof.
  unfold has. induction o as [|[k1 v1] r IH]; simpl; [discriminate|].
  destruct (k1 =? k) eqn:E; simpl.
  - now rewrite String.eqb_refl.
  - rewrite E. exact IH.
Qed.

Lemma get_replace_other k k' v o : k' <> k -> get k' (replace k v o) = get k' o.
Proof.
  intros Hne. induction o as [|[k1 v1] r IH]; simpl; [reflexivity|].
  destruct (k1 =? k) eqn:E; simpl.
  - apply String.eqb_eq in E. subst k1.
    apply String.eqb_neq in Hne. rewrite String.eqb_sym in Hne.
    now rewrite Hne.
  - destruct (k1 =? k'); [reflexivity | exact IH].
Qed.

Lemma get_insert_index_same n k v o :
  has k o = false -> get k (insert_index n k v o) = Some v.
Proof.
  unfold has. induction o as [|[k1 v1] r IH]; simpl; intros H.
  - now rewrite String.eqb_refl.
  - destruct (k1 =? k) eqn:E; [discriminate|].
    destruct (array_index k1) as [n1|]; [destruct (n1 <? n)%N|]; simpl;
      rewrite ?E, ?String.eqb_refl; auto.
Qed.

Lemma get_insert_index_other n k k' v o :
  k' <> k -> get k' (insert_index n k v o) = get k' o.
Proof.
  intros Hne. apply String.eqb_neq in Hne. rewrite String.eqb_sym in Hne.
  induction o as [|[k1 v1] r IH]; simpl.
  - now rewrite Hne.
  - destruct (array_index k1) as [n1|]; [destruct (n1 <? n)%N|]; simpl;
      rewrite ?Hne; try reflexivity.
    destruct (k1 =? k'); [reflexivity | exact IH].
Qed.

(** [({...o, [k]: v})[k]] is [v]. *)
Lemma get_set_same k v o : get k (set k v o) = Some v.
Proof.
  unfold set. destruct (has k o) eqn:H.
  - now apply get_replace_same.
  - destruct (array_index k).
    + now apply get_insert_index_same.
    + rewrite get_app. unfold has in H.
      destruct (get k o); [discriminate|]. simpl. now rewrite String.eqb_refl.
Qed.

(** Every other property of [{...o, [k]: v}] is the one of [o]. *)
Lemma get_set_other k k' v o : k' <> k -> get k' (set k v o) = get k' o.
Proof.
  intros Hne. unfold set. destruct (has k o).
  - now apply get_replace_other.
  - destruct (array_index k).
    + now apply get_insert_index_other.
    + rewrite get_app. destruct (get k' o); [reflexivity|]. simpl.
      apply String.eqb_neq in Hne. rewrite String.eqb_sym in Hne.
      now rewrite Hne.
Qed.

Lemma has_set_same k v o : has k (set k v o) = true.
Proof. unfold has. now rewrite get_set_same. Qed.

Lemma has_set_other k k' v o : k' <> k -> has k' (set k v o) = has k' o.
Proof. intros. unfold has. now rewrite get_set_other. Qed.

Lemma has_In k o : has k o = true <-> In k (keys o).
Proof.
  unfold has, keys. induction o as [|[k1 v1] r IH]; simpl.
  - split; [discriminate | tauto].
  - destruct (k1 =? k) eqn:E.
    + apply String.eqb_eq in E. tauto.
    + apply String.eqb_neq in E. rewrite IH. tauto.
Qed.

(** A key that is new and is not an array index goes last. *)
Lemma set_fresh k v o :
  ~ In k (keys o) -> array_index k = None -> set k v o = (o ++ [(k, v)])%list.
Proof.
  intros Hnew Hidx. unfold set.
  destruct (has k o) eqn:H; [apply has_In in H; contradiction|].
  now rewrite Hidx.
Qed.

Lemma keys_replace k v o : keys (replace k v o) = keys o.
Proof.
  unfold keys. induction o as [|[k1 v1] r IH]; simpl; [reflexivity|].
  destruct (String.eqb_spec k1 k) as [->|_]; simpl; [reflexivity|].
  now rewrite IH.
Qed.

Lemma keys_insert_index n k v o k' :
  In k' (keys (insert_index n k v o)) <-> k' = k \/ In k' (keys o).
Proof.
  unfold keys. induction o as [|[k1 v1] r IH]; simpl.
  - intuition.
  - destruct (array_index k1) as [n1|]; [destruct (n1 <? n)%N|]; simpl;
      rewrite ?IH; intuition.
Qed.

Lemma NoDup_insert_index n k v o :
  ~ In k (keys o) -> NoDup (keys o) -> NoDup (keys (insert_index n k v o)).
Proof.
  unfold keys. induction o as [|[k1 v1] r IH]; simpl; intros Hout Hnd.
  - constructor; [intros [] | constructor].
  - inversion Hnd as [|? ? Hk1 Hr]; subst.
    assert (Hins : NoDup (k :: k1 :: map fst r))
      by (constructor; [simpl; tauto | exact Hnd]).
    destruct (array_index k1) as [n1|]; [destruct (n1 <? n)%N|]; simpl;
      try exact Hins.
    constructor.
    + intros Hin. apply (keys_insert_index n k v r k1) in Hin.
      destruct Hin as [->|Hin]; [apply Hout; now left | contradiction].
    + apply IH; [tauto | exact Hr].
Qed.

(** An object has each key once. *)
Lemma NoDup_set k v o : NoDup (keys o) -> NoDup (keys (set k v o)).
Proof.
  intros Hnd. unfold set. destruct (has k o) eqn:H.
  - now rewrite keys_replace.
  - assert (Hout : ~ In k (keys o)).
    { intros Hin. apply has_In in Hin. congruence. }
    destruct (array_index k).
    + now apply NoDup_insert_index.
    + unfold keys. rewrite map_app. simpl.
      apply NoDup_app; [exact Hnd | constructor; [intros [] | constructor] |].
      intros x Hx [<-|[]]. now apply Hout.
Qed.

End Facts.
End JsObjectFacts.

(* ================================================================= *)
(** ** Two property lists that differ in the value of one key *)

Module Shadow.
Import JsObject JsObjectFacts.

Create HintDb shadow.

Section Shadow.
Variable V : Type.
Variable nm : string.

(** [same_but o o']: the same keys in the same order, and the same values
    except, possibly, under the first [nm]. *)
Inductive same_but : JsObject.t V -> JsObject.t V -> Prop :=
| same_refl o : same_but o o
| same_here x x' r : same_but ((nm, x) :: r) ((nm, x') :: r)
| same_skip kv o o' : fst kv <> nm -> same_but o o' -> same_but (kv :: o) (kv :: o').

Hint Constructors same_but : shadow.

Lemma same_but_has k o o' : same_but o o' -> has k o = has k o'.
Proof.
  intros H. unfold has.
  induction H as [o|x x' r|[k1 v1] o o' Hk H IH]; simpl.
  - reflexivity.
  - destruct (nm =? k); reflexivity.
  - destruct (k1 =? k); [reflexivity | exact IH].
Qed.

Lemma same_but_replace k v o o' :
  k <> nm -> same_but o o' -> same_but (replace k v o) (replace k v o').
Proof.
  intros Hne H. induction H as [o|x x' r|[k1 v1] o o' Hk H IH]; simpl;
    auto with shadow.
  - destruct (nm =? k); auto with shadow.
  - destruct (k1 =? k); auto with shadow.
Qed.

Lemma same_but_insert_index n k v o o' :
  k <> nm -> same_but o o' ->
  same_but (insert_index n k v o) (insert_index n k v o').
Proof.
  intros Hne H. induction H as [o|x x' r|[k1 v1] o o' Hk H IH]; simpl;
    auto with shadow.
  - destruct (array_index nm) as [n1|]; [destruct (n1 <? n)%N|];
      auto with shadow.
  - destruct (array_index k1) as [n1|]; [destruct (n1 <? n)%N|];
      auto with shadow.
Qed.

Lemma same_but_app o o' tl :
  same_but o o' -> same_but (o ++ tl)%list (o' ++ tl)%list.
Proof.
  intros H. induction H; simpl; auto with shadow.
Qed.

Lemma same_but_replace_nm v o o' :
  same_but o o' -> replace nm v o = replace nm v o'.
Proof.
  intros H. induction H as [o|x x' r|[k1 v1] o o' Hk H IH]; simpl.
  - reflexivity.
  - now rewrite String.eqb_refl.
  - simpl in Hk. apply String.eqb_neq in Hk. rewrite Hk. now rewrite IH.
Qed.

Lemma same_but_absent o o' : same_but o o' -> has nm o = false -> o = o'.
Proof.
  unfold has. intros H.
  induction H as [o|x x' r|[k1 v1] o o' Hk H IH]; simpl; intros Hno.
  - reflexivity.
  - rewrite String.eqb_refl in Hno. discriminate.
  - simpl in Hk. apply String.eqb_neq in Hk. rewrite Hk in Hno.
    now rewrite IH.
Qed.

(** Writing [nm] again makes the two equal. *)
Lemma same_but_set_nm v o o' : same_but o o' -> set nm v o = set nm v o'.
Proof.
  intros H. unfold set. rewrite <- (same_but_has nm H).
  destruct (has nm o) eqn:E.
  - now apply same_but_replace_nm.
  - now rewrite (same_but_absent H E).
Qed.

(** Defining any key on both keeps them related. *)
Lemma same_but_set k v o o' :
  same_but o o' -> same_but (set k v o) (set k v o').
Proof.
  intros H. destruct (String.eqb_spec k nm) as [->|Hne].
  - rewrite (same_but_set_nm v H). constructor.
  - unfold set. rewrite <- (same_but_has k H).
    destruct (has k o).
    + now apply same_but_replace.
    + destruct (array_index k).
      * now apply same_but_insert_index.
      * now apply same_but_app.
Qed.

(** Two values written under [nm] on the same object. *)
Lemma set_same_but x x' o : same_but (set nm x o) (set nm x' o).
Proof.
  unfold set. destruct (has nm o) eqn:E.
  - unfold has in E. induction o as [|[k1 v1] r IH]; simpl in *; [discriminate|].
    destruct (k1 =? nm) eqn:E1; auto with shadow.
    apply same_skip; [simpl; now apply String.eqb_neq | auto].
  - destruct (array_index nm) as [n|].
    + unfold has in E. induction o as [|[k1 v1] r IH]; simpl in *;
        auto with shadow.
      destruct (k1 =? nm) eqn:E1; [discriminate|].
      destruct (array_index k1) as [n1|]; [destruct (n1 <? n)%N|];
        auto with shadow.
      apply same_skip; [simpl; now apply String.eqb_neq | auto].
    + unfold has in E. induction o as [|[k1 v1] r IH]; simpl in *;
        auto with shadow.
      destruct (k1 =? nm) eqn:E1; [discriminate|].
      apply same_skip; [simpl; now apply String.eqb_neq | auto].
Qed.

End Shadow.
End Shadow.

(* ================================================================= *)
(** ** Flattening and walking *)

Lemma flatValue_Directory es : flatValue (Directory es) = FsDir (buildFs es).
Proof. reflexivity. Qed.

Lemma buildFs_app l1 l2 :
  buildFs (l1 ++ l2)%list = fold_left (reducer flatValue) l2 (buildFs l1).
Proof. unfold buildFs. apply fold_left_app. Qed.

(** With names that are new string keys the reducer appends. *)
Lemma reduce_plain nodes : forall acc,
  NoDup (JsObject.keys acc ++ map name nodes)%list ->
  Forall (fun n => JsObject.array_index (name n) = None) nodes ->
  fold_left (reducer flatValue) nodes acc
  = (acc ++ map (fun n => (name n, flatValue (value n))) nodes)%list.
Proof.
  induction nodes as [|n r IH]; intros acc Hnd Hidx; simpl.
  - now rewrite app_nil_r.
  - inversion Hidx as [|? ? Hn Hr]; subst.
    unfold reducer at 2.
    rewrite JsObjectFacts.set_fresh; try assumption.
    + rewrite IH; try assumption.
      * now rewrite <- app_assoc.
      * unfold JsObject.keys in *. rewrite map_app. simpl.
        rewrite <- app_assoc. exact Hnd.
    + intros Hin. apply NoDup_remove_2 in Hnd. apply Hnd.
      apply in_or_app. now left.
Qed.

(** The leaves [walk] yields are the leaves it reaches on a path that ends
    in [.ts] or [.tsx]. *)
Lemma walk_spec fs : forall root u,
  In u (walk fs root)
  <-> Leaf fs root (path u) (content u) /\ is_source (path u) = true.
Proof.
  induction fs as [c|o IH] using FileSystem_nested_ind; intros root u.
  - simpl. unfold is_source.
    destruct (endsWith root ".ts") eqn:E1; destruct (endsWith root ".tsx") eqn:E2;
      simpl; split.
    all: try (intros [<-|[]]; simpl; rewrite ?E1, ?E2; split;
              [constructor | reflexivity]).
    all: try (intros [HL Hs]; inversion HL; subst; left; now destruct u).
    + intros [].
    + intros [HL Hs]. inversion HL; subst. rewrite E1, E2 in Hs. discriminate.
  - simpl. rewrite in_flat_map. split.
    + intros [[nm sub] [Hin Hu]]. simpl in Hu.
      rewrite Forall_forall in IH. apply (IH _ Hin) in Hu.
      destruct Hu as [HL Hs]. split; [|exact Hs].
      now apply Leaf_dir with (nm := nm) (sub := sub).
    + intros [HL Hs]. inversion HL as [|? ? nm sub ? ? Hin Hsub]; subst.
      exists (nm, sub). split; [exact Hin|]. simpl.
      rewrite Forall_forall in IH. apply (IH _ Hin). now split.
Qed.

(** Membership in the units of a pass. *)
Lemma App_units_spec fs c u :
  In (c, u) (App_units fs)
  <-> exists sub, In (c, sub) (JsObject.entries fs)
                  /\ Leaf sub "" (path u) (content u)
                  /\ is_source (path u) = true.
Proof.
  unfold App_units. rewrite in_flat_map. split.
  - intros [[c' sub] [Hin Hu]]. simpl in Hu. apply in_map_iff in Hu.
    destruct Hu as [u' [Heq Hu]]. inversion Heq; subst.
    exists sub. split; [exact Hin|]. now apply walk_spec.
  - intros [sub [Hin [HL Hs]]]. exists (c, sub). split; [exact Hin|].
    simpl. apply in_map. apply walk_spec. now split.
Qed.

(* ================================================================= *)
(** ** Suffixes *)

Section Suffix.

Lemma length_append (a b : string) :
  String.length (a ++ b) = String.length a + String.length b.
Proof. induction a as [|c r IH]; simpl; [reflexivity | now rewrite IH]. Qed.

Lemma substring_all (s : string) : substring 0 (String.length s) s = s.
Proof. induction s as [|c r IH]; simpl; [reflexivity | now rewrite IH]. Qed.

Lemma endsWith_cons c s suffix :
  String.length suffix <= String.length s ->
  endsWith (String c s) suffix = endsWith s suffix.
Proof.
  intros H. unfold endsWith. cbn [String.length].
  rewrite (proj2 (Nat.leb_le _ _) H).
  rewrite (proj2 (Nat.leb_le _ (S _)) (Nat.le_le_succ_r _ _ H)).
  rewrite Nat.sub_succ_l by exact H. reflexivity.
Qed.

(** Only the end of a string decides [endsWith]. *)
Lemma endsWith_app a b suffix :
  String.length suffix <= String.length b ->
  endsWith (a ++ b) suffix = endsWith b suffix.
Proof.
  intros H. induction a as [|c r IH]; simpl; [reflexivity|].
  rewrite endsWith_cons; [exact IH|].
  rewrite length_append. lia.
Qed.

Lemma endsWith_elim s suffix :
  endsWith s suffix = true -> exists q, s = q ++ suffix.
Proof.
  induction s as [|c r IH]; intros H.
  - unfold endsWith in H. simpl in H.
    destruct suffix; [now exists "" | discriminate].
  - destruct (Nat.le_gt_cases (String.length suffix) (String.length r)) as [Hle|Hgt].
    + rewrite endsWith_cons in H by exact Hle.
      destruct (IH H) as [q ->]. now exists (String c q).
    + unfold endsWith in H. apply andb_prop in H. destruct H as [Hl Hs].
      apply Nat.leb_le in Hl. cbn [String.length] in *.
      assert (E : String.length suffix = S (String.length r)) by lia.
      rewrite E, Nat.sub_diag in Hs. cbn [substring] in Hs.
      rewrite substring_all in Hs. apply String.eqb_eq in Hs.
      exists "". now rewrite <- Hs.
Qed.

(** A path [walk] yields ends in [s] or in [x], not in [/]. *)
Lemma is_source_no_slash p : is_source p = true -> endsWith p "/" = false.
Proof.
  unfold is_source. intros H. apply orb_prop in H.
  destruct H as [H|H]; apply endsWith_elim in H; destruct H as [q ->];
    rewrite endsWith_app; simpl; auto; lia.
Qed.

Lemma is_source_length p : is_source p = true -> 1 <= String.length p.
Proof.
  unfold is_source. intros H. apply orb_prop in H.
  destruct H as [H|H]; apply endsWith_elim in H; destruct H as [q ->];
    rewrite length_append; simpl; lia.
Qed.

(** A block key ends as the path of its unit does. *)
Lemma blockKeyOf_no_trailing_slash ns c p :
  is_source p = true -> endsWith (blockKeyOf ns c p) "/" = false.
Proof.
  intros H. pose proof (is_source_length p H) as Hl.
  unfold blockKeyOf.
  repeat (rewrite endsWith_app;
          [|repeat rewrite length_append; cbn [String.length]; lia]).
  now apply is_source_no_slash.
Qed.

End Suffix.

(* ================================================================= *)
(** ** Sequencing *)

Module AsyncFacts.
Import Async.

Section Facts.
Variable Err : Type.

Lemma outcome_bind A B (m : t Err A) (k : A -> t Err B) :
  outcome (bind m k)
  = match outcome m with inl e => inl e | inr a => outcome (k a) end.
Proof. unfold outcome, bind. destruct (snd m); reflexivity. Qed.

Lemma events_bind A B (m : t Err A) (k : A -> t Err B) :
  events (bind m k)
  = match outcome m with
    | inl _ => events m
    | inr a => (events m ++ events (k a))%list
    end.
Proof. unfold events, outcome, bind. destruct (snd m); reflexivity. Qed.

Lemma bind_ret_l A B (a : A) (k : A -> t Err B) : bind (ret a) k = k a.
Proof. unfold bind, ret. simpl. now destruct (k a). Qed.

Lemma bind_assoc A B C (m : t Err A) (k : A -> t Err B) (h : B -> t Err C) :
  bind (bind m k) h = bind m (fun a => bind (k a) h).
Proof.
  unfold bind. destruct m as [tr [e|a]]; simpl; [reflexivity|].
  destruct (k a) as [tr1 [e|b]]; simpl; [reflexivity|].
  now rewrite app_assoc.
Qed.

Lemma bind_ext A B (m : t Err A) (k k' : A -> t Err B) :
  (forall a, k a = k' a) -> bind m k = bind m k'.
Proof.
  intros H. unfold bind. destruct (snd m); [reflexivity|]. now rewrite H.
Qed.

Lemma for_of_app X S (xs ys : list X) (body : X -> S -> t Err S) acc :
  for_of (xs ++ ys) body acc = bind (for_of xs body acc) (for_of ys body).
Proof.
  revert acc. induction xs as [|x r IH]; intros acc; simpl.
  - now rewrite bind_ret_l.
  - rewrite bind_assoc. apply bind_ext. exact IH.
Qed.

Lemma for_of_map X Y S (g : X -> Y) (xs : list X) (body : Y -> S -> t Err S) acc :
  for_of (map g xs) body acc = for_of xs (fun x => body (g x)) acc.
Proof.
  revert acc. induction xs as [|x r IH]; intros acc; simpl; [reflexivity|].
  apply bind_ext. exact IH.
Qed.

(** Two nested loops are one loop over the concatenation. *)
Lemma for_of_flat_map X Y S (g : X -> list Y) (xs : list X)
    (body : Y -> S -> t Err S) acc :
  for_of xs (fun x => for_of (g x) body) acc = for_of (flat_map g xs) body acc.
Proof.
  revert acc. induction xs as [|x r IH]; intros acc; simpl; [reflexivity|].
  rewrite for_of_app. apply bind_ext. exact IH.
Qed.

(** A loop that fulfils went through a state after each prefix. *)
Lemma for_of_app_inv X S (xs ys : list X) (body : X -> S -> t Err S) acc r :
  outcome (for_of (xs ++ ys) body acc) = inr r ->
  exists mid, outcome (for_of xs body acc) = inr mid
              /\ outcome (for_of ys body mid) = inr r.
Proof.
  rewrite for_of_app, outcome_bind.
  destruct (outcome (for_of xs body acc)) as [e|mid]; [discriminate|].
  intros H. now exists mid.
Qed.

Lemma for_of_cons_inv X S (x : X) (ys : list X) (body : X -> S -> t Err S) acc r :
  outcome (for_of (x :: ys) body acc) = inr r ->
  exists mid, outcome (body x acc) = inr mid
              /\ outcome (for_of ys body mid) = inr r.
Proof.
  simpl. rewrite outcome_bind.
  destruct (outcome (body x acc)) as [e|mid]; [discriminate|].
  intros H. now exists mid.
Qed.

(** An iteration that rejects whatever the accumulator makes the loop
    reject. *)
Lemma for_of_rejects X S (xs : list X) (body : X -> S -> t Err S) x :
  In x xs ->
  (forall acc, exists e, outcome (body x acc) = inl e) ->
  forall acc, exists e, outcome (for_of xs body acc) = inl e.
Proof.
  intros Hin Hx. induction xs as [|y r IH]; [destruct Hin|].
  intros acc. simpl. rewrite outcome_bind.
  destruct (outcome (body y acc)) as [e|mid] eqn:E.
  - now exists e.
  - destruct Hin as [->|Hin].
    + destruct (Hx acc) as [e He]. congruence.
    + now apply IH.
Qed.

End Facts.
End AsyncFacts.

(* ================================================================= *)
(** ** The linking step and the loop of a build pass *)

Section Pass.
Import Async AsyncFacts JsObject JsObjectFacts.

Variable Module : Type.
Variable Err : Type.
Variable env : Imports Module Err.

Implicit Types (m : AppManifest Module) (sm : SourceMap Module)
  (u : TsContent) (c K ns : string) (units : list (string * TsContent)).

(** The two nested loops of [App] are one loop over [App_units]. *)
Lemma App_unfold st :
  App env st
  = bind (for_of (App_units (buildFs (fileSystem st))) (App_step env)
            (manifest env, buildSourceMap env (manifest env)))
         (fun acc => ret {| app_manifest := fst acc;
                            app_state := buildFs (fileSystem st);
                            app_sourceMap := snd acc |}).
Proof.
  unfold App, App_units. f_equal.
  rewrite <- for_of_flat_map.
  generalize (manifest env, buildSourceMap env (manifest env)).
  generalize (entries (buildFs (fileSystem st))).
  induction l as [|e r IH]; intros acc; simpl; [reflexivity|].
  rewrite for_of_map. apply bind_ext. exact IH.
Qed.

Lemma outcome_App st :
  outcome (App env st)
  = match outcome (for_of (App_units (buildFs (fileSystem st))) (App_step env)
                     (manifest env, buildSourceMap env (manifest env))) with
    | inl e => inl e
    | inr acc => inr {| app_manifest := fst acc;
                        app_state := buildFs (fileSystem st);
                        app_sourceMap := snd acc |}
    end.
Proof. rewrite App_unfold, outcome_bind. reflexivity. Qed.

(** [compile] fulfils exactly when the toolchain is initialized, the module
    loads and [manifest.name] converts; it then returns the linked pair. *)
Lemma compile_inv c u m sm r :
  outcome (compile env c u m sm) = inr r ->
  exists tsModule ns,
    outcome (importFromString env (content u)) = inr tsModule
    /\ toString env (get "name" m) = inr ns
    /\ r = linked env ns c u tsModule (m, sm).
Proof.
  unfold compile. rewrite outcome_bind.
  destruct (outcome (await (initializePromise env))); [discriminate|].
  rewrite outcome_bind.
  destruct (outcome (importFromString env (content u))) as [e|tsModule];
    [discriminate|].
  rewrite outcome_bind. unfold lift at 1, outcome at 1. simpl snd.
  destruct (toString env (get "name" m)) as [e|ns]; [discriminate|].
  intros H. exists tsModule, ns. repeat split.
  unfold outcome, ret in H. simpl in H. now inversion H.
Qed.

(** A unit whose source does not load makes [compile] reject, whatever the
    manifest and the source map it is given. *)
Lemma compile_rejects c u e :
  outcome (importFromString env (content u)) = inl e ->
  forall m sm, exists e', outcome (compile env c u m sm) = inl e'.
Proof.
  intros H m sm. unfold compile. rewrite outcome_bind.
  destruct (outcome (await (initializePromise env))) as [e0|[]];
    [now exists e0|].
  rewrite outcome_bind, H. now exists e.
Qed.

(** [compile] awaits the promise; it makes no call to [initialize]. *)
Lemma compile_events c u m sm :
  Forall not_initialize (events (compile env c u m sm)).
Proof.
  unfold compile, importFromString, events, bind, await, call, lift, ret.
  simpl.
  destruct (initialize env); simpl; [constructor|].
  destruct (transform env (content u)); simpl;
    [repeat constructor; discriminate|].
  destruct (btoa env s); simpl; [repeat constructor; discriminate|].
  destruct (import env _); simpl; [repeat constructor; discriminate|].
  destruct (toString env _); simpl; repeat constructor; discriminate.
Qed.

Lemma for_of_events X S (xs : list X) (body : X -> S -> Async.t Err S)
    (Q : Event -> Prop) :
  (forall x acc, Forall Q (events (body x acc))) ->
  forall acc, Forall Q (events (for_of xs body acc)).
Proof.
  intros Hb. induction xs as [|x r IH]; intros acc; simpl; [constructor|].
  rewrite events_bind. destruct (outcome (body x acc)); [apply Hb|].
  apply Forall_app. split; [apply Hb | apply IH].
Qed.

Lemma App_events st : Forall not_initialize (events (App env st)).
Proof.
  rewrite App_unfold, events_bind.
  assert (H : forall acc, Forall not_initialize
            (events (for_of (App_units (buildFs (fileSystem st)))
                       (App_step env) acc))).
  { apply for_of_events. intros x acc. apply compile_events. }
  destruct (outcome _); [apply H|].
  apply Forall_app. split; [apply H | constructor].
Qed.

End Pass.

(* ================================================================= *)
(** ** Block keys and what a pass leaves in the two registries *)

Section Keys.
Import JsObject JsObjectFacts.

Lemma has_slash_app a b : has_slash (a ++ b) = has_slash a || has_slash b.
Proof.
  induction a as [|c r IH]; simpl; [reflexivity|].
  rewrite IH. now rewrite orb_assoc.
Qed.

Lemma blockKeyOf_slash ns c p : has_slash (blockKeyOf ns c p) = true.
Proof.
  unfold blockKeyOf. rewrite has_slash_app. simpl. now rewrite orb_true_r.
Qed.

Lemma blockKeyOf_not_toString ns c p : blockKeyOf ns c p <> "toString".
Proof.
  intros H. pose proof (blockKeyOf_slash ns c p) as Hs.
  rewrite H in Hs. discriminate.
Qed.

Lemma decimal_not_toString n : decimal n <> "toString".
Proof.
  unfold decimal. destruct (N.to_uint n); simpl; discriminate.
Qed.

Lemma chars_from_toString Module s : forall i,
  has "toString" (@chars_from Module i s) = false.
Proof.
  unfold has. induction s as [|ch r IH]; intros i; simpl; [reflexivity|].
  destruct (String.eqb_spec (decimal i) "toString") as [E|_].
  - now apply decimal_not_toString in E.
  - apply IH.
Qed.

Lemma keys_from_app ns pre : forall b post,
  keys_from b ns (pre ++ post)%list
  = (keys_from b ns pre
     ++ keys_from (b || existsb under_name pre) ns post)%list.
Proof.
  induction pre as [|cu r IH]; intros b post; simpl.
  - now rewrite orb_false_r.
  - rewrite IH. now rewrite orb_assoc.
Qed.

(** The keys of a pass, read at one of its units. *)
Lemma block_keys_split ns pre cu post :
  block_keys ns (pre ++ cu :: post)%list
  = (block_keys ns pre ++ key_of ns pre cu :: later_keys ns pre cu post)%list.
Proof.
  unfold block_keys, key_of, later_keys, namespace_after.
  rewrite keys_from_app. simpl. f_equal. f_equal. f_equal.
  rewrite existsb_app. simpl. now rewrite orb_false_r.
Qed.

End Keys.

Section Registry.
Import Async AsyncFacts JsObject JsObjectFacts.

Variable Module : Type.
Variable Err : Type.
Variable env : Imports Module Err.
Variable ns : string.

Implicit Types (m : AppManifest Module) (sm : SourceMap Module)
  (u : TsContent) (c K : string) (cu : string * TsContent)
  (units pre post : list (string * TsContent)) (b : bool).

Lemma toString_name_state b m :
  name_state b ns m -> toString env (get "name" m) = inr (prefix_at ns b).
Proof.
  destruct b; simpl.
  - intros [o [-> Ho]]. simpl. now rewrite Ho.
  - intros ->. reflexivity.
Qed.

(** One iteration of the loop, from a manifest whose [name] is known. *)
Lemma App_step_inv b cu m sm r :
  name_state b ns m ->
  outcome (App_step env cu (m, sm)) = inr r ->
  exists tsModule,
    outcome (importFromString env (content (snd cu))) = inr tsModule
    /\ r = linked env (prefix_at ns b) (fst cu) (snd cu) tsModule (m, sm).
Proof.
  intros Hn H. unfold App_step in H. simpl in H.
  apply compile_inv in H. destruct H as [tsModule [ns' [Hi [Ht ->]]]].
  rewrite (toString_name_state b m Hn) in Ht. inversion Ht; subst.
  now exists tsModule.
Qed.

Section Linked.
Variables (p : string) (cu : string * TsContent) (tsModule : Module).
Variables (m : AppManifest Module) (sm : SourceMap Module).

Let r := linked env p (fst cu) (snd cu) tsModule (m, sm).
Let K := blockKeyOf p (fst cu) (path (snd cu)).

Lemma linked_name_state b :
  name_state b ns m -> name_state (b || under_name cu) ns (fst r).
Proof.
  intros Hn. subst r. unfold linked, under_name. simpl fst.
  destruct (String.eqb_spec (fst cu) "name") as [E|E].
  - rewrite orb_true_r. rewrite E. simpl. rewrite get_set_same.
    eexists. split; [reflexivity|].
    rewrite has_set_other by (apply not_eq_sym, blockKeyOf_not_toString).
    destruct b; simpl in Hn.
    + destruct Hn as [o [-> Ho]]. exact Ho.
    + rewrite Hn. simpl. apply chars_from_toString.
  - rewrite orb_false_r.
    destruct b; simpl in *.
    + destruct Hn as [o [Hg Ho]]. exists o. split; [|exact Ho].
      rewrite get_set_other by (now apply not_eq_sym). exact Hg.
    + rewrite get_set_other by (now apply not_eq_sym). exact Hn.
Qed.

Lemma linked_sourceMap_new :
  get K (snd r)
  = Some (sourceMapEntry
            (join env (currdir env) (fst cu) (path (snd cu)))
            (content (snd cu))).
Proof. subst r K. unfold linked. simpl. apply get_set_same. Qed.

Lemma linked_sourceMap_other K' : K' <> K -> get K' (snd r) = get K' sm.
Proof. intros H. subst r K. unfold linked. simpl. now apply get_set_other. Qed.

Lemma linked_binding_new : binding (fst cu) K (fst r) = Some (JMod tsModule).
Proof.
  subst r K. unfold linked, binding. simpl.
  rewrite get_set_same. apply get_set_same.
Qed.

Lemma linked_binding_other c K' :
  c <> fst cu \/ K' <> K ->
  forall v, binding c K' m = Some v -> binding c K' (fst r) = Some v.
Proof.
  intros Hne v Hv. subst r K. unfold linked, binding in *. simpl.
  destruct (String.eqb_spec c (fst cu)) as [->|Hc].
  - rewrite get_set_same.
    destruct (get (fst cu) m) as [[s|o|md]|]; try discriminate.
    simpl. destruct Hne as [Hne|Hne]; [congruence|].
    now rewrite get_set_other.
  - now rewrite get_set_other.
Qed.

(** A category of the manifest that is not the linked one is untouched. *)
Lemma linked_category_other c : c <> fst cu -> get c (fst r) = get c m.
Proof. intros H. subst r. unfold linked. simpl. now apply get_set_other. Qed.

End Linked.

(** What the rest of a loop does to the two registries, from a state in
    which [manifest.name] is known. *)
Lemma loop_inv units : forall b m sm r,
  name_state b ns m ->
  outcome (for_of units (App_step env) (m, sm)) = inr r ->
  name_state (b || existsb under_name units) ns (fst r)
  /\ (forall K, ~ In K (keys_from b ns units) -> get K (snd r) = get K sm)
  /\ (forall K, has K sm = true -> has K (snd r) = true)
  /\ (forall K, In K (keys_from b ns units) -> has K (snd r) = true)
  /\ (forall c K v, binding c K m = Some v ->
                    ~ In K (keys_from b ns units) ->
                    binding c K (fst r) = Some v)
  /\ (forall c K, binding c K m <> None -> binding c K (fst r) <> None).
Proof.
  induction units as [|cu rest IH]; intros b m sm r Hn Hr.
  - simpl in Hr. unfold outcome, ret in Hr. simpl in Hr. inversion Hr; subst.
    simpl. rewrite orb_false_r. repeat split; auto; intros K [].
  - apply for_of_cons_inv in Hr. destruct Hr as [mid [Hstep Hrest]].
    destruct (@App_step_inv b cu m sm mid Hn Hstep) as [tsModule [Hload ->]].
    set (mid := linked env (prefix_at ns b) (fst cu) (snd cu) tsModule (m, sm)) in *.
    pose proof (linked_name_state (prefix_at ns b) cu tsModule m sm b Hn) as Hn'.
    fold mid in Hn'.
    assert (Hmid : mid = (fst mid, snd mid)) by now destruct mid.
    rewrite Hmid in Hrest.
    destruct (@IH _ _ _ _ Hn' Hrest) as (I1 & I2 & I3 & I4 & I5 & I6).
    simpl keys_from. simpl existsb. rewrite orb_assoc.
    set (K0 := blockKeyOf (prefix_at ns b) (fst cu) (path (snd cu))) in *.
    fold (prefix_at ns b). fold K0.
    split; [exact I1|]. split; [|split; [|split; [|split]]].
    + intros K HK. rewrite I2 by (intro; apply HK; now right).
      apply linked_sourceMap_other. intro; apply HK; now left.
    + intros K HK. apply I3. unfold has.
      destruct (String.eqb_spec K K0) as [->|Hne].
      * unfold mid, K0. now rewrite linked_sourceMap_new.
      * unfold mid. rewrite linked_sourceMap_other by exact Hne. exact HK.
    + intros K [<-|HK]; [|now apply I4].
      apply I3. unfold has, mid, K0. now rewrite linked_sourceMap_new.
    + intros c K v Hv HK. apply I5; [|intro; apply HK; now right].
      apply linked_binding_other; [|exact Hv].
      right. intro; apply HK; now left.
    + intros c K Hb. apply I6.
      destruct (String.eqb_spec c (fst cu)) as [->|Hc].
      * destruct (String.eqb_spec K K0) as [->|HK].
        -- unfold mid, K0. now rewrite linked_binding_new.
        -- destruct (binding (fst cu) K m) as [v|] eqn:E; [|congruence].
           assert (Hx : binding (fst cu) K (fst mid) = Some v)
             by (apply linked_binding_other; [right; exact HK | exact E]).
           rewrite Hx. discriminate.
      * destruct (binding c K m) as [v|] eqn:E; [|congruence].
        assert (Hx : binding c K (fst mid) = Some v)
          by (apply linked_binding_other; [left; exact Hc | exact E]).
        rewrite Hx. discriminate.
Qed.

(** A pass that fulfils, read at one of its units: the state before the
    unit, the module it loaded, and the rest of the loop from the linked
    pair. *)
Lemma loop_at pre cu post m sm r :
  name_state false ns m ->
  outcome (for_of (pre ++ cu :: post) (App_step env) (m, sm)) = inr r ->
  exists before tsModule,
    outcome (importFromString env (content (snd cu))) = inr tsModule
    /\ name_state (existsb under_name (pre ++ [cu])) ns
         (fst (linked env (namespace_after ns pre) (fst cu) (snd cu) tsModule before))
    /\ outcome (for_of post (App_step env)
                  (linked env (namespace_after ns pre) (fst cu) (snd cu)
                     tsModule before)) = inr r.
Proof.
  intros Hn Hr. apply for_of_app_inv in Hr. destruct Hr as [before [Hpre Hr]].
  destruct (@loop_inv pre false m sm before Hn Hpre) as (Hn1 & _).
  simpl in Hn1.
  apply for_of_cons_inv in Hr. destruct Hr as [mid [Hstep Hpost]].
  assert (Hb : before = (fst before, snd before)) by now destruct before.
  rewrite Hb in Hstep.
  destruct (@App_step_inv _ cu _ _ _ Hn1 Hstep) as [tsModule [Hload ->]].
  rewrite <- Hb in *.
  exists before, tsModule. split; [exact Hload|].
  unfold namespace_after. fold (prefix_at ns (existsb under_name pre)).
  split; [|exact Hpost].
  rewrite existsb_app. simpl. rewrite orb_false_r.
  rewrite Hb. apply linked_name_state. exact Hn1.
Qed.

End Registry.

(* ================================================================= *)
(** ** A pass that fulfils, seen from one of its units *)

Section UnitOfPass.
Import Async AsyncFacts JsObject JsObjectFacts.

Variable Module : Type.
Variable Err : Type.
Variable env : Imports Module Err.
Variable ns : string.
Hypothesis base_name : get "name" (manifest env) = Some (JStr ns).

Variable st : State.
Variable r : AppResult Module.
Hypothesis fulfilled : outcome (App env st) = inr r.

Lemma App_loop_ok :
  outcome (for_of (App_units (buildFs (fileSystem st))) (App_step env)
             (manifest env, buildSourceMap env (manifest env)))
  = inr (app_manifest r, app_sourceMap r).
Proof.
  pose proof fulfilled as H. rewrite outcome_App in H.
  destruct (outcome (for_of _ _ _)) as [e|[m sm]]; [discriminate|].
  inversion H; subst. reflexivity.
Qed.

Lemma App_state_ok : app_state r = buildFs (fileSystem st).
Proof.
  pose proof fulfilled as H. rewrite outcome_App in H.
  destruct (outcome (for_of _ _ _)) as [e|[m sm]]; [discriminate|].
  inversion H; subst. reflexivity.
Qed.


Variables (pre post : list (string * TsContent)) (cu : string * TsContent).
Hypothesis at_unit : App_units (buildFs (fileSystem st)) = (pre ++ cu :: post)%list.

(** Every unit of the pass loads, and leaves its key in both registries;
    when no later unit resolves to the same key, the key holds what this
    unit put there. *)
Lemma unit_registered :
  exists tsModule,
    outcome (importFromString env (content (snd cu))) = inr tsModule
    /\ has (key_of ns pre cu) (app_sourceMap r) = true
    /\ binding (fst cu) (key_of ns pre cu) (app_manifest r) <> None
    /\ (~ In (key_of ns pre cu) (later_keys ns pre cu post) ->
        get (key_of ns pre cu) (app_sourceMap r)
        = Some (sourceMapEntry
                  (join env (currdir env) (fst cu) (path (snd cu)))
                  (content (snd cu)))
        /\ binding (fst cu) (key_of ns pre cu) (app_manifest r)
           = Some (JMod tsModule)).
Proof.
  pose proof App_loop_ok as H. rewrite at_unit in H.
  destruct (@loop_at _ _ env ns pre cu post _ _ _ base_name H)
    as [before [tsModule [Hload [Hn Hpost]]]].
  exists tsModule. split; [exact Hload|].
  remember (linked env (namespace_after ns pre) (fst cu) (snd cu)
              tsModule before) as mid eqn:Emid.
  assert (Hmid : mid = (fst mid, snd mid)) by now destruct mid.
  rewrite Hmid in Hpost.
  destruct (@loop_inv _ _ env ns post _ _ _ _ Hn Hpost)
    as (_ & I2 & I3 & _ & I5 & I6).
  simpl in I2, I3, I5, I6.
  assert (Hsm : get (key_of ns pre cu) (snd mid)
                = Some (sourceMapEntry
                          (join env (currdir env) (fst cu) (path (snd cu)))
                          (content (snd cu)))).
  { rewrite Emid. unfold key_of. destruct before as [m sm].
    apply linked_sourceMap_new. }
  assert (Hb : binding (fst cu) (key_of ns pre cu) (fst mid)
               = Some (JMod tsModule)).
  { rewrite Emid. unfold key_of. destruct before as [m sm].
    apply linked_binding_new. }
  split; [|split].
  - apply I3. unfold has. now rewrite Hsm.
  - apply I6. rewrite Hb. discriminate.
  - intros Hlast. unfold later_keys in Hlast. split.
    + rewrite (I2 _ Hlast). exact Hsm.
    + now apply I5.
Qed.

End UnitOfPass.
(* ================================================================= *)
(** ** The linking step writes to no object *)

Section HeapLinking.
Import Async AsyncFacts JsObject JsObjectFacts.

Variable Module : Type.
Variable Err : Type.
Variable env : Imports Module Err.
Variable exported : Module -> Heap.object Module.

Implicit Types (h : Heap.store Module) (ho : Heap.object Module)
  (o : JsObject.t (jsval Module)).

Lemma unchanged_app h added : Heap.unchanged h (h ++ added)%list.
Proof. intros l Hl. now apply nth_error_app1. Qed.

Lemma nth_error_new h added l ho :
  nth_error added l = Some ho ->
  nth_error (h ++ added)%list (List.length h + l) = Some ho.
Proof.
  intros H. rewrite nth_error_app2 by lia.
  now replace (List.length h + l - List.length h) with l by lia.
Qed.

(** What a value is in a store, it is in every store that has the objects
    of that store unchanged. *)
Lemma represents_mono h h' :
  Heap.unchanged h h' ->
  forall v j, Heap.represents h v j -> Heap.represents h' v j.
Proof.
  intros Hun. fix IH 3. intros v j H.
  destruct H as [s|m|l ho o Hl Hall].
  - constructor.
  - constructor.
  - apply Heap.rep_obj with (ho := ho).
    + rewrite Hun; [exact Hl|]. apply nth_error_Some. now rewrite Hl.
    + clear Hl. revert ho o Hall. fix IHall 3. intros ho o Hall.
      destruct Hall as [|e e' r r' [Hk Hv] Hr]; constructor.
      * split; [exact Hk | apply IH, Hv].
      * apply IHall, Hr.
Qed.

Lemma related_mono h h' ho o :
  Heap.unchanged h h' ->
  Forall2 (Heap.related h) ho o -> Forall2 (Heap.related h') ho o.
Proof.
  intros Hun H. induction H as [|e e' r r' [Hk Hv] Hr IH]; constructor.
  - split; [exact Hk | now apply represents_mono with (h := h)].
  - exact IH.
Qed.

Lemma related_get h ho o k :
  Forall2 (Heap.related h) ho o ->
  match get k ho, get k o with
  | Some v, Some j => Heap.represents h v j
  | None, None => True
  | _, _ => False
  end.
Proof.
  intros H. induction H as [|[k1 v] [k2 j] r r' [Hk Hv] Hr IH]; simpl;
    [exact I|].
  simpl in Hk, Hv. subst k2. destruct (k1 =? k); [exact Hv | exact IH].
Qed.

Lemma related_has h ho o k :
  Forall2 (Heap.related h) ho o -> has k ho = has k o.
Proof.
  intros H. pose proof (related_get k H) as G. unfold has.
  destruct (get k ho), (get k o); tauto.
Qed.

Lemma related_replace h ho o k v j :
  Forall2 (Heap.related h) ho o -> Heap.represents h v j ->
  Forall2 (Heap.related h) (replace k v ho) (replace k j o).
Proof.
  intros H Hv. induction H as [|[k1 v1] [k2 j1] r r' [Hk Hv1] Hr IH]; simpl;
    [constructor|].
  simpl in Hk, Hv1. subst k2. destruct (k1 =? k).
  - constructor; [now split | exact Hr].
  - constructor; [now split | exact IH].
Qed.

Lemma related_insert_index h ho o n k v j :
  Forall2 (Heap.related h) ho o -> Heap.represents h v j ->
  Forall2 (Heap.related h) (insert_index n k v ho) (insert_index n k j o).
Proof.
  intros H Hv. induction H as [|[k1 v1] [k2 j1] r r' [Hk Hv1] Hr IH]; simpl.
  - constructor; [now split | constructor].
  - simpl in Hk, Hv1. subst k2.
    assert (Hcons : Forall2 (Heap.related h) ((k1, v1) :: r) ((k1, j1) :: r'))
      by (constructor; [now split | exact Hr]).
    destruct (array_index k1) as [n'|].
    + destruct (n' <? n)%N.
      * constructor; [now split | exact IH].
      * constructor; [now split | exact Hcons].
    + constructor; [now split | exact Hcons].
Qed.

Lemma related_set h ho o k v j :
  Forall2 (Heap.related h) ho o -> Heap.represents h v j ->
  Forall2 (Heap.related h) (set k v ho) (set k j o).
Proof.
  intros H Hv. unfold set. rewrite (related_has k H).
  destruct (has k o); [now apply related_replace|].
  destruct (array_index k); [now apply related_insert_index|].
  apply Forall2_app; [exact H|]. constructor; [now split | constructor].
Qed.

Lemma related_chars h s : forall i,
  Forall2 (Heap.related h) (@Heap.chars_from Module i s)
          (@chars_from Module i s).
Proof.
  induction s as [|c r IH]; intros i; simpl; constructor.
  - split; [reflexivity | constructor].
  - apply IH.
Qed.

(** [`${v}`] and [{...v}] read the store and leave it as it is; what they
    give corresponds to what they give on the value. *)
Lemma run_toString h ho o k :
  Forall2 (Heap.related h) ho o ->
  Heap.toString env (get k ho) h = (([], toString env (get k o)), h).
Proof.
  intros H. pose proof (related_get k H) as G.
  destruct (get k ho) as [[s|l|x]|], (get k o) as [[s'|o'|x']|];
    try contradiction; inversion G; subst; try reflexivity.
  unfold Heap.toString, Heap.bind, Heap.read, Heap.async, lift. simpl.
  match goal with
  | Hl : nth_error h l = Some ?x, Hr : Forall2 _ ?x o' |- _ =>
      rewrite (nth_error_nth h l [] Hl), (related_has "toString" Hr)
  end.
  reflexivity.
Qed.

Lemma run_ownProps h ho o k :
  (forall x, Forall2 (Heap.related h) (exported x) (exportsOf env x)) ->
  Forall2 (Heap.related h) ho o ->
  exists props,
    Heap.ownProps Err exported (get k ho) h = (([], inr props), h)
    /\ Forall2 (Heap.related h) props (ownProps env (get k o)).
Proof.
  intros Hexp H. pose proof (related_get k H) as G.
  destruct (get k ho) as [[s|l|x]|], (get k o) as [[s'|o'|x']|];
    try contradiction; inversion G; subst; simpl.
  - eexists. split; [reflexivity | apply related_chars].
  - eexists. split; [reflexivity|].
    match goal with
    | Hl : nth_error h l = Some ?x |- _ => rewrite (nth_error_nth h l [] Hl)
    end.
    assumption.
  - eexists. split; [reflexivity | apply Hexp].
  - eexists. split; [reflexivity | constructor].
Qed.

(** [compile] on values, by what the toolchain and the conversion of
    [manifest.name] give. *)
Lemma compile_closed c u m sm :
  compile env c u m sm
  = match initialize env with
    | inl e => ([], inl e)
    | inr _ =>
        match outcome (importFromString env (content u)) with
        | inl e => (events (importFromString env (content u)), inl e)
        | inr tsModule =>
            (events (importFromString env (content u)),
             match toString env (get "name" m) with
             | inl e => inl e
             | inr ns => inr (linked env ns c u tsModule (m, sm))
             end)
        end
    end.
Proof.
  unfold compile, bind, await, initializePromise, call, lift, ret, outcome,
    events.
  simpl. destruct (initialize env) as [e|[]]; simpl; [reflexivity|].
  destruct (importFromString env (content u)) as [ev1 [e|tsModule]]; simpl;
    [reflexivity|].
  destruct (toString env (get "name" m)) as [e|ns]; simpl;
    now rewrite ?app_nil_r.
Qed.

(** C8. A linking step neither writes to the manifest and the source map it
    is given nor to any other object there is: whether it fulfils or
    rejects, every object of the store is afterwards what it was.  When it
    fulfils, the manifest and the source map it returns are new objects.
    The new manifest has, under every key but the top-level entry [c] of the
    unit, the value the given manifest has there, the same object when it is
    one; under [c] it has a new object, with the properties of the old
    [manifest[c]] and the block key of the unit bound to the module loaded
    from the unit.  The new source map has the entries of the given one and,
    under the block key, the entry of the unit.  The manifest and the
    source map are given as the references [lm] and [ls] to objects with
    the values [m] and [sm]; [compile] on these values makes the same calls
    and returns the values of the two new objects. *)
Theorem compile_frame c u lm ls h m sm evs res h' :
  (forall x, Forall2 (Heap.related h) (exported x) (exportsOf env x)) ->
  Heap.represents h (Heap.VRef lm) (JObj m) ->
  Heap.represents h (Heap.VRef ls) (JObj sm) ->
  Heap.compile env exported c u lm ls h = ((evs, res), h') ->
  Heap.unchanged h h'
  /\ events (compile env c u m sm) = evs
  /\ match res with
     | inl e => outcome (compile env c u m sm) = inl e
     | inr (lm', ls') =>
         exists tsModule ns m' sm' category,
           outcome (importFromString env (content u)) = inr tsModule
           /\ toString env (get "name" m) = inr ns
           /\ outcome (compile env c u m sm) = inr (m', sm')
           /\ Heap.fresh h lm' /\ Heap.fresh h ls' /\ Heap.fresh h category
           /\ Heap.represents h' (Heap.VRef lm') (JObj m')
           /\ Heap.represents h' (Heap.VRef ls') (JObj sm')
           /\ get c (nth lm' h' []) = Some (Heap.VRef category)
           /\ (forall c', c' <> c ->
                 get c' (nth lm' h' []) = get c' (nth lm h [])
                 /\ get c' m' = get c' m)
           /\ (forall o, get c m = Some (JObj o) ->
                 get c m'
                 = Some (JObj (set (blockKeyOf ns c (path u))
                                 (JMod tsModule) o)))
           /\ (get c m = None ->
               get c m'
               = Some (JObj [(blockKeyOf ns c (path u), JMod tsModule)]))
           /\ binding c (blockKeyOf ns c (path u)) m' = Some (JMod tsModule)
           /\ (forall k, k <> blockKeyOf ns c (path u) ->
                 get c m = None \/ (exists o, get c m = Some (JObj o)) ->
                 binding c k m' = binding c k m)
           /\ get (blockKeyOf ns c (path u)) sm'
              = Some (sourceMapEntry (join env (currdir env) c (path u))
                        (content u))
           /\ (forall k, k <> blockKeyOf ns c (path u) ->
                 get k sm' = get k sm)
     end.
Proof.
  intros Hexp Hm Hsm H.
  inversion Hm as [| |? hm ? Hlm Hrm]; subst.
  inversion Hsm as [| |? hsm ? Hls Hrs]; subst.
  assert (Hlt : ls < List.length h) by (apply nth_error_Some; congruence).
  rewrite <- (nth_error_nth h lm [] Hlm) in Hrm.
  rewrite <- (nth_error_nth h ls [] Hls) in Hrs.
  rewrite compile_closed.
  unfold Heap.compile, Heap.bind, Heap.async, Heap.prop, Heap.read, Heap.ret,
    Heap.new, await, initializePromise, call in H.
  cbn -[nth app List.length] in H.
  destruct (initialize env) as [e|[]] eqn:Einit;
    cbn -[nth app List.length] in H.
  { inversion H; subst. split; [intros l _; reflexivity|]. now split. }
  destruct (importFromString env (content u)) as [ev1 [e|tsModule]] eqn:Eimp;
    cbn -[nth app List.length] in H.
  { inversion H; subst. split; [intros l _; reflexivity|]. now split. }
  rewrite (@run_toString h _ m "name" Hrm) in H.
  cbn -[nth app List.length] in H.
  destruct (toString env (get "name" m)) as [e|ns] eqn:Ename;
    cbn -[nth app List.length] in H.
  { inversion H; subst. split; [intros l _; reflexivity|].
    split; [simpl; now rewrite ?app_nil_r | reflexivity]. }
  destruct (@run_ownProps h _ m c Hexp Hrm) as [props [Eprops Hprops]].
  rewrite Eprops in H. cbn -[nth app List.length] in H.
  rewrite <- !app_assoc in H. rewrite (app_nth1 h _ [] Hlt) in H.
  rewrite !length_app in H. cbn [List.length app] in H.
  inversion H; subst evs res h'; clear H.
  set (blockKey := blockKeyOf ns c (path u)).
  match goal with |- Heap.unchanged h ?x /\ _ => set (h' := x) end.
  assert (Hun : Heap.unchanged h h') by apply unchanged_app.
  assert (Hcategory :
            Heap.represents h' (Heap.VRef (List.length h))
              (JObj (set blockKey (JMod tsModule)
                       (ownProps env (get c m))))).
  { apply Heap.rep_obj
      with (ho := set blockKey (Heap.VMod tsModule) props).
    - rewrite <- (Nat.add_0_r (List.length h)). now apply nth_error_new.
    - apply related_set; [|constructor].
      now apply related_mono with (h := h). }
  assert (Hentry :
            Heap.represents h' (Heap.VRef (List.length h + 2))
              (sourceMapEntry (join env (currdir env) c (path u))
                 (content u))).
  { apply Heap.rep_obj
      with (ho := [("path", Heap.VStr (join env (currdir env) c (path u)));
                   ("content", Heap.VStr (content u))]).
    - now apply nth_error_new.
    - repeat constructor. }
  split; [exact Hun|]. split; [simpl; now rewrite app_nil_r|].
  exists tsModule, ns,
    (fst (linked env ns c u tsModule (m, sm))),
    (snd (linked env ns c u tsModule (m, sm))), (List.length h).
  unfold linked, Heap.fresh. cbn [fst snd outcome events].
  fold blockKey.
  assert (Hnew : nth (List.length h + 1) h' []
                 = set c (Heap.VRef (List.length h)) (nth lm h []))
    by (unfold h'; now rewrite app_nth2_plus).
  repeat match goal with |- _ /\ _ => split end;
    try reflexivity; try lia.
  - apply Heap.rep_obj
      with (ho := set c (Heap.VRef (List.length h)) (nth lm h [])).
    + now apply nth_error_new.
    + apply related_set; [|exact Hcategory].
      now apply related_mono with (h := h).
  - apply Heap.rep_obj
      with (ho := set blockKey (Heap.VRef (List.length h + 2)) (nth ls h [])).
    + now apply nth_error_new.
    + apply related_set; [|exact Hentry].
      now apply related_mono with (h := h).
  - rewrite Hnew. apply get_set_same.
  - intros c' Hc'. rewrite Hnew. split; now apply get_set_other.
  - intros o Ho. rewrite get_set_same, Ho. reflexivity.
  - intros Ho. rewrite get_set_same, Ho. unfold ownProps, set. simpl.
    now destruct (array_index blockKey).
  - unfold binding. rewrite get_set_same. apply get_set_same.
  - intros k Hk Hc. unfold binding. rewrite get_set_same.
    rewrite get_set_other by exact Hk.
    destruct Hc as [Ho|[o Ho]]; rewrite Ho; reflexivity.
  - apply get_set_same.
  - intros k Hk. now apply get_set_other.
Qed.

End HeapLinking.

(* ================================================================= *)
(** ** The build pass *)

Section BuildPass.
Import Async AsyncFacts JsObject JsObjectFacts.

Variable Module : Type.
Variable Err : Type.
Variable env : Imports Module Err.

(** C1. A unit of the pass whose source does not transform or load makes
    the whole pass reject: [App] fulfils with no result, so no manifest and
    no source map of that pass reaches the caller.  The base manifest
    [manifest env] and the base source map are values that [compile] only
    reads and copies; no step writes to them. *)
Theorem failed_unit_fails_the_pass st c u e :
  In (c, u) (App_units (buildFs (fileSystem st))) ->
  outcome (importFromString env (content u)) = inl e ->
  exists e', outcome (App env st) = inl e'.
Proof.
  intros Hin Hfail. rewrite outcome_App.
  destruct (@for_of_rejects Err _ _
              (App_units (buildFs (fileSystem st))) (App_step env) (c, u) Hin)
    with (acc := (manifest env, buildSourceMap env (manifest env)))
    as [e' He'].
  - intros [m sm]. unfold App_step. simpl.
    now apply compile_rejects with (e := e).
  - exists e'. now rewrite He'.
Qed.

(** C2, as the code has it.  [initialize] is called once, when the module
    is evaluated and before any pass is asked for; a pass makes no call to
    it, however many units it compiles, and every [compile] observes the
    outcome of that one promise: when it rejected, [compile] rejects with
    the same reason. *)
Theorem initialize_once_at_module_load passes :
  process env passes
  = EvInitialize :: flat_map (fun st => events (App env st)) passes
  /\ Forall not_initialize (flat_map (fun st => events (App env st)) passes)
  /\ forall c u m sm,
       match initialize env with
       | inl e => outcome (compile env c u m sm) = inl e
       | inr _ => True
       end.
Proof.
  split; [reflexivity|]. split.
  - induction passes as [|st r IH]; simpl; [constructor|].
    apply Forall_app. split; [apply App_events | exact IH].
  - intros c u m sm. destruct (initialize env) as [e|[]] eqn:E; [|exact I].
    unfold compile. rewrite outcome_bind.
    unfold await, outcome, initializePromise, call. simpl. now rewrite E.
Qed.

(** C4, as the code has it.  In a pass that fulfils, the source map entry
    under the block key of a unit that no later unit shares its key with
    holds the content of the unit and, as its path,
    [join(currdir, blockType, path)]: the path the walker yielded, after
    the directory of the module and the top-level entry. *)
Theorem source_map_entry_of_unit ns st pre c u post r :
  get "name" (manifest env) = Some (JStr ns) ->
  App_units (buildFs (fileSystem st)) = (pre ++ (c, u) :: post)%list ->
  outcome (App env st) = inr r ->
  ~ In (key_of ns pre (c, u)) (later_keys ns pre (c, u) post) ->
  get (key_of ns pre (c, u)) (app_sourceMap r)
  = Some (JObj [("path", JStr (join env (currdir env) c (path u)));
                ("content", JStr (content u))]).
Proof.
  intros Hname Hat Hok Hlast.
  destruct (@unit_registered _ _ env ns Hname st r Hok pre post (c, u) Hat)
    as [tsModule (_ & _ & _ & H)].
  now destruct (H Hlast) as [Hsm _].
Qed.


(** C6, as the code has it.  When two units of a pass resolve to the same
    block key and no unit after them does, the later one wins: in a pass
    that fulfils, the source map binds the key to the entry of the later
    unit, and the manifest binds it, under the top-level entry of the later
    unit, to the module loaded from the later unit.  That is the binding of
    the earlier unit when the two are under the same top-level entry. *)
Theorem later_unit_wins ns st pre cu1 mid cu2 post r tsModule :
  get "name" (manifest env) = Some (JStr ns) ->
  App_units (buildFs (fileSystem st))
  = (pre ++ cu1 :: mid ++ cu2 :: post)%list ->
  key_of ns pre cu1 = key_of ns (pre ++ cu1 :: mid) cu2 ->
  ~ In (key_of ns (pre ++ cu1 :: mid) cu2)
       (later_keys ns (pre ++ cu1 :: mid) cu2 post) ->
  outcome (App env st) = inr r ->
  outcome (importFromString env (content (snd cu2))) = inr tsModule ->
  get (key_of ns pre cu1) (app_sourceMap r)
  = Some (sourceMapEntry
            (join env (currdir env) (fst cu2) (path (snd cu2)))
            (content (snd cu2)))
  /\ binding (fst cu2) (key_of ns pre cu1) (app_manifest r)
     = Some (JMod tsModule)
  /\ (fst cu1 = fst cu2 ->
      binding (fst cu1) (key_of ns pre cu1) (app_manifest r)
      = Some (JMod tsModule)).
Proof.
  intros Hname Hat Hsame Hlast Hok Hload.
  assert (Hat' : App_units (buildFs (fileSystem st))
                 = ((pre ++ cu1 :: mid) ++ cu2 :: post)%list).
  { rewrite Hat. now rewrite <- app_assoc. }
  destruct (@unit_registered _ _ env ns Hname st r Hok _ post cu2 Hat')
    as [tsModule' (Hload' & _ & _ & H)].
  rewrite Hload in Hload'. inversion Hload'; subst tsModule'.
  rewrite Hsame. destruct (H Hlast) as [Hsm Hb].
  split; [exact Hsm|]. split; [exact Hb|].
  intros E. rewrite E. exact Hb.
Qed.

(** C9, as the code has it.  In a pass that fulfils, the content recorded
    in the source map under the block key of a unit is the content of that
    unit, character for character, for every unit that no later unit of
    the pass shares its key with. *)
Theorem source_map_content_of_unit ns st pre c u post r :
  get "name" (manifest env) = Some (JStr ns) ->
  App_units (buildFs (fileSystem st)) = (pre ++ (c, u) :: post)%list ->
  outcome (App env st) = inr r ->
  ~ In (key_of ns pre (c, u)) (later_keys ns pre (c, u) post) ->
  field "content" (get (key_of ns pre (c, u)) (app_sourceMap r))
  = Some (JStr (content u)).
Proof.
  intros Hname Hat Hok Hlast.
  destruct (@unit_registered _ _ env ns Hname st r Hok pre post (c, u) Hat)
    as [tsModule (_ & _ & _ & H)].
  destruct (H Hlast) as [Hsm _]. simpl in Hsm. rewrite Hsm. reflexivity.
Qed.

End BuildPass.

(* ================================================================= *)
(** ** The flattened tree *)

Section Flattening.
Import JsObject JsObjectFacts.

Lemma reduce_get_absent nm nodes : forall acc,
  ~ In nm (map name nodes) ->
  get nm (fold_left (reducer flatValue) nodes acc) = get nm acc.
Proof.
  induction nodes as [|n r IH]; intros acc Hout; simpl; [reflexivity|].
  rewrite IH by (intro; apply Hout; now right).
  unfold reducer. apply get_set_other. intro E. apply Hout. now left.
Qed.

Lemma reduce_same_but nm nodes : forall acc acc',
  Shadow.same_but nm acc acc' ->
  Shadow.same_but nm (fold_left (reducer flatValue) nodes acc)
                     (fold_left (reducer flatValue) nodes acc').
Proof.
  induction nodes as [|n r IH]; intros acc acc' H; simpl; [exact H|].
  apply IH. unfold reducer. now apply Shadow.same_but_set.
Qed.

(** A flattened directory has each name once. *)
Lemma buildFs_NoDup nodes : NoDup (keys (buildFs nodes)).
Proof.
  unfold buildFs.
  assert (H : forall acc, NoDup (keys acc) ->
                NoDup (keys (fold_left (reducer flatValue) nodes acc))).
  { induction nodes as [|n r IH]; intros acc Hacc; simpl; [exact Hacc|].
    apply IH. unfold reducer. now apply NoDup_set. }
  apply H. constructor.
Qed.

(** C7, as the code has it.  For a directory whose names are all distinct
    and none of which is an array index, flattening keeps the stored order
    of the children and the walker visits them in that order, each child
    with its name joined to the root.  (Array-index names come out first,
    in numeric order, and a repeated name keeps the place of its first
    node.) *)
Theorem stored_order_of_plain_names nodes :
  plain_names nodes ->
  entries (buildFs nodes) = map (fun n => (name n, flatValue (value n))) nodes
  /\ forall root,
       walk (FsDir (buildFs nodes)) root
       = flat_map (fun n => walk (flatValue (value n))
                                 (child_root root (name n))) nodes.
Proof.
  intros [Hnd Hidx].
  assert (E : buildFs nodes
              = map (fun n => (name n, flatValue (value n))) nodes).
  { unfold buildFs. rewrite reduce_plain; auto. }
  split; [exact E|].
  intros root. rewrite E. simpl. unfold entries. clear.
  induction nodes as [|n r IH]; simpl; [reflexivity|].
  now rewrite IH.
Qed.

(** C10. When two nodes of one node sequence have the same name and no
    node after them has it, the flattened tree has the name once, bound to
    the flattened value of the later node, and the value of the earlier
    node is nowhere in it: any other value in its place gives the same
    tree and, for a top-level sequence, the same build pass, calls and
    outcome alike. *)
Theorem earlier_same_name_is_shadowed l1 nm v1 l2 v2 l3 :
  ~ In nm (map name l3) ->
  get nm (buildFs (l1 ++ mkNode nm v1 :: l2 ++ mkNode nm v2 :: l3))
  = Some (flatValue v2)
  /\ NoDup (keys (buildFs (l1 ++ mkNode nm v1 :: l2 ++ mkNode nm v2 :: l3)))
  /\ (forall v1',
        buildFs (l1 ++ mkNode nm v1 :: l2 ++ mkNode nm v2 :: l3)
        = buildFs (l1 ++ mkNode nm v1' :: l2 ++ mkNode nm v2 :: l3))
  /\ (forall Module Err (env : Imports Module Err) v1',
        App env {| fileSystem := l1 ++ mkNode nm v1 :: l2 ++ mkNode nm v2 :: l3 |}
        = App env {| fileSystem := l1 ++ mkNode nm v1' :: l2 ++ mkNode nm v2 :: l3 |}).
Proof.
  intros Hlast.
  assert (Heq : forall v1',
            buildFs (l1 ++ mkNode nm v1 :: l2 ++ mkNode nm v2 :: l3)
            = buildFs (l1 ++ mkNode nm v1' :: l2 ++ mkNode nm v2 :: l3)).
  { intros v1'. rewrite !buildFs_app. simpl.
    rewrite !fold_left_app. simpl. f_equal.
    unfold reducer at 2 5. simpl.
    apply Shadow.same_but_set_nm. apply reduce_same_but.
    unfold reducer. simpl. apply Shadow.set_same_but. }
  split; [|split; [|split]].
  - rewrite buildFs_app. simpl. rewrite fold_left_app. simpl.
    rewrite reduce_get_absent by exact Hlast.
    unfold reducer at 2. simpl. apply get_set_same.
  - apply buildFs_NoDup.
  - exact Heq.
  - intros Module Err env v1'. unfold App. simpl. now rewrite (Heq v1').
Qed.

End Flattening.

(* ================================================================= *)
(** ** The build pass on the concrete host *)

Section OnTheDemoHost.
Import Async JsObject.

(** The key of the specification's example, with a suffix the walker
    recognizes. *)
Example key_of_nested_leaf :
  App_units (buildFs (fileSystem Demo.nested))
  = [("loaders", Demo.unit "foo/bar.ts" "A")]
  /\ block_keys "acme" (App_units (buildFs (fileSystem Demo.nested)))
     = ["acme/loaders/foo/bar.ts"].
Proof. split; reflexivity. Qed.

(** C1 on five units of which the third fails. *)
Lemma failed_unit_fails_the_pass_on_five :
  In ("loaders", Demo.unit "c.ts" Demo.broken)
     (App_units (buildFs (fileSystem Demo.five)))
  /\ outcome (importFromString Demo.env Demo.broken) = inl "SyntaxError"
  /\ exists e', outcome (App Demo.env Demo.five) = inl e'.
Proof.
  assert (H1 : In ("loaders", Demo.unit "c.ts" Demo.broken)
                  (App_units (buildFs (fileSystem Demo.five))))
    by (vm_compute; tauto).
  assert (H2 : outcome (importFromString Demo.env
                          (content (Demo.unit "c.ts" Demo.broken)))
               = inl "SyntaxError") by reflexivity.
  split; [exact H1|]. split; [exact H2|].
  exact (@failed_unit_fails_the_pass _ _ Demo.env Demo.five "loaders"
           (Demo.unit "c.ts" Demo.broken) "SyntaxError" H1 H2).
Defined.

(** C2 as stated fails: the call to [initialize] is made when the module is
    evaluated, in a process that asks for no pass and in one whose only pass
    has no unit to compile. *)
Lemma initialize_is_not_lazy :
  process Demo.env [] = [EvInitialize]
  /\ process Demo.env [{| fileSystem := [] |}] = [EvInitialize]
  /\ App_units (buildFs []) = [].
Proof. repeat split. Qed.

(** C3 as stated fails: the second unit under an entry called [name] is
    not registered under [acme/name/b.ts] but under
    [[object Object]/name/b.ts]; and a leaf [foo/bar.src] is no unit. *)
Lemma block_key_under_name :
  App_units (buildFs (fileSystem Demo.named))
  = [("name", Demo.unit "a.ts" "A"); ("name", Demo.unit "b.ts" "B")]
  /\ (exists r,
        outcome (App Demo.env Demo.named) = inr r
        /\ get "acme/name/b.ts" (app_sourceMap r) = None
        /\ binding "name" "acme/name/b.ts" (app_manifest r) = None
        /\ has "[object Object]/name/b.ts" (app_sourceMap r) = true)
  /\ App_units
       (buildFs [Demo.dir "loaders" [Demo.dir "foo" [Demo.file "bar.src" "A"]]])
     = [].
Proof.
  split; [reflexivity|]. split; [|reflexivity].
  eexists. split; [vm_compute; reflexivity|]. repeat split.
Qed.

(** C4 as stated fails: the path recorded for the unit the walker yielded
    as [foo/bar.ts] is not that path. *)
Lemma recorded_path_is_joined :
  App_units (buildFs (fileSystem Demo.nested))
  = [("loaders", Demo.unit "foo/bar.ts" "A")]
  /\ exists r,
       outcome (App Demo.env Demo.nested) = inr r
       /\ field "path" (get "acme/loaders/foo/bar.ts" (app_sourceMap r))
          = Some (JStr "file:/deco/apps/workspace/loaders/foo/bar.ts").
Proof.
  split; [reflexivity|]. eexists. split; [vm_compute; reflexivity|].
  reflexivity.
Qed.

(** The amended C4 on the unit of [Demo.nested]. *)
Lemma source_map_entry_of_unit_on_nested :
  exists r,
    outcome (App Demo.env Demo.nested) = inr r
    /\ get "acme/loaders/foo/bar.ts" (app_sourceMap r)
       = Some (JObj [("path", JStr (Posix.join "file:///deco/apps/workspace"
                                      "loaders" "foo/bar.ts"));
                     ("content", JStr "A")]).
Proof.
  eexists. split; [vm_compute; reflexivity|].
  apply (@source_map_entry_of_unit _ _ Demo.env "acme" Demo.nested
           [] "loaders" (Demo.unit "foo/bar.ts" "A") []);
    try reflexivity.
  simpl. tauto.
Defined.



(** C6 as stated fails: the two units resolve to one key under two
    top-level entries, and the module of the earlier unit is still bound to
    the key, under its own entry, after the pass. *)
Lemma earlier_module_stays_under_its_entry :
  App_units (buildFs (fileSystem Demo.crossing))
  = [("x", Demo.unit "y/z.ts" "A"); ("x/y", Demo.unit "z.ts" "B")]
  /\ block_keys "acme" (App_units (buildFs (fileSystem Demo.crossing)))
     = ["acme/x/y/z.ts"; "acme/x/y/z.ts"]
  /\ exists r,
       outcome (App Demo.env Demo.crossing) = inr r
       /\ binding "x" "acme/x/y/z.ts" (app_manifest r)
          = Some (JMod "data:application/javascript;base64,A")
       /\ binding "x/y" "acme/x/y/z.ts" (app_manifest r)
          = Some (JMod "data:application/javascript;base64,B").
Proof.
  split; [reflexivity|]. split; [reflexivity|].
  eexists. split; [vm_compute; reflexivity|]. split; reflexivity.
Qed.

(** The amended C6 on the two units of [Demo.colliding]. *)
Lemma later_unit_wins_on_colliding :
  App_units (buildFs (fileSystem Demo.colliding))
  = [("loaders", Demo.unit "x.ts" "A"); ("loaders", Demo.unit "x.ts" "B")]
  /\ exists r,
       outcome (App Demo.env Demo.colliding) = inr r
       /\ get "acme/loaders/x.ts" (app_sourceMap r)
          = Some (sourceMapEntry "file:/deco/apps/workspace/loaders/x.ts" "B")
       /\ binding "loaders" "acme/loaders/x.ts" (app_manifest r)
          = Some (JMod "data:application/javascript;base64,B")
       /\ ("loaders" = "loaders" ->
           binding "loaders" "acme/loaders/x.ts" (app_manifest r)
           = Some (JMod "data:application/javascript;base64,B")).
Proof.
  split; [reflexivity|]. eexists. split; [vm_compute; reflexivity|].
  apply (@later_unit_wins _ _ Demo.env "acme" Demo.colliding
           [] ("loaders", Demo.unit "x.ts" "A") []
           ("loaders", Demo.unit "x.ts" "B") []);
    try reflexivity.
  simpl. tauto.
Defined.

(** C7 as stated fails: stored as [2] then [1], the directory is walked
    [1] then [2], as is the directory stored the other way round. *)
Lemma numbered_names_are_walked_in_numeric_order :
  walk (FsDir (buildFs Demo.numbered)) ""
  = [Demo.unit "1/b.ts" "B"; Demo.unit "2/a.ts" "A"]
  /\ walk (FsDir (buildFs (rev Demo.numbered))) ""
     = [Demo.unit "1/b.ts" "B"; Demo.unit "2/a.ts" "A"].
Proof. split; reflexivity. Qed.

(** The amended C7 on a directory stored as [b.ts] then [a.ts]. *)
Lemma stored_order_of_plain_names_on_two :
  entries (buildFs [Demo.file "b.ts" "B"; Demo.file "a.ts" "A"])
  = [("b.ts", FsFile "B"); ("a.ts", FsFile "A")]
  /\ forall root,
       walk (FsDir (buildFs [Demo.file "b.ts" "B"; Demo.file "a.ts" "A"])) root
       = flat_map (fun n => walk (flatValue (value n))
                                 (child_root root (name n)))
           [Demo.file "b.ts" "B"; Demo.file "a.ts" "A"].
Proof.
  apply (@stored_order_of_plain_names
           [Demo.file "b.ts" "B"; Demo.file "a.ts" "A"]).
  split.
  - simpl. repeat constructor; simpl; intuition discriminate.
  - repeat constructor.
Defined.

(** C9 as stated fails: the unit with content [A] is a unit of the pass,
    and the content under its key is [B]. *)
Lemma overwritten_content :
  App_units (buildFs (fileSystem Demo.colliding))
  = [("loaders", Demo.unit "x.ts" "A"); ("loaders", Demo.unit "x.ts" "B")]
  /\ block_keys "acme" (App_units (buildFs (fileSystem Demo.colliding)))
     = ["acme/loaders/x.ts"; "acme/loaders/x.ts"]
  /\ exists r,
       outcome (App Demo.env Demo.colliding) = inr r
       /\ field "content" (get "acme/loaders/x.ts" (app_sourceMap r))
          = Some (JStr "B").
Proof.
  split; [reflexivity|]. split; [reflexivity|].
  eexists. split; [vm_compute; reflexivity|]. reflexivity.
Qed.

(** The amended C9 on the later unit of [Demo.colliding]. *)
Lemma source_map_content_of_unit_on_colliding :
  exists r,
    outcome (App Demo.env Demo.colliding) = inr r
    /\ field "content" (get "acme/loaders/x.ts" (app_sourceMap r))
       = Some (JStr "B").
Proof.
  eexists. split; [vm_compute; reflexivity|].
  apply (@source_map_content_of_unit _ _ Demo.env "acme" Demo.colliding
           [("loaders", Demo.unit "x.ts" "A")] "loaders"
           (Demo.unit "x.ts" "B") []);
    try reflexivity.
  simpl. tauto.
Defined.

(** C10 on a directory [a] shadowed by a later file [a]. *)
Lemma earlier_same_name_is_shadowed_on_two :
  get "a"
    (buildFs [Demo.dir "a" [Demo.file "x.ts" "X"]; Demo.file "b.ts" "B";
              Demo.file "a" "later"])
  = Some (FsFile "later")
  /\ NoDup (keys (buildFs [Demo.dir "a" [Demo.file "x.ts" "X"];
                           Demo.file "b.ts" "B"; Demo.file "a" "later"]))
  /\ (forall v1',
        buildFs [Demo.dir "a" [Demo.file "x.ts" "X"]; Demo.file "b.ts" "B";
                 Demo.file "a" "later"]
        = buildFs [mkNode "a" v1'; Demo.file "b.ts" "B"; Demo.file "a" "later"])
  /\ (forall Module Err (env : Imports Module Err) v1',
        App env {| fileSystem :=
                     [Demo.dir "a" [Demo.file "x.ts" "X"]; Demo.file "b.ts" "B";
                      Demo.file "a" "later"] |}
        = App env {| fileSystem :=
                       [mkNode "a" v1'; Demo.file "b.ts" "B";
                        Demo.file "a" "later"] |}).
Proof.
  apply (@earlier_same_name_is_shadowed []
           "a" (Directory [Demo.file "x.ts" "X"])
           [Demo.file "b.ts" "B"] (File "later") []).
  simpl. tauto.
Defined.

End OnTheDemoHost.

(* ================================================================= *)
(** ** Further properties of the build pass: calls and frame *)

Section PassCalls.
Import Async AsyncFacts JsObject JsObjectFacts.

Variable Module : Type.
Variable Err : Type.
Variable env : Imports Module Err.

Lemma transformed_app a b :
  transformed (a ++ b)%list = (transformed a ++ transformed b)%list.
Proof.
  induction a as [|[| |] r IH]; simpl; auto. now rewrite IH.
Qed.

(** The calls of [importFromString]: always the [transform] of its
    argument, first, and nothing else to [transform]. *)
Lemma importFromString_transformed modData :
  transformed (events (importFromString env modData)) = [modData].
Proof.
  unfold importFromString, events, bind, call, lift. simpl.
  destruct (transform env modData) as [e|code]; simpl; [reflexivity|].
  destruct (btoa env code) as [e|b64]; simpl; reflexivity.
Qed.

(** With a toolchain that did not initialize, [compile] rejects with that
    reason before any call. *)
Lemma compile_uninitialized e c u m sm :
  initialize env = inl e -> compile env c u m sm = ([], inl e).
Proof.
  intros H. unfold compile, bind, await, initializePromise, call. simpl.
  now rewrite H.
Qed.

(** Otherwise its calls are those of [importFromString]. *)
Lemma compile_calls c u m sm :
  initialize env = inr tt ->
  events (compile env c u m sm) = events (importFromString env (content u)).
Proof.
  intros H. unfold compile. rewrite events_bind.
  unfold await, initializePromise, call, outcome, events at 1. simpl.
  rewrite H. simpl. rewrite events_bind.
  destruct (outcome (importFromString env (content u))); [reflexivity|].
  rewrite events_bind. unfold lift, ret, outcome, events at 2 3 4. simpl.
  destruct (toString env (get "name" m)); simpl; now rewrite app_nil_r.
Qed.

(** [compile] rejects with the reason [importFromString] rejects with. *)
Lemma compile_rejects_with c u m sm e :
  initialize env = inr tt ->
  outcome (importFromString env (content u)) = inl e ->
  outcome (compile env c u m sm) = inl e.
Proof.
  intros Hi H. unfold compile. rewrite outcome_bind.
  unfold await, initializePromise, call, outcome at 1. simpl. rewrite Hi.
  now rewrite outcome_bind, H.
Qed.

(** [compile] fulfils when the toolchain is initialized, the module loads
    and [manifest.name] is known. *)
Lemma compile_fulfils b ns c u m sm tsModule :
  initialize env = inr tt ->
  name_state b ns m ->
  outcome (importFromString env (content u)) = inr tsModule ->
  outcome (compile env c u m sm)
  = inr (linked env (prefix_at ns b) c u tsModule (m, sm)).
Proof.
  intros Hi Hn H. unfold compile. rewrite outcome_bind.
  unfold await, initializePromise, call, outcome at 1. simpl. rewrite Hi.
  rewrite outcome_bind, H, outcome_bind.
  unfold lift, outcome at 1. simpl.
  rewrite (@toString_name_state _ _ env ns b m Hn). reflexivity.
Qed.

(** X1. A pass over a tree without units (an empty tree, a tree of leaves
    that are no sources or that sit at the top level) makes no call and
    fulfils with the base manifest, the base source map and the flattened
    tree, whether or not the toolchain initialized. *)
Theorem pass_without_units st :
  App_units (buildFs (fileSystem st)) = [] ->
  App env st
  = ([], inr {| app_manifest := manifest env;
                app_state := buildFs (fileSystem st);
                app_sourceMap := buildSourceMap env (manifest env) |}).
Proof.
  intros H. rewrite App_unfold, H. reflexivity.
Qed.

(** X4. With a toolchain that did not initialize, a pass that has a unit
    rejects with the reason of the initialization and never calls
    [transform] or [import]. *)
Theorem uninitialized_pass_rejects st e :
  initialize env = inl e ->
  App_units (buildFs (fileSystem st)) <> [] ->
  App env st = ([], inl e).
Proof.
  intros Hi Hne. rewrite App_unfold.
  destruct (App_units (buildFs (fileSystem st))) as [|cu rest];
    [congruence|].
  simpl. unfold App_step at 1.
  rewrite (compile_uninitialized _ _ _ _ Hi). reflexivity.
Qed.

(** The loop of a pass that fulfils calls [transform] once per unit, in
    the order of the units. *)
Lemma loop_transforms units : forall acc r,
  outcome (for_of units (App_step env) acc) = inr r ->
  transformed (events (for_of units (App_step env) acc))
  = map (fun cu => content (snd cu)) units.
Proof.
  induction units as [|cu rest IH]; intros acc r Hr; [reflexivity|].
  pose proof Hr as Hr'. apply for_of_cons_inv in Hr'.
  destruct Hr' as [mid [Hstep Hrest]].
  simpl. rewrite events_bind, Hstep, transformed_app.
  rewrite (IH _ _ Hrest). unfold App_step in *.
  destruct (initialize env) as [e|[]] eqn:Hi.
  - rewrite (compile_uninitialized _ _ _ _ Hi) in Hstep. discriminate.
  - rewrite (compile_calls _ _ _ _ Hi), importFromString_transformed.
    reflexivity.
Qed.

(** X2. A pass that fulfils has called [transform] exactly once for every
    unit, with the content of the unit, in the order the walker yields the
    units under the top-level entries in their order; it has transformed
    nothing else. *)
Theorem fulfilled_pass_transforms_each_unit_once st r :
  outcome (App env st) = inr r ->
  transformed (events (App env st))
  = map (fun cu => content (snd cu)) (App_units (buildFs (fileSystem st))).
Proof.
  intros H. rewrite App_unfold, events_bind.
  rewrite outcome_App in H.
  destruct (outcome (for_of _ _ _)) as [e|acc] eqn:E; [discriminate|].
  rewrite transformed_app. simpl. rewrite app_nil_r.
  now apply loop_transforms with (r := acc).
Qed.

(** The loop over units that all load fulfils, from a manifest whose
    [name] is known, and leaves a manifest whose [name] is known. *)
Lemma loop_fulfils ns units : forall b m sm,
  initialize env = inr tt ->
  name_state b ns m ->
  Forall (fun cu => exists tsModule,
            outcome (importFromString env (content (snd cu))) = inr tsModule)
         units ->
  exists r, outcome (for_of units (App_step env) (m, sm)) = inr r
            /\ name_state (b || existsb under_name units) ns (fst r).
Proof.
  induction units as [|cu rest IH]; intros b m sm Hi Hn Hall.
  - exists (m, sm). split; [reflexivity|]. simpl. now rewrite orb_false_r.
  - inversion Hall as [|? ? [tsModule Hload] Hrest]; subst.
    pose proof (@compile_fulfils b ns (fst cu) (snd cu) m sm tsModule
                  Hi Hn Hload)
      as Hstep.
    set (mid := linked env (prefix_at ns b) (fst cu) (snd cu) tsModule (m, sm))
      in *.
    assert (Hn' : name_state (b || under_name cu) ns (fst mid))
      by (apply linked_name_state; exact Hn).
    destruct (@IH (b || under_name cu) (fst mid) (snd mid) Hi Hn' Hrest)
      as [r [Hr Hnr]].
    exists r. split.
    + simpl. rewrite outcome_bind. unfold App_step at 1. simpl.
      rewrite Hstep. now destruct mid.
    + simpl. now rewrite orb_assoc.
Qed.

(** X3. When the units before one load and that one does not, the pass
    rejects with the reason that unit was rejected with, having called
    [transform] for the units up to and including it and for none after
    it. *)
Theorem pass_stops_at_first_failure ns st pre cu post e :
  initialize env = inr tt ->
  get "name" (manifest env) = Some (JStr ns) ->
  App_units (buildFs (fileSystem st)) = (pre ++ cu :: post)%list ->
  Forall (fun cu' => exists tsModule,
            outcome (importFromString env (content (snd cu'))) = inr tsModule)
         pre ->
  outcome (importFromString env (content (snd cu))) = inl e ->
  outcome (App env st) = inl e
  /\ transformed (events (App env st))
     = map (fun cu' => content (snd cu')) (pre ++ [cu]).
Proof.
  intros Hi Hname Hat Hpre Hfail.
  destruct (@loop_fulfils ns pre false (manifest env)
              (buildSourceMap env (manifest env)) Hi Hname Hpre)
    as [mid [Hmid _]].
  assert (Hstep : outcome (for_of (cu :: post) (App_step env) mid) = inl e).
  { simpl. rewrite outcome_bind. unfold App_step at 1.
    now rewrite (compile_rejects_with _ _ _ _ Hi Hfail). }
  rewrite App_unfold, outcome_bind, events_bind, Hat.
  rewrite for_of_app, outcome_bind, events_bind, Hmid, Hstep.
  split; [reflexivity|].
  rewrite transformed_app, (loop_transforms pre _ Hmid), map_app.
  f_equal. simpl. rewrite events_bind. unfold App_step at 1 2.
  rewrite (compile_rejects_with _ _ _ _ Hi Hfail).
  rewrite (compile_calls _ _ _ _ Hi). apply importFromString_transformed.
Qed.

(** Top-level entries of the manifest that are no unit's entry keep their
    value through the loop. *)
Lemma loop_untouched_entries units : forall acc r,
  outcome (for_of units (App_step env) acc) = inr r ->
  forall c, ~ In c (map fst units) -> get c (fst r) = get c (fst acc).
Proof.
  induction units as [|cu rest IH]; intros acc r Hr c Hc.
  - simpl in Hr. unfold outcome, ret in Hr. simpl in Hr. now inversion Hr.
  - apply for_of_cons_inv in Hr. destruct Hr as [mid [Hstep Hrest]].
    rewrite (IH _ _ Hrest c) by (intro; apply Hc; now right).
    unfold App_step in Hstep. apply compile_inv in Hstep.
    destruct Hstep as [tsModule [ns' [_ [_ ->]]]].
    unfold linked. simpl. apply get_set_other.
    intro E. apply Hc. now left.
Qed.

(** Every top-level key of the manifest stays through the loop. *)
Lemma loop_keeps_entries units : forall acc r,
  outcome (for_of units (App_step env) acc) = inr r ->
  forall c, has c (fst acc) = true -> has c (fst r) = true.
Proof.
  induction units as [|cu rest IH]; intros acc r Hr c Hc.
  - simpl in Hr. unfold outcome, ret in Hr. simpl in Hr.
    inversion Hr; subst. exact Hc.
  - apply for_of_cons_inv in Hr. destruct Hr as [mid [Hstep Hrest]].
    apply (IH _ _ Hrest c).
    unfold App_step in Hstep. apply compile_inv in Hstep.
    destruct Hstep as [tsModule [ns' [_ [_ ->]]]].
    unfold linked. simpl.
    destruct (String.eqb_spec c (fst cu)) as [->|Hne].
    + apply has_set_same.
    + now rewrite has_set_other.
Qed.

(** X5. A pass that fulfils only extends what it was given: every key of
    the base manifest and of the base source map is still there; a
    top-level entry of the manifest under which no unit was found has the
    value it had; and a key of the source map that is no block key of a
    unit has the entry it had. *)
Theorem pass_extends_the_base ns st r :
  get "name" (manifest env) = Some (JStr ns) ->
  outcome (App env st) = inr r ->
  (forall c, has c (manifest env) = true -> has c (app_manifest r) = true)
  /\ (forall K, has K (buildSourceMap env (manifest env)) = true ->
                has K (app_sourceMap r) = true)
  /\ (forall c, ~ In c (map fst (App_units (buildFs (fileSystem st)))) ->
                get c (app_manifest r) = get c (manifest env))
  /\ (forall K, ~ In K (block_keys ns (App_units (buildFs (fileSystem st)))) ->
                get K (app_sourceMap r)
                = get K (buildSourceMap env (manifest env))).
Proof.
  intros Hname Hok.
  pose proof (@App_loop_ok _ _ env st r Hok) as Hloop.
  destruct (@loop_inv _ _ env ns _ false _ _ _ Hname Hloop)
    as (_ & I2 & I3 & _).
  split; [|split; [|split]].
  - intros c Hc. now apply (loop_keeps_entries _ _ Hloop c).
  - exact I3.
  - intros c Hc. now apply (loop_untouched_entries _ _ Hloop c).
  - exact I2.
Qed.

End PassCalls.

(* ================================================================= *)
(** ** Further properties of flattening: lookup and order of the keys *)

Section FlatteningLaws.
Import JsObject JsObjectFacts.

Lemma buildFs_snoc l n :
  buildFs (l ++ [n]) = set (name n) (flatValue (value n)) (buildFs l).
Proof. now rewrite buildFs_app. Qed.

(** X6. Looking a name up in a flattened node sequence gives the flattened
    value of the last node that has the name, and nothing when no node has
    it; the keys of the flattened sequence are the names of its nodes. *)
Theorem buildFs_lookup nm nodes :
  get nm (buildFs nodes)
  = option_map (fun n => flatValue (value n)) (last_named nm nodes)
  /\ (In nm (keys (buildFs nodes)) <-> In nm (map name nodes)).
Proof.
  assert (H : get nm (buildFs nodes)
              = option_map (fun n => flatValue (value n))
                  (last_named nm nodes)).
  { unfold last_named. induction nodes as [|n l IH] using rev_ind;
      [reflexivity|].
    rewrite buildFs_snoc, rev_app_distr. simpl.
    destruct (String.eqb_spec (name n) nm) as [<-|Hne].
    - apply get_set_same.
    - rewrite get_set_other by (now apply not_eq_sym). exact IH. }
  split; [exact H|].
  rewrite <- has_In. unfold has. rewrite H. unfold last_named.
  destruct (find _ (rev nodes)) as [n|] eqn:E; simpl.
  - apply find_some in E. destruct E as [Hin Hn].
    apply String.eqb_eq in Hn. subst nm.
    split; [|reflexivity]. intros _. apply in_map. now apply in_rev.
  - split; [discriminate|]. intros Hin. apply in_map_iff in Hin.
    destruct Hin as [n [<- Hn]]. apply in_rev in Hn.
    apply (find_none _ _ E) in Hn. now rewrite String.eqb_refl in Hn.
Qed.

Lemma entries_order_plain k k' :
  array_index k' = None -> entries_order k k'.
Proof. unfold entries_order. intros ->. now destruct (array_index k). Qed.

Lemma entries_order_trans k1 k2 k3 :
  entries_order k1 k2 -> entries_order k2 k3 -> entries_order k1 k3.
Proof.
  unfold entries_order.
  destruct (array_index k1), (array_index k2), (array_index k3);
    try tauto. apply N.le_trans.
Qed.

Section Order.
Variable V : Type.
Implicit Types (o : JsObject.t V).

Lemma keys_app o1 o2 : keys (o1 ++ o2)%list = (keys o1 ++ keys o2)%list.
Proof. unfold keys. apply map_app. Qed.

Lemma sorted_insert_index n k v o :
  array_index k = Some n ->
  StronglySorted entries_order (keys o) ->
  StronglySorted entries_order (keys (insert_index n k v o)).
Proof.
  intros Hk. unfold keys.
  induction o as [|[k1 v1] r IH]; simpl; intros Hs.
  - repeat constructor.
  - inversion Hs as [|? ? Hr Hall]; subst.
    assert (Hhead : forall x, entries_order k k1 -> In x (map fst r) ->
                      entries_order k x).
    { intros x Hkk1 Hx. apply entries_order_trans with k1; [exact Hkk1|].
      rewrite Forall_forall in Hall. now apply Hall. }
    destruct (array_index k1) as [n1|] eqn:E1.
    + destruct (N.ltb_spec n1 n) as [Hlt|Hge]; simpl.
      * constructor; [now apply IH|].
        apply Forall_forall. intros x Hx.
        apply (keys_insert_index n k v r x) in Hx.
        destruct Hx as [->|Hx].
        -- unfold entries_order. rewrite E1, Hk. lia.
        -- rewrite Forall_forall in Hall. now apply Hall.
      * assert (Hkk1 : entries_order k k1)
          by (unfold entries_order; now rewrite Hk, E1).
        constructor; [exact Hs|]. constructor; [exact Hkk1|].
        apply Forall_forall. intros x Hx. now apply Hhead.
    + simpl.
      assert (Hkk1 : entries_order k k1) by (now apply entries_order_plain).
      constructor; [exact Hs|]. constructor; [exact Hkk1|].
      apply Forall_forall. intros x Hx. now apply Hhead.
Qed.

(** Defining a property keeps the keys in the order of [Object.entries]. *)
Lemma sorted_set k v o :
  StronglySorted entries_order (keys o) ->
  StronglySorted entries_order (keys (set k v o)).
Proof.
  intros Hs. unfold set. destruct (has k o).
  - now rewrite keys_replace.
  - destruct (array_index k) as [n|] eqn:E.
    + now apply sorted_insert_index.
    + rewrite keys_app. simpl.
      induction (keys o) as [|k1 r IH]; simpl.
      * repeat constructor.
      * inversion Hs as [|? ? Hr Hall]; subst.
        constructor; [now apply IH|].
        apply Forall_app. split; [exact Hall|].
        constructor; [|constructor]. now apply entries_order_plain.
Qed.

Lemma plain_keys_insert_index n k v o :
  array_index k = Some n ->
  plain_keys (keys (insert_index n k v o)) = plain_keys (keys o).
Proof.
  intros Hk.
  assert (Hdrop : forall l, plain_keys (k :: l) = plain_keys l).
  { intros l. unfold plain_keys. simpl. unfold is_index. now rewrite Hk. }
  unfold keys. induction o as [|[k1 v1] r IH]; cbn [insert_index map fst].
  - apply Hdrop.
  - destruct (array_index k1) as [n1|] eqn:E1;
      [destruct (n1 <? n)%N|]; cbn [map fst]; try apply Hdrop.
    unfold plain_keys in *. simpl. now rewrite IH.
Qed.

Lemma has_plain_keys k o :
  array_index k = None ->
  has k o = existsb (String.eqb k) (plain_keys (keys o)).
Proof.
  intros Hk. unfold has, keys, plain_keys.
  induction o as [|[k1 v1] r IH]; simpl; [reflexivity|].
  destruct (String.eqb_spec k1 k) as [->|Hne].
  - unfold is_index. rewrite Hk. simpl. now rewrite String.eqb_refl.
  - destruct (negb (is_index k1)); simpl; [|exact IH].
    destruct (String.eqb_spec k k1) as [->|_]; [congruence | exact IH].
Qed.

(** What defining a property does to the keys that are no array index. *)
Lemma plain_keys_set k v o :
  plain_keys (keys (set k v o))
  = if is_index k || existsb (String.eqb k) (plain_keys (keys o))
    then plain_keys (keys o)
    else (plain_keys (keys o) ++ [k])%list.
Proof.
  unfold set, is_index. destruct (array_index k) as [n|] eqn:E; simpl.
  - destruct (has k o); [now rewrite keys_replace|].
    now apply plain_keys_insert_index.
  - rewrite <- (has_plain_keys k o E).
    destruct (has k o); [now rewrite keys_replace|].
    rewrite keys_app. unfold plain_keys. rewrite filter_app. simpl.
    unfold is_index. now rewrite E.
Qed.

End Order.

Lemma reduce_plain_keys nodes : forall acc,
  plain_keys (keys (fold_left (reducer flatValue) nodes acc))
  = (plain_keys (keys acc)
     ++ first_occurrences (plain_keys (keys acc))
          (plain_keys (map name nodes)))%list.
Proof.
  induction nodes as [|n r IH]; intros acc; cbn [fold_left map].
  - unfold plain_keys at 3. simpl. now rewrite app_nil_r.
  - rewrite IH.
    assert (Hset : plain_keys (keys (reducer flatValue acc n))
                   = if is_index (name n)
                        || existsb (String.eqb (name n)) (plain_keys (keys acc))
                     then plain_keys (keys acc)
                     else (plain_keys (keys acc) ++ [name n])%list)
      by (unfold reducer; apply plain_keys_set).
    rewrite Hset.
    assert (Hcons : plain_keys (name n :: map name r)
                    = if is_index (name n) then plain_keys (map name r)
                      else name n :: plain_keys (map name r)).
    { unfold plain_keys. simpl. now destruct (is_index (name n)). }
    rewrite Hcons.
    destruct (is_index (name n)); simpl; [reflexivity|].
    destruct (existsb (String.eqb (name n)) (plain_keys (keys acc)));
      [reflexivity|].
    now rewrite <- app_assoc.
Qed.

(** X7. The entries of a flattened node sequence come in the order of
    [Object.entries]: the names that are array indices first, ascending by
    value, then the other names, each once, in the order in which they
    first occur in the sequence. *)
Theorem buildFs_entries_order nodes :
  StronglySorted entries_order (keys (buildFs nodes))
  /\ plain_keys (keys (buildFs nodes))
     = first_occurrences [] (plain_keys (map name nodes)).
Proof.
  split.
  - unfold buildFs.
    assert (H : forall acc,
              StronglySorted entries_order (keys acc) ->
              StronglySorted entries_order
                (keys (fold_left (reducer flatValue) nodes acc))).
    { induction nodes as [|n r IH]; intros acc Hacc; simpl; [exact Hacc|].
      apply IH. unfold reducer. now apply sorted_set. }
    apply H. constructor.
  - unfold buildFs. now rewrite reduce_plain_keys.
Qed.

End FlatteningLaws.

(* ================================================================= *)
(** ** Further properties of the walker: paths and block keys *)

Section Paths.
Import JsObject JsObjectFacts.

Lemma append_assoc (a b c : string) : (a ++ b) ++ c = a ++ b ++ c.
Proof. induction a as [|ch r IH]; simpl; [reflexivity | now rewrite IH]. Qed.

Lemma append_cancel_l (a x y : string) : a ++ x = a ++ y -> x = y.
Proof.
  induction a as [|ch r IH]; simpl; intros H; [exact H|].
  inversion H. now apply IH.
Qed.

Lemma append_empty (a b : string) : a ++ b = "" -> a = "" /\ b = "".
Proof. destruct a; simpl; [tauto | discriminate]. Qed.

(** A string without [/] followed by nothing or by [/...] is read in one
    way only. *)
Lemma split_unique a : forall b t t',
  has_slash a = false -> has_slash b = false ->
  slash_tail t -> slash_tail t' ->
  a ++ t = b ++ t' -> a = b /\ t = t'.
Proof.
  induction a as [|ch r IH]; intros [|ch' r'] t t' Ha Hb Ht Ht' H;
    simpl in *.
  - now split.
  - exfalso. destruct Ht as [->|[x ->]]; [discriminate|].
    inversion H; subst ch'. simpl in Hb. discriminate.
  - exfalso. destruct Ht' as [->|[x ->]]; [discriminate|].
    inversion H; subst ch. simpl in Ha. discriminate.
  - inversion H; subst ch'.
    apply orb_false_elim in Ha. apply orb_false_elim in Hb.
    destruct (@IH r' t t' (proj2 Ha) (proj2 Hb) Ht Ht' H2) as [-> ->].
    now split.
Qed.

(** Two equal block keys under one namespace with slash-free entries have
    the same entry. *)
Lemma blockKeyOf_entry ns c p c' p' :
  has_slash c = false -> has_slash c' = false ->
  blockKeyOf ns c p = blockKeyOf ns c' p' -> c = c'.
Proof.
  intros Hc Hc' H. unfold blockKeyOf in H.
  apply append_cancel_l in H. simpl in H. inversion H as [H1].
  destruct (@split_unique c c' ("/" ++ p) ("/" ++ p') Hc Hc') as [E _];
    try (right; eexists; reflexivity); [exact H1 | exact E].
Qed.

(** X8. Under one namespace, two block keys whose top-level entries have no
    [/] in their names are equal only for the same entry and the same
    path. *)
Theorem blockKeyOf_injective ns c p c' p' :
  has_slash c = false -> has_slash c' = false ->
  blockKeyOf ns c p = blockKeyOf ns c' p' ->
  c = c' /\ p = p'.
Proof.
  intros Hc Hc' H. unfold blockKeyOf in H.
  apply append_cancel_l in H. simpl in H. inversion H as [H1].
  destruct (@split_unique c c' ("/" ++ p) ("/" ++ p') Hc Hc') as [-> Hp];
    try (right; eexists; reflexivity); [exact H1|].
  split; [reflexivity|]. simpl in Hp. now inversion Hp.
Qed.

(** From a root that is not empty, every path the walker yields is the
    root, or the root and a [/] and more. *)
Lemma walk_extends fs : forall root u,
  root <> "" -> In u (walk fs root) ->
  exists t, path u = root ++ t /\ slash_tail t.
Proof.
  induction fs as [c|o IH] using FileSystem_nested_ind; intros root u Hr Hu.
  - simpl in Hu.
    destruct (negb (endsWith root ".ts") && negb (endsWith root ".tsx"));
      [destruct Hu|].
    destruct Hu as [<-|[]]. exists "". simpl. split; [|now left].
    clear. induction root as [|ch r IHr]; simpl; [reflexivity|].
    now rewrite <- IHr.
  - simpl in Hu. apply in_flat_map in Hu. destruct Hu as [[nm sub] [Hin Hu]].
    rewrite Forall_forall in IH. simpl in Hu.
    assert (Hchild : child_root root nm = root ++ "/" ++ nm).
    { unfold child_root. destruct (String.eqb_spec root "") as [E|_];
        [contradiction|]. apply append_assoc. }
    assert (Hne : child_root root nm <> "").
    { rewrite Hchild. intros E. apply append_empty in E. now destruct E. }
    destruct (IH _ Hin _ _ Hne Hu) as [t [Hp _]].
    exists ("/" ++ nm ++ t). split.
    + rewrite Hp, Hchild. now rewrite !append_assoc.
    + right. now exists (nm ++ t).
Qed.

(** Two ordinary names give the paths below them apart. *)
Lemma child_root_apart root nm nm' t t' :
  ordinary_name nm -> ordinary_name nm' ->
  slash_tail t -> slash_tail t' ->
  child_root root nm ++ t = child_root root nm' ++ t' -> nm = nm'.
Proof.
  intros [_ Hs] [_ Hs'] Ht Ht' H. unfold child_root in H.
  rewrite !append_assoc in H. apply append_cancel_l in H.
  now destruct (@split_unique nm nm' t t' Hs Hs' Ht Ht' H).
Qed.

Lemma child_root_not_empty root nm : nm <> "" -> child_root root nm <> "".
Proof.
  intros Hnm E. unfold child_root in E. apply append_empty in E. tauto.
Qed.

(** In a flattened tree with ordinary names the walker yields no path
    twice. *)
Lemma walk_paths_NoDup fs : forall root,
  ordinary_fs fs -> NoDup (map path (walk fs root)).
Proof.
  induction fs as [c|o IH] using FileSystem_nested_ind; intros root Hord.
  - simpl.
    destruct (negb (endsWith root ".ts") && negb (endsWith root ".tsx"));
      simpl; repeat constructor. intros [].
  - inversion Hord as [|? Hnd Hall]; subst. simpl. unfold entries.
    induction o as [|[nm sub] r IHr]; simpl; [constructor|].
    inversion IH as [|? ? IHsub IHrest]; subst.
    inversion Hall as [|? ? [Hnm Hsub] Hallr]; subst.
    unfold keys in Hnd. simpl in Hnd.
    inversion Hnd as [|? ? Hout Hndr]; subst.
    rewrite map_app. apply NoDup_app.
    + now apply IHsub.
    + apply IHr; try assumption. now constructor.
    + intros p Hp Hp'.
      apply in_map_iff in Hp. destruct Hp as [u [<- Hu]].
      apply in_map_iff in Hp'. destruct Hp' as [u' [E Hu']].
      apply in_flat_map in Hu'. destruct Hu' as [[nm' sub'] [Hin' Hu']].
      simpl in Hu'.
      rewrite Forall_forall in Hallr.
      destruct (Hallr _ Hin') as [Hnm' _]. simpl in Hnm'.
      destruct (@walk_extends sub (child_root root nm) u
                  (@child_root_not_empty root nm (proj1 Hnm)) Hu)
        as [t [Hp Ht]].
      destruct (@walk_extends sub' (child_root root nm') u'
                  (@child_root_not_empty root nm' (proj1 Hnm')) Hu')
        as [t' [Hp' Ht']].
      rewrite Hp, Hp' in E. symmetry in E.
      apply child_root_apart in E; try assumption. subst nm'.
      apply Hout. apply in_map_iff. now exists (nm, sub').
Qed.

Lemma In_replace (V : Type) k (v : V) o e :
  In e (replace k v o) -> e = (k, v) \/ In e o.
Proof.
  induction o as [|[k1 v1] r IH]; simpl; [tauto|].
  destruct (k1 =? k); simpl; intuition.
Qed.

Lemma In_insert_index (V : Type) n k (v : V) o e :
  In e (insert_index n k v o) -> e = (k, v) \/ In e o.
Proof.
  induction o as [|[k1 v1] r IH]; simpl; [intuition|].
  destruct (array_index k1) as [n1|]; [destruct (n1 <? n)%N|]; simpl;
    intuition.
Qed.

(** The entries of [{...o, [k]: v}] are [k: v] and entries of [o]. *)
Lemma In_set (V : Type) k (v : V) o e :
  In e (set k v o) -> e = (k, v) \/ In e o.
Proof.
  unfold set. destruct (has k o); [apply In_replace|].
  destruct (array_index k); [apply In_insert_index|].
  intros H. apply in_app_or in H. simpl in H. intuition.
Qed.

Lemma In_buildFs nodes e :
  In e (buildFs nodes) ->
  exists n, In n nodes /\ e = (name n, flatValue (value n)).
Proof.
  unfold buildFs.
  assert (H : forall acc,
            In e (fold_left (reducer flatValue) nodes acc) ->
            In e acc
            \/ exists n, In n nodes /\ e = (name n, flatValue (value n))).
  { induction nodes as [|n r IH]; intros acc Hin; simpl in *; [now left|].
    destruct (IH _ Hin) as [Hacc|[n' [Hn' He]]].
    - unfold reducer in Hacc. apply In_set in Hacc.
      destruct Hacc as [->|Hacc]; [right; exists n; auto | now left].
    - right. exists n'. auto. }
  intros Hin. destruct (H [] Hin) as [[]|Hn]. exact Hn.
Qed.

(** Flattening nodes with ordinary names gives a flattened tree with
    ordinary names. *)
Lemma flatValue_ordinary v : ordinary_value v -> ordinary_fs (flatValue v).
Proof.
  induction v as [c|es IH] using DirOrFile_nested_ind; intros Hord.
  - constructor.
  - rewrite flatValue_Directory. inversion Hord as [|? Hall]; subst.
    constructor; [apply buildFs_NoDup|].
    apply Forall_forall. intros e He.
    apply In_buildFs in He. destruct He as [n [Hn ->]]. simpl.
    rewrite Forall_forall in Hall, IH.
    destruct (Hall _ Hn) as [Hnm Hv]. split; [exact Hnm|].
    now apply IH.
Qed.

(** X9. When the names of the nodes are, at every depth, non-empty and
    without [/], the walker yields every path once: no two units found
    under one top-level entry have the same path. *)
Theorem ordinary_names_give_distinct_paths nodes root :
  ordinary_value (Directory nodes) ->
  NoDup (map path (walk (FsDir (buildFs nodes)) root)).
Proof.
  intros H. apply walk_paths_NoDup.
  rewrite <- flatValue_Directory. now apply flatValue_ordinary.
Qed.

End Paths.

(* ================================================================= *)
(** ** Further properties of the build pass: trees with ordinary names *)

Section OrdinaryTrees.
Import Async AsyncFacts JsObject JsObjectFacts.

Variable Module : Type.
Variable Err : Type.
Variable env : Imports Module Err.
Variable ns : string.

Definition static_key (cu : string * TsContent) : string :=
  blockKeyOf ns (fst cu) (path (snd cu)).

Lemma App_units_entry fs cu :
  In cu (App_units fs) -> In (fst cu) (keys fs).
Proof.
  unfold App_units. intros H. apply in_flat_map in H.
  destruct H as [[c sub] [Hin Hu]]. simpl in Hu.
  apply in_map_iff in Hu. destruct Hu as [u [<- _]]. simpl.
  unfold keys. apply in_map_iff. now exists (c, sub).
Qed.

(** Without a unit under [name] the block keys all have the prefix [ns]. *)
Lemma keys_from_static units :
  Forall (fun cu => under_name cu = false) units ->
  existsb under_name units = false
  /\ keys_from false ns units = map static_key units.
Proof.
  induction units as [|cu r IH]; intros H; [now split|].
  inversion H as [|? ? Hcu Hr]; subst.
  destruct (IH Hr) as [He Hk]. simpl. rewrite Hcu, He. simpl.
  split; [reflexivity|]. now rewrite Hk.
Qed.

Lemma blockKeyOf_same_entry c p p' :
  blockKeyOf ns c p = blockKeyOf ns c p' -> p = p'.
Proof.
  unfold blockKeyOf. intros H. apply append_cancel_l in H. simpl in H.
  inversion H as [H1]. apply append_cancel_l in H1. now inversion H1.
Qed.

Lemma static_keys_NoDup o :
  ordinary_fs (FsDir o) -> NoDup (map static_key (App_units o)).
Proof.
  intros Hord. inversion Hord as [|? Hnd Hall]; subst. clear Hord.
  unfold App_units, entries.
  induction o as [|[c sub] r IH]; simpl; [constructor|].
  inversion Hall as [|? ? [Hc Hsub] Hallr]; subst. simpl in Hc.
  unfold keys in Hnd. simpl in Hnd.
  inversion Hnd as [|? ? Hout Hndr]; subst.
  rewrite map_app. apply NoDup_app.
  - rewrite map_map. unfold static_key. simpl.
    pose proof (@walk_paths_NoDup sub "" Hsub) as Hp.
    induction (walk sub "") as [|u l IHl]; simpl; [constructor|].
    inversion Hp as [|? ? Hu Hl]; subst.
    constructor; [|now apply IHl].
    intros Hin. apply in_map_iff in Hin. destruct Hin as [u' [E Hu']].
    apply blockKeyOf_same_entry in E. apply Hu. rewrite <- E.
    now apply in_map.
  - now apply IH.
  - intros K HK HK'.
    apply in_map_iff in HK. destruct HK as [cu [<- Hcu]].
    apply in_map_iff in Hcu. destruct Hcu as [u [<- _]].
    apply in_map_iff in HK'. destruct HK' as [cu' [E Hcu']].
    pose proof (@App_units_entry r cu' Hcu') as Hin'.
    unfold keys in Hin'. apply in_map_iff in Hin'.
    destruct Hin' as [[c' sub'] [Hfst He']]. simpl in Hfst.
    rewrite Forall_forall in Hallr.
    destruct (Hallr _ He') as [[_ Hs'] _]. simpl in Hs'.
    unfold static_key in E. simpl in E. rewrite <- Hfst in E.
    rewrite (@blockKeyOf_entry ns c' (path (snd cu')) c (path u) Hs'
               (proj2 Hc) E) in He'.
    apply Hout. apply in_map_iff. now exists (c, sub').
Qed.

Variable st : State.
Hypothesis ordinary : ordinary_value (Directory (fileSystem st)).
Hypothesis no_name : ~ In "name" (map name (fileSystem st)).

Lemma units_not_under_name :
  Forall (fun cu => under_name cu = false)
         (App_units (buildFs (fileSystem st))).
Proof.
  apply Forall_forall. intros cu Hcu. apply App_units_entry in Hcu.
  unfold under_name. destruct (String.eqb_spec (fst cu) "name") as [E|_];
    [|reflexivity].
  exfalso. apply no_name. rewrite E in Hcu.
  unfold keys in Hcu. apply in_map_iff in Hcu. destruct Hcu as [e [He Hin]].
  apply In_buildFs in Hin. destruct Hin as [n [Hn ->]]. simpl in He.
  apply in_map_iff. now exists n.
Qed.

Lemma static_units_NoDup :
  NoDup (map static_key (App_units (buildFs (fileSystem st)))).
Proof.
  apply static_keys_NoDup. rewrite <- flatValue_Directory.
  now apply flatValue_ordinary.
Qed.

(** X10. When the names of the nodes are, at every depth, non-empty and
    without [/], and no top-level node is called [name], the units of a
    pass have pairwise distinct block keys, each
    [<ns>/<top-level entry>/<path>]. *)
Theorem ordinary_names_give_distinct_keys :
  block_keys ns (App_units (buildFs (fileSystem st)))
  = map (fun cu => blockKeyOf ns (fst cu) (path (snd cu)))
        (App_units (buildFs (fileSystem st)))
  /\ NoDup (block_keys ns (App_units (buildFs (fileSystem st)))).
Proof.
  destruct (keys_from_static units_not_under_name) as [_ Hk].
  unfold block_keys. rewrite Hk. split; [reflexivity|].
  apply static_keys_NoDup. rewrite <- flatValue_Directory.
  now apply flatValue_ordinary.
Qed.

Hypothesis base_name : get "name" (manifest env) = Some (JStr ns).
Variable r : AppResult Module.
Hypothesis fulfilled : outcome (App env st) = inr r.

(** X11. For such a tree, a pass that fulfils keeps every unit: the source
    map holds, under the block key of the unit, its content and the joined
    path, and the manifest binds the key, under the top-level entry of the
    unit, to the module loaded from the unit. *)
Theorem ordinary_tree_keeps_every_unit c u :
  In (c, u) (App_units (buildFs (fileSystem st))) ->
  get (blockKeyOf ns c (path u)) (app_sourceMap r)
  = Some (JObj [("path", JStr (join env (currdir env) c (path u)));
                ("content", JStr (content u))])
  /\ exists tsModule,
       outcome (importFromString env (content u)) = inr tsModule
       /\ binding c (blockKeyOf ns c (path u)) (app_manifest r)
          = Some (JMod tsModule).
Proof.
  intros Hin. apply in_split in Hin. destruct Hin as [pre [post Hat]].
  destruct (@unit_registered _ _ env ns base_name st r fulfilled
              pre post (c, u) Hat)
    as [tsModule (Hload & _ & _ & H)].
  pose proof units_not_under_name as Hnn. rewrite Hat in Hnn.
  apply Forall_app in Hnn. destruct Hnn as [Hpre Hpost].
  inversion Hpost as [|? ? Hcu Hpost']; subst.
  assert (Hkey : key_of ns pre (c, u) = blockKeyOf ns c (path u)).
  { unfold key_of, namespace_after.
    now rewrite (proj1 (keys_from_static Hpre)). }
  assert (Hlater : later_keys ns pre (c, u) post = map static_key post).
  { unfold later_keys. rewrite existsb_app.
    rewrite (proj1 (keys_from_static Hpre)). simpl. rewrite Hcu. simpl.
    apply (proj2 (keys_from_static Hpost')). }
  assert (Hlast : ~ In (key_of ns pre (c, u)) (later_keys ns pre (c, u) post)).
  { rewrite Hkey, Hlater.
    pose proof static_units_NoDup as Hnd.
    rewrite Hat, map_app in Hnd. simpl in Hnd.
    apply NoDup_remove_2 in Hnd. intros Hin. apply Hnd.
    apply in_or_app. now right. }
  destruct (H Hlast) as [Hsm Hb]. rewrite Hkey in Hsm, Hb.
  split; [exact Hsm|]. now exists tsModule.
Qed.

End OrdinaryTrees.

(* ================================================================= *)
(** ** The block key of a unit *)

Section BlockKeys.
Import Async AsyncFacts JsObject JsObjectFacts.

Variable Module : Type.
Variable Err : Type.
Variable env : Imports Module Err.

(** C3, as the code has it.  In a pass that fulfils over a tree none of
    whose top-level entries is called [name], every unit, that is every
    leaf found under a top-level entry [c] with a path [p] that ends in
    [.ts] or [.tsx], is registered under the key [<ns>/<c>/<p>], where [ns]
    is the name of the base manifest: the source map has an entry under
    that key, the manifest has a binding for it under [c], and the key does
    not end in a slash. *)
Theorem block_key_of_unit ns st c u r :
  get "name" (manifest env) = Some (JStr ns) ->
  ~ In "name" (map name (fileSystem st)) ->
  In (c, u) (App_units (buildFs (fileSystem st))) ->
  outcome (App env st) = inr r ->
  let K := ns ++ "/" ++ c ++ "/" ++ path u in
  has K (app_sourceMap r) = true
  /\ binding c K (app_manifest r) <> None
  /\ endsWith K "/" = false
  /\ (endsWith (path u) ".ts" || endsWith (path u) ".tsx") = true.
Proof.
  intros Hname Hno Hin Hok K.
  pose proof (proj1 (App_units_spec _ _ _) Hin) as [sub (_ & _ & Hs)].
  apply in_split in Hin. destruct Hin as [pre [post Hat]].
  destruct (@unit_registered _ _ env ns Hname st r Hok pre post (c, u) Hat)
    as [tsModule (_ & Hsm & Hb & _)].
  pose proof (units_not_under_name st Hno) as Hnn. rewrite Hat in Hnn.
  apply Forall_app in Hnn. destruct Hnn as [Hpre _].
  assert (Hkey : key_of ns pre (c, u) = K).
  { unfold key_of, namespace_after.
    now rewrite (proj1 (keys_from_static ns Hpre)). }
  rewrite Hkey in Hsm, Hb.
  split; [exact Hsm|]. split; [exact Hb|]. split; [|exact Hs].
  now apply blockKeyOf_no_trailing_slash.
Qed.

End BlockKeys.

(* ================================================================= *)
(** ** Further properties of the walker: the path of a unit *)

Section PathOfUnit.

Lemma concat_child a n l :
  a <> "" ->
  String.concat "/" ((a ++ "/" ++ n) :: l) = a ++ "/" ++ String.concat "/" (n :: l).
Proof.
  intros _. destruct l as [|y l]; simpl; [reflexivity|].
  now rewrite !append_assoc.
Qed.

(** From a root that is not empty the walker joins the root and the names
    with [/]. *)
Lemma fold_child_root names : forall root,
  root <> "" ->
  fold_left child_root names root = String.concat "/" (root :: names).
Proof.
  induction names as [|n l IH]; intros root Hr; [reflexivity|].
  cbn [fold_left].
  assert (Hchild : child_root root n = root ++ "/" ++ n).
  { unfold child_root. destruct (String.eqb_spec root "") as [E|_];
      [contradiction|]. apply append_assoc. }
  rewrite IH.
  - rewrite Hchild. rewrite concat_child by exact Hr.
    destruct l; reflexivity.
  - rewrite Hchild. intros E. apply append_empty in E. now destruct E.
Qed.

(** From the empty root, empty names in front add nothing. *)
Lemma fold_child_root_empty names :
  fold_left child_root names "" = String.concat "/" (drop_leading_empty names).
Proof.
  induction names as [|n l IH]; [reflexivity|].
  cbn [fold_left drop_leading_empty]. unfold child_root at 2. simpl.
  destruct (String.eqb_spec n "") as [->|Hn]; [exact IH|].
  now apply fold_child_root.
Qed.

Lemma Leaf_Reach fs : forall root p c,
  Leaf fs root p c
  <-> exists names, Reach fs names c /\ p = fold_left child_root names root.
Proof.
  induction fs as [c0|o IH] using FileSystem_nested_ind; intros root p c.
  - split.
    + intros H. inversion H; subst. exists []. split; [constructor | reflexivity].
    + intros [names [HR ->]]. inversion HR; subst. constructor.
  - rewrite Forall_forall in IH. split.
    + intros H. inversion H as [|? ? nm sub ? ? Hin Hsub]; subst.
      apply (IH _ Hin) in Hsub. destruct Hsub as [names [HR ->]].
      exists (nm :: names). split; [|reflexivity].
      now apply Reach_dir with (sub := sub).
    + intros [names [HR ->]].
      inversion HR as [|? nm sub names' ? Hin Hsub]; subst.
      apply Leaf_dir with (nm := nm) (sub := sub); [exact Hin|].
      apply (IH _ Hin). now exists names'.
Qed.

(** X12. Walking a flattened tree from the empty root yields exactly the
    leaves whose path ends in [.ts] or [.tsx], each with its content and
    with the path made of the names on the way to it joined by [/]; empty
    names in front of the first non-empty one leave no trace in the
    path. *)
Theorem unit_path_is_the_joined_names fs u :
  In u (walk fs "")
  <-> exists names,
        Reach fs names (content u)
        /\ path u = String.concat "/" (drop_leading_empty names)
        /\ (endsWith (path u) ".ts" || endsWith (path u) ".tsx") = true.
Proof.
  rewrite walk_spec, Leaf_Reach. unfold is_source. split.
  - intros [[names [HR Hp]] Hs]. exists names.
    rewrite fold_child_root_empty in Hp. auto.
  - intros [names [HR [Hp Hs]]]. split; [|exact Hs].
    exists names. split; [exact HR|]. now rewrite fold_child_root_empty.
Qed.

End PathOfUnit.

(* ================================================================= *)
(** ** Spread and rest *)

Section SpreadRest.
Import JsObject JsObjectFacts.

Variable V : Type.
Implicit Types (o target source : JsObject.t V).

Lemma get_absent k o : ~ In k (keys o) -> get k o = None.
Proof.
  intros H. destruct (get k o) eqn:E; [|reflexivity].
  exfalso. apply H. apply has_In. unfold has. now rewrite E.
Qed.

(** In [{...target, ...source}] a property of [source] wins. *)
Lemma get_assign k source : forall target,
  NoDup (keys source) ->
  get k (assign target source)
  = match get k source with Some v => Some v | None => get k target end.
Proof.
  unfold assign.
  induction source as [|[k1 v1] r IH]; intros target Hnd; [reflexivity|].
  unfold keys in Hnd. simpl in Hnd. inversion Hnd as [|? ? Hout Hr]; subst.
  simpl. rewrite IH by exact Hr.
  destruct (String.eqb_spec k1 k) as [->|Hne].
  - rewrite (get_absent k r Hout). apply get_set_same.
  - destruct (get k r); [reflexivity|].
    apply get_set_other. now apply not_eq_sym.
Qed.

Lemma NoDup_assign source : forall target,
  NoDup (keys target) -> NoDup (keys (assign target source)).
Proof.
  unfold assign. induction source as [|[k1 v1] r IH]; intros target H;
    [exact H|].
  simpl. apply IH. now apply NoDup_set.
Qed.

(** [rest] has every property but the one taken out. *)
Lemma get_rest_without k k' o :
  get k (rest_without k' o) = if k =? k' then None else get k o.
Proof.
  unfold rest_without. induction o as [|[k1 v1] r IH]; simpl.
  - now destruct (k =? k').
  - destruct (String.eqb_spec k1 k') as [->|Hne]; simpl.
    + rewrite IH. destruct (String.eqb_spec k k') as [->|Hk];
        [reflexivity|].
      destruct (String.eqb_spec k' k) as [E|_]; [congruence | reflexivity].
    + destruct (String.eqb_spec k1 k) as [->|Hk1].
      * destruct (String.eqb_spec k k') as [E|_]; [congruence | reflexivity].
      * exact IH.
Qed.

Lemma NoDup_rest_without k o :
  NoDup (keys o) -> NoDup (keys (rest_without k o)).
Proof.
  unfold rest_without, keys. induction o as [|[k1 v1] r IH]; simpl;
    intros H; [constructor|].
  inversion H as [|? ? Hout Hr]; subst.
  destruct (negb (k1 =? k)); simpl; [|now apply IH].
  constructor; [|now apply IH].
  intros Hin. apply Hout. apply in_map_iff in Hin.
  destruct Hin as [e [He Hin]]. apply filter_In in Hin.
  apply in_map_iff. exists e. tauto.
Qed.

End SpreadRest.

(* ================================================================= *)
(** ** The assistants of the hub, by name *)

Section AssistantsByName.
Import JsObject JsObjectFacts Assistants.

Variable AIAssistant : Type.
Variable Err : Type.

Lemma find_snoc A (p : A -> bool) (l : list A) (a : A) :
  find p (l ++ [a])
  = match find p l with Some x => Some x | None => if p a then Some a else None end.
Proof.
  induction l as [|x r IH]; simpl; [reflexivity|].
  destruct (p x); [reflexivity | exact IH].
Qed.

Lemma reducer_rejected (l : list (Element AIAssistant Err)) e :
  fold_left (@reducer AIAssistant Err) l (inl e) = inl e.
Proof. induction l as [|x r IH]; simpl; auto. Qed.

(** A reduction that returns an object went through an object and a
    deferred at every element. *)
Lemma reduce_snoc_inv (l : list (Element AIAssistant Err)) x o :
  fold_left (@reducer AIAssistant Err) (l ++ [x]) (inr []) = inr o ->
  exists o' d,
    fold_left (@reducer AIAssistant Err) l (inr []) = inr o'
    /\ assistantDeferred x = inr d
    /\ o = assign [(name x, d)] o'.
Proof.
  rewrite fold_left_app. simpl.
  destruct (fold_left (@reducer AIAssistant Err) l (inr [])) as [e|o'];
    simpl; [discriminate|].
  destruct (assistantDeferred x) as [e|d]; [discriminate|].
  intros H. inversion H. now exists o', d.
Qed.

(** X13. When the hub is built, it keeps one deferred per assistant name,
    and on a repeated name it is the one of the first assistant listed with
    that name, falsy elements apart; a name no assistant has is not a
    key. *)
Theorem first_assistant_of_a_name_wins
    (stateAssistants : list (option (Element AIAssistant Err))) o nm :
  assistants (Some stateAssistants) = inr o ->
  NoDup (keys o)
  /\ match find (fun e => name e =? nm) (truthy stateAssistants) with
     | Some e => assistantDeferred e = inr (match get nm o with
                                           | Some d => d
                                           | None => Pending
                                           end)
                 /\ has nm o = true
     | None => get nm o = None
     end.
Proof.
  unfold assistants. revert o.
  induction (truthy stateAssistants) as [|x l IH] using rev_ind; intros o H.
  - simpl in H. inversion H. split; [constructor | reflexivity].
  - apply reduce_snoc_inv in H. destruct H as [o' [d [Ho' [Hd ->]]]].
    destruct (IH o' Ho') as [Hnd Hfind].
    assert (Hone : NoDup (keys [(name x, d)]))
      by (simpl; constructor; [intros [] | constructor]).
    split; [now apply NoDup_assign|].
    rewrite find_snoc. unfold has in *.
    rewrite get_assign by exact Hnd.
    destruct (find (fun e => name e =? nm) l) as [e|].
    + destruct Hfind as [He Hhas].
      destruct (get nm o') as [d'|]; [|discriminate]. now split.
    + rewrite Hfind. cbn [get].
      destruct (String.eqb_spec (name x) nm) as [E|E]; [|reflexivity].
      now split.
Qed.

(** The reduction throws what the first call that throws does. *)
Lemma reduce_throws (l : list (Element AIAssistant Err)) err :
  fold_left (@reducer AIAssistant Err) l (inr []) = inl err
  <-> exists e,
        find (fun e => match assistantDeferred e with
                       | inl _ => true | inr _ => false end) l = Some e
        /\ assistantDeferred e = inl err.
Proof.
  generalize (@nil (string * DeferredState AIAssistant Err)).
  induction l as [|x l IH]; intros acc.
  - simpl. split; [discriminate|]. intros [e [H _]]. discriminate.
  - cbn [fold_left find]. unfold reducer at 2.
    destruct (assistantDeferred x) as [e0|d] eqn:E.
    + rewrite reducer_rejected. split.
      * intros H. inversion H; subst. exists x. now split.
      * intros [e [H He]]. inversion H; subst. congruence.
    + apply IH.
Qed.

Lemma reduce_returns (l : list (Element AIAssistant Err)) :
  find (fun e => match assistantDeferred e with
                 | inl _ => true | inr _ => false end) l = None
  -> exists o, fold_left (@reducer AIAssistant Err) l (inr []) = inr o.
Proof.
  intros H.
  destruct (fold_left (@reducer AIAssistant Err) l (inr [])) as [err|o] eqn:E;
    [|now exists o].
  apply reduce_throws in E. destruct E as [e [He _]]. congruence.
Qed.

Lemma get_map_values (A B : Type) (f : A -> B) k (o : JsObject.t A) :
  get k (map (fun p => (fst p, f (snd p))) o) = option_map f (get k o).
Proof.
  induction o as [|[k1 v] r IH]; simpl; [reflexivity|].
  destruct (k1 =? k); [reflexivity | exact IH].
Qed.

Variable OpenAIProps : Type.
Variable OpenAIApp : Type.
Variable OpenAIValue : Type.
Variable AssistantsAPI : Type.
Variable Promise : Type.
Variable Manifest : Type.
Variable env : Imports AIAssistant Err OpenAIProps OpenAIApp OpenAIValue
                 AssistantsAPI Promise Manifest.

(** X22. Building the hub throws exactly when one of these throws, and
    then what the first of them throws: [openai(state)], the read of the
    assistants API of the OpenAI app, the call of a deferred assistant (of
    these, the first that throws, in the order of [state.assistants]), and
    [retrieve].  A hub that is returned depends on the OpenAI app, and its
    state has the properties of the state of that app, except that
    [assistants], [instructions] and [assistant] are the hub's own:
    the assistants by name, the instructions given or the empty string, and
    the promise of [retrieve]. *)
Theorem hub_throws_with_the_first_throw
    (props : Props AIAssistant Err OpenAIProps) :
  let listed :=
    truthy (match props_assistants props with Some l => l | None => [] end) in
  let thrower :=
    find (fun e => match assistantDeferred e with
                   | inl _ => true | inr _ => false end) listed in
  (forall err,
     App env props = inl err
     <-> openai env props = inl err
         \/ exists openAIApp,
              openai env props = inr openAIApp
              /\ (assistantsOf env openAIApp = inl err
                  \/ exists assistantsAPI,
                       assistantsOf env openAIApp = inr assistantsAPI
                       /\ ((exists e, thrower = Some e
                                      /\ assistantDeferred e = inl err)
                           \/ (thrower = None
                               /\ retrieve env assistantsAPI
                                    (assistantId props) = inl err))))
  /\ (forall hub,
        App env props = inr hub ->
        exists openAIApp assistantsAPI byName assistant,
          openai env props = inr openAIApp
          /\ assistantsOf env openAIApp = inr assistantsAPI
          /\ assistants (props_assistants props) = inr byName
          /\ retrieve env assistantsAPI (assistantId props) = inr assistant
          /\ manifest hub = hub_manifest env
          /\ dependencies hub = [openAIApp]
          /\ get "assistants" (state hub) = Some (Assistants _ _ byName)
          /\ get "instructions" (state hub)
             = Some (Instructions _ _ _ _
                       (match instructions props with
                        | Some s => s | None => "" end))
          /\ get "assistant" (state hub) = Some (Assistant _ _ _ assistant)
          /\ (forall k,
                k <> "assistants" -> k <> "instructions" ->
                k <> "assistant" ->
                get k (state hub)
                = option_map (fun v => FromOpenAI _ _ _ v)
                    (get k (stateOf env openAIApp)))).
Proof.
  intros listed thrower. unfold App.
  assert (Hred : assistants (props_assistants props)
                 = fold_left (@reducer AIAssistant Err) listed (inr []))
    by reflexivity.
  rewrite Hred.
  destruct (openai env props) as [e1|openAIApp] eqn:Eo; cbv beta iota.
  { split.
    - intros err. split.
      + intros H. left. congruence.
      + intros [H|[a [H _]]]; [congruence | discriminate].
    - intros hub H. discriminate. }
  destruct (assistantsOf env openAIApp) as [e2|assistantsAPI] eqn:Ea;
    cbv beta iota.
  { split.
    - intros err. split.
      + intros H. right. exists openAIApp. split; [first [reflexivity | exact Eo]|]. left.
        congruence.
      + intros [H|[a [Ha [H|[api [H _]]]]]]; try discriminate;
          inversion Ha; subst a; congruence.
    - intros hub H. discriminate. }
  destruct (fold_left (@reducer AIAssistant Err) listed (inr []))
    as [e3|byName] eqn:E; cbv beta iota zeta.
  { pose proof (proj1 (reduce_throws listed e3) E) as [x [Hx Hxe]].
    split.
    - intros err. split.
      + intros H. right. exists openAIApp. split; [first [reflexivity | exact Eo]|]. right.
        exists assistantsAPI. split; [first [reflexivity | exact Ea]|]. left. exists x.
        split; [exact Hx | congruence].
      + intros [H|[a [Ha [H|[api [Hapi [[y [Hy Hye]]|[Hnone _]]]]]]]];
          try discriminate.
        * inversion Ha; subst a. congruence.
        * unfold thrower in Hy. rewrite Hx in Hy. inversion Hy; subst.
          congruence.
        * unfold thrower in Hnone. congruence.
    - intros hub H. discriminate. }
  assert (Hnone : thrower = None).
  { unfold thrower.
    destruct (find _ listed) as [x|] eqn:Hx; [|reflexivity].
    destruct (assistantDeferred x) as [ex|d] eqn:Ex.
    - assert (Hthrows : fold_left (@reducer AIAssistant Err) listed (inr [])
                        = inl ex)
        by (apply reduce_throws; now exists x).
      congruence.
    - apply find_some in Hx. destruct Hx as [_ Hx]. rewrite Ex in Hx.
      discriminate. }
  destruct (retrieve env assistantsAPI (assistantId props))
    as [e4|assistant] eqn:Er; cbv beta iota.
  { split.
    - intros err. split.
      + intros H. right. exists openAIApp. split; [first [reflexivity | exact Eo]|]. right.
        exists assistantsAPI. split; [first [reflexivity | exact Ea]|]. right.
        split; [exact Hnone | congruence].
      + intros [H|[a [Ha [H|[api [Hapi [[y [Hy _]]|[_ H]]]]]]]];
          try discriminate.
        * inversion Ha; subst a. congruence.
        * congruence.
        * inversion Ha; subst a. rewrite Ea in Hapi.
          inversion Hapi; subst api. congruence.
    - intros hub H. discriminate. }
  split.
  - intros err. split; [discriminate|].
    intros [H|[a [Ha [H|[api [Hapi [[y [Hy _]]|[_ H]]]]]]]];
      try discriminate.
    + inversion Ha; subst a. congruence.
    + congruence.
    + inversion Ha; subst a. rewrite Ea in Hapi.
      inversion Hapi; subst api. congruence.
  - intros hub H. inversion H; subst hub; clear H. cbn [manifest state dependencies].
    exists openAIApp, assistantsAPI, byName, assistant.
    repeat match goal with |- _ /\ _ => split end;
      try reflexivity; try assumption.
    + rewrite get_set_other by discriminate.
      rewrite get_set_other by discriminate. apply get_set_same.
    + rewrite get_set_other by discriminate. apply get_set_same.
    + apply get_set_same.
    + intros k H1 H2 H3.
      rewrite !get_set_other by congruence. apply get_map_values.
Qed.

End AssistantsByName.

(* ================================================================= *)
(** ** The list of pages *)

Section ListOfPages.
Import JsObject JsObjectFacts Pages.

Variable Other : Type.
Implicit Types (block : Block Other).

Lemma prop_module id block :
  prop "module" (toMetadata (id, block)) = prop "__resolveType" block.
Proof. unfold toMetadata, prop at 1. simpl. now rewrite get_set_same. Qed.

Lemma isPage_toMetadata (entry : string * Block Other) :
  isPage (toMetadata entry) = isPageBlock (snd entry).
Proof.
  destruct entry as [id block]. unfold isPage, isPageBlock.
  now rewrite prop_module.
Qed.

Lemma filter_map_commute A B (f : A -> B) (p : B -> bool) (l : list A) :
  filter p (map f l) = map f (filter (fun a => p (f a)) l).
Proof.
  induction l as [|a r IH]; simpl; [reflexivity|].
  destruct (p (f a)); simpl; now rewrite IH.
Qed.

(** X14. [ListPages] lists the stored blocks that resolve to
    [website/pages/Page.tsx], each turned into its metadata, in the order
    of the entries of the state, and no other block; every item has that
    module, the page is the first and its size and the total are the
    number of items.  Without a state the list is empty. *)
Theorem ListPages_lists_the_page_blocks (st : JsObject.t (Block Other)) :
  data (ListPages (Some st))
  = map (@toMetadata Other)
        (filter (fun entry => isPageBlock (snd entry)) (entries st))
  /\ Forall (fun item => prop "module" item = Str PAGE_RESOLVE_TYPE)
            (data (ListPages (Some st)))
  /\ page (ListPages (Some st)) = 0
  /\ pageSize (ListPages (Some st)) = List.length (data (ListPages (Some st)))
  /\ total (ListPages (Some st)) = List.length (data (ListPages (Some st)))
  /\ ListPages (@None (JsObject.t (Block Other)))
     = {| data := []; page := 0; pageSize := 0; total := 0 |}.
Proof.
  split; [|split; [|repeat split]].
  - simpl. rewrite filter_map_commute. f_equal.
    apply filter_ext. intros e. apply isPage_toMetadata.
  - simpl. apply Forall_forall. intros item Hin.
    apply filter_In in Hin. destruct Hin as [_ Hp].
    unfold isPage in Hp. destruct (prop "module" item) as [|s|x];
      try discriminate.
    apply String.eqb_eq in Hp. now subst s.
Qed.

(** X15. The metadata of a stored block: its [module] is the
    [__resolveType] of the block, whatever [module] the block had, and it
    has no [__resolveType]; its [id] is the [id] stored in the block when
    there is one, and the key of the block otherwise; every other field is
    the one of the block. *)
Theorem metadata_of_a_block id block :
  NoDup (keys block) ->
  prop "module" (toMetadata (id, block)) = prop "__resolveType" block
  /\ has "__resolveType" (toMetadata (id, block)) = false
  /\ get "id" (toMetadata (id, block))
     = Some (match get "id" block with Some v => v | None => Str id end)
  /\ forall k, k <> "id" -> k <> "module" -> k <> "__resolveType" ->
       get k (toMetadata (id, block)) = get k block.
Proof.
  intros Hnd.
  pose proof (NoDup_rest_without "__resolveType" block Hnd) as Hrest.
  split; [apply prop_module|]. unfold toMetadata. simpl.
  split; [|split].
  - rewrite has_set_other by discriminate. unfold has.
    rewrite get_assign by exact Hrest. rewrite get_rest_without. reflexivity.
  - rewrite get_set_other by discriminate.
    rewrite get_assign by exact Hrest. rewrite get_rest_without. simpl.
    now destruct (get "id" block).
  - intros k Hid Hmod Hres. rewrite get_set_other by exact Hmod.
    rewrite get_assign by exact Hrest. rewrite get_rest_without.
    apply String.eqb_neq in Hres. rewrite Hres.
    destruct (get k block); [reflexivity|]. cbn [get].
    destruct (String.eqb_spec "id" k) as [E|_]; [congruence | reflexivity].
Qed.

End ListOfPages.

(* ================================================================= *)
(** ** The forwarded cookies *)

Section ForwardedCookies.
Import CartCookies.

Lemma has_comma_app a b : has_comma (a ++ b) = has_comma a || has_comma b.
Proof.
  induction a as [|c r IH]; simpl; [reflexivity|].
  rewrite IH. now rewrite orb_assoc.
Qed.

(** The pieces of [split(",")] have no comma. *)
Lemma split_from_no_comma s : forall cur,
  has_comma cur = false ->
  Forall (fun p => has_comma p = false) (split_from "," cur s).
Proof.
  induction s as [|c r IH]; intros cur Hcur; simpl.
  - now constructor.
  - destruct (Ascii.eqb_spec c ",") as [->|Hne].
    + constructor; [exact Hcur | now apply IH].
    + apply IH. rewrite has_comma_app, Hcur. simpl.
      apply Ascii.eqb_neq in Hne. now rewrite Hne.
Qed.

Lemma trimStart_no_comma s :
  has_comma s = false -> has_comma (trimStart s) = false.
Proof.
  induction s as [|c r IH]; simpl; [auto|]. intros H.
  destruct (is_space c); [|exact H].
  apply IH. apply orb_false_elim in H. tauto.
Qed.

Lemma trimEnd_no_comma s :
  has_comma s = false -> has_comma (trimEnd s) = false.
Proof.
  induction s as [|c r IH]; simpl; [auto|]. intros H.
  apply orb_false_elim in H. destruct H as [Hc Hr].
  specialize (IH Hr). destruct (trimEnd r) as [|c' r'].
  - destruct (is_space c); simpl; [reflexivity|]. now rewrite Hc.
  - simpl in *. now rewrite Hc, IH.
Qed.

(** The cookies the action selects are the trimmed pieces between the
    commas of the [set-cookie] value that begin with one of its two cookie
    names; none has a comma in it. *)
Lemma cookiesToSet_selects (setCookie : option string) :
  cookiesToSet setCookie
  = filter (fun c => prefix "store_session_payload_2734114" c
                     || prefix "store_login_session" c)
      (map trim (match setCookie with Some h => split_comma h | None => [] end))
  /\ Forall (fun c => has_comma c = false
                      /\ (prefix "store_session_payload_2734114" c
                          || prefix "store_login_session" c) = true)
            (cookiesToSet setCookie).
Proof.
  assert (E : cookiesToSet setCookie
              = filter (fun c => prefix "store_session_payload_2734114" c
                                 || prefix "store_login_session" c)
                  (map trim (match setCookie with
                             | Some h => split_comma h | None => [] end))).
  { unfold cookiesToSet.
    induction (match setCookie with Some h => split_comma h | None => [] end)
      as [|p r IH]; [reflexivity|].
    cbn [flat_map map filter]. rewrite IH.
    unfold desiredCookies. cbn [existsb]. rewrite orb_false_r.
    now destruct (prefix "store_session_payload_2734114" (trim p)
                  || prefix "store_login_session" (trim p)). }
  split; [exact E|].
  rewrite E. apply Forall_forall. intros c Hc.
  apply filter_In in Hc. destruct Hc as [Hin Hp]. split; [|exact Hp].
  apply in_map_iff in Hin. destruct Hin as [p [<- Hin]].
  unfold trim. apply trimStart_no_comma, trimEnd_no_comma.
  destruct setCookie as [h|]; [|destruct Hin].
  pose proof (split_from_no_comma h "" eq_refl) as Hall.
  rewrite Forall_forall in Hall. now apply Hall.
Qed.

End ForwardedCookies.

Section AddToCart.
Import CartCookies AddItems.

Variable Number : Type.
Variable Cart : Type.
Variable Id : Type.
Variable Headers : Type.
Variable Err : Type.
Variable P : Platform Number Cart Id Headers Err.

(** When no [append] throws, the loop makes one for each cookie, in
    order. *)
Lemma appendAll_all (cookies : list string) :
  (forall c, In c cookies -> appendToResponse P "Set-Cookie" c = inr tt) ->
  appendAll P cookies
  = (map (fun c => Append Id Headers "Set-Cookie" c) cookies, inr tt).
Proof.
  induction cookies as [|c r IH]; intros H; [reflexivity|].
  cbn [appendAll map]. unfold bind, perform. cbn [fst snd].
  rewrite (H c (or_introl eq_refl)). rewrite IH; [reflexivity|].
  intros c' Hc'. apply H. now right.
Qed.

(** X16. Once the request upstream is answered, the add-to-cart action
    reads the body of the answer.  When that read rejects, or when
    [setCartCookie] throws, the action rejects with the same reason and
    appends nothing to its response, whatever [set-cookie] the answer has.
    Otherwise it appends as [Set-Cookie], in order, the trimmed pieces
    between the commas of the [set-cookie] value that begin with one of its
    two cookie names (nothing when the header is missing), and then returns
    [result.cart], or throws a [TypeError] when the body is [null].  An
    appended string has no comma in it: an attribute with a comma, as a
    date, is cut at the comma. *)
Theorem forwarded_cookies props req ctx myHeaders response :
  requestHeaders P req ctx = inr myHeaders ->
  fetch P (publicUrl ctx ++ "/comprar/") (requestOptions P props myHeaders)
  = inr response ->
  let upstream :=
    Fetch Id (publicUrl ctx ++ "/comprar/") (requestOptions P props myHeaders) in
  let cookies := cookiesToSet (set_cookie response) in
  cookies
  = filter (fun c => prefix "store_session_payload_2734114" c
                     || prefix "store_login_session" c)
      (map trim (match set_cookie response with
                 | Some h => split_comma h | None => [] end))
  /\ Forall (fun c => has_comma c = false
                      /\ (prefix "store_session_payload_2734114" c
                          || prefix "store_login_session" c) = true)
            cookies
  /\ match json response with
     | inl e =>
         action P props req ctx = ([upstream; Json Id Headers], inl e)
     | inr result =>
         match setCartCookie P (cartId P result) with
         | inl e =>
             action P props req ctx
             = ([upstream; Json Id Headers;
                 SetCartCookie Headers (cartId P result)], inl e)
         | inr _ =>
             (forall c, In c cookies ->
                        appendToResponse P "Set-Cookie" c = inr tt) ->
             action P props req ctx
             = (([upstream; Json Id Headers;
                  SetCartCookie Headers (cartId P result)]
                 ++ map (fun c => Append Id Headers "Set-Cookie" c) cookies)%list,
                match result with
                | Null _ => inl (TypeError P)
                | Value cart => inr cart
                end)
         end
     end.
Proof.
  intros Hh Hf upstream cookies.
  destruct (cookiesToSet_selects (set_cookie response)) as [E Hall].
  split; [exact E|]. split; [exact Hall|].
  unfold action, bind, throws, perform, ret. cbn [fst snd].
  rewrite Hh. cbn [fst snd]. rewrite Hf. cbn [fst snd app].
  destruct (json response) as [e|result] eqn:Ej; cbn [fst snd app];
    [reflexivity|].
  destruct (setCartCookie P (cartId P result)) as [e|[]] eqn:Es;
    cbn [fst snd app]; [reflexivity|].
  intros Hok. fold cookies. rewrite (appendAll_all _ Hok). cbn [fst snd].
  destruct result as [|cart]; cbn [fst snd]; now rewrite app_nil_r.
Qed.

End AddToCart.

(* ================================================================= *)
(** ** The VTEX segment *)

Section UnorderedObjects.
Import JsObject JsObjectFacts.

Lemma get_In (V : Type) k (v : V) (o : JsObject.t V) :
  NoDup (keys o) -> (get k o = Some v <-> In (k, v) o).
Proof.
  unfold keys. induction o as [|[k1 v1] r IH]; simpl; intros Hnd.
  - split; [discriminate | tauto].
  - inversion Hnd as [|? ? Hout Hr]; subst.
    destruct (String.eqb_spec k1 k) as [->|Hne].
    + split.
      * intros H. inversion H. now left.
      * intros [H|H]; [now inversion H|].
        exfalso. apply Hout. apply in_map_iff. now exists (k, v).
    + rewrite (IH Hr). split; [tauto|].
      intros [H|H]; [inversion H; congruence | exact H].
Qed.

(** Reading a property does not depend on the order of the properties. *)
Lemma get_Permutation (V : Type) k (o o' : JsObject.t V) :
  NoDup (keys o) -> Permutation o o' -> get k o = get k o'.
Proof.
  intros Hnd Hp.
  assert (Hnd' : NoDup (keys o')).
  { unfold keys. apply (Permutation_NoDup (l := map fst o)); [|exact Hnd].
    now apply Permutation_map. }
  destruct (get k o) as [v|] eqn:E.
  - apply (@get_In _ k v o Hnd) in E. symmetry.
    apply (@get_In _ k v o' Hnd'). now apply (Permutation_in _ Hp).
  - destruct (get k o') as [v'|] eqn:E'; [|reflexivity].
    apply (@get_In _ k v' o' Hnd') in E'.
    apply (Permutation_in _ (Permutation_sym Hp)) in E'.
    apply (@get_In _ k v' o Hnd) in E'. congruence.
Qed.

Lemma fold_set_get (V : Type) (f : string -> option V) k ks :
  forall acc : JsObject.t V,
  get k (fold_left
           (fun acc qs => match f qs with
                          | Some v => set qs v acc
                          | None => acc
                          end) ks acc)
  = if existsb (String.eqb k) ks
    then match f k with
         | Some v => Some v
         | None => get k acc
         end
    else get k acc.
Proof.
  induction ks as [|q r IH]; intros acc; simpl; [reflexivity|].
  rewrite IH. destruct (String.eqb_spec k q) as [->|Hne]; simpl.
  - destruct (f q) as [v|] eqn:E.
    + rewrite get_set_same. now destruct (existsb (String.eqb q) r).
    + now destruct (existsb (String.eqb q) r).
  - destruct (f q) as [v|]; [rewrite get_set_other by exact Hne|];
      reflexivity.
Qed.

Lemma fold_left_same (A B : Type) (f g : A -> B -> A) (l : list B) :
  (forall a b, f a b = g a b) ->
  forall a, fold_left f l a = fold_left g l a.
Proof.
  intros H. induction l as [|b r IH]; intros a; simpl; [reflexivity|].
  now rewrite H, IH.
Qed.

End UnorderedObjects.

Section SegmentLaws.
Import JsObject JsObjectFacts Segment.

Variable Json : Type.
Variable Err : Type.
Variable truthyJson : Json -> bool.
Variable removeNonLatin1Chars : Val Json -> Err + Val Json.
Variable stringify : Partial Json -> string.
Variable btoa : string -> Err + string.
Variable parse : string -> Err + Partial Json.

Implicit Types (o d : Partial Json).



(** X17. The serialization is stable: two segments with the same
    properties in a different order have the same token. *)
Theorem serialize_is_stable o o' :
  NoDup (keys o) -> Permutation o o' ->
  serialize truthyJson removeNonLatin1Chars stringify btoa o
  = serialize truthyJson removeNonLatin1Chars stringify btoa o'.
Proof.
  intros Hnd Hp. unfold serialize, prop.
  rewrite !(fun k => @get_Permutation _ k o o' Hnd Hp). reflexivity.
Qed.

(** X18. The sales channel of the context has no part in the segment: the
    [channel] of [DEFAULT_SEGMENT] is written over it, so what goes in the
    bag and the cookie that is set are the same whatever [ctx.salesChannel]
    is. *)
Theorem salesChannel_is_ignored cookie searchParams s s' defaultSegment :
  setSegmentBag truthyJson removeNonLatin1Chars stringify btoa parse
    cookie searchParams s defaultSegment
  = setSegmentBag truthyJson removeNonLatin1Chars stringify btoa parse
      cookie searchParams s' defaultSegment.
Proof.
  unfold setSegmentBag, merged.
  assert (E : forall x : Val Json,
            assign [("channel", x)] (DEFAULT_SEGMENT Json)
            = [("channel", Str "1"); ("utmi_campaign", Null);
               ("utm_campaign", Null); ("utm_source", Null);
               ("cultureInfo", Str "pt-BR"); ("currencyCode", Str "BRL");
               ("currencySymbol", Str "R$"); ("countryCode", Str "BRA")])
    by reflexivity.
  now rewrite !E.
Qed.



(** X19. The segment of a request has the three campaign parameters of the
    query that have a non-empty value, each with the first value the query
    gives it, and nothing else. *)
Theorem buildSegmentCookie_reads_the_query searchParams k :
  get k (@buildSegmentCookie Json searchParams)
  = if existsb (String.eqb k) SEGMENT_QUERY_PARAMS
    then match get k searchParams with
         | Some param => if param =? "" then None else Some (Str param)
         | None => None
         end
    else None.
Proof.
  unfold buildSegmentCookie.
  rewrite (@fold_left_same _ _ _
             (fun partialSegment qs =>
                match (match get qs searchParams with
                       | Some param =>
                           if param =? "" then None else Some (Str param)
                       | None => None
                       end) with
                | Some v => set qs v partialSegment
                | None => partialSegment
                end)).
  - rewrite fold_set_get. simpl get.
    destruct (existsb (String.eqb k) SEGMENT_QUERY_PARAMS); [|reflexivity].
    destruct (get k searchParams) as [param|]; [|reflexivity].
    now destruct (param =? "").
  - intros acc qs. destruct (get qs searchParams) as [param|]; [|reflexivity].
    now destruct (param =? "").
Qed.

Lemma buildSegmentCookie_NoDup searchParams :
  NoDup (keys (@buildSegmentCookie Json searchParams)).
Proof.
  unfold buildSegmentCookie.
  assert (H : forall (qs : list string) (acc : Partial Json),
            NoDup (keys acc) ->
            NoDup (keys (fold_left
                           (fun partialSegment q =>
                              match get q searchParams with
                              | Some param =>
                                  if negb (param =? "")
                                  then set q (Str param) partialSegment
                                  else partialSegment
                              | None => partialSegment
                              end) qs acc))).
  { induction qs as [|q r IH]; intros acc Hacc; [exact Hacc|].
    simpl. apply IH.
    destruct (get q searchParams) as [param|]; [|exact Hacc].
    destruct (negb (param =? "")); [now apply NoDup_set | exact Hacc]. }
  apply H. constructor.
Qed.

(** A property of the merged segment comes from the last of the four
    spread objects that has it. *)
Lemma get_merged s defaultSegment fromCookie fromRequest k :
  NoDup (keys (match defaultSegment with Some d => d | None => [] end)) ->
  NoDup (keys fromCookie) ->
  NoDup (keys fromRequest) ->
  get k (merged s defaultSegment fromCookie fromRequest)
  = match get k fromRequest with
    | Some v => Some v
    | None =>
        match get k fromCookie with
        | Some v => Some v
        | None =>
            match get k (match defaultSegment with
                         | Some d => d | None => [] end) with
            | Some v => Some v
            | None => get k (DEFAULT_SEGMENT Json)
            end
        end
    end.
Proof.
  intros Hd Hc Hr. unfold merged.
  assert (E : assign [("channel", s)] (DEFAULT_SEGMENT Json)
              = [("channel", Str "1"); ("utmi_campaign", Null);
                 ("utm_campaign", Null); ("utm_source", Null);
                 ("cultureInfo", Str "pt-BR"); ("currencyCode", Str "BRL");
                 ("currencySymbol", Str "R$"); ("countryCode", Str "BRA")])
    by reflexivity.
  rewrite get_assign by exact Hr.
  destruct (get k fromRequest); [reflexivity|].
  rewrite get_assign by exact Hc.
  destruct (get k fromCookie); [reflexivity|].
  rewrite get_assign by exact Hd.
  destruct defaultSegment as [d|]; cbv beta iota;
    [destruct (get k d); [reflexivity|] | cbn [get]].
  all: rewrite E; unfold DEFAULT_SEGMENT; cbn [get];
    repeat match goal with
           | |- context [?a =? ?b] => destruct (String.eqb_spec a b); subst
           end; try reflexivity; try congruence.
Qed.

(** The segment of a request has no [channel]. *)
Lemma buildSegmentCookie_no_channel searchParams :
  get "channel" (@buildSegmentCookie Json searchParams) = None.
Proof.
  unfold buildSegmentCookie.
  rewrite (@fold_left_same _ _ _
             (fun partialSegment qs =>
                match (match get qs searchParams with
                       | Some param =>
                           if param =? "" then None else Some (Str param)
                       | None => None
                       end) with
                | Some v => set qs v partialSegment
                | None => partialSegment
                end)).
  - rewrite fold_set_get. reflexivity.
  - intros acc qs. destruct (get qs searchParams) as [param|]; [|reflexivity].
    now destruct (param =? "").
Qed.

(** What [setSegmentBag] puts in the bag is the merged segment. *)
Lemma setSegmentBag_payload cookie searchParams s defaultSegment
    fromCookie w c :
  segmentFromCookie parse cookie = inr fromCookie ->
  setSegmentBag truthyJson removeNonLatin1Chars stringify btoa parse
    cookie searchParams s defaultSegment = inr (w, c) ->
  payload w
  = merged s defaultSegment fromCookie (buildSegmentCookie searchParams).
Proof.
  intros Hcookie H. unfold setSegmentBag in H. rewrite Hcookie in H.
  destruct (serialize _ _ _ _ _) as [e|token]; [discriminate|].
  inversion H; subst; clear H. reflexivity.
Qed.

(** X20. In the segment put in the bag a property comes from the query of
    the request if the query sets it, else from the cookie, else from the
    default segment of the context, else from [DEFAULT_SEGMENT]. *)
Theorem segment_precedence cookie searchParams s defaultSegment
    fromCookie w c k :
  NoDup (keys (match defaultSegment with Some d => d | None => [] end)) ->
  NoDup (keys fromCookie) ->
  segmentFromCookie parse cookie = inr fromCookie ->
  setSegmentBag truthyJson removeNonLatin1Chars stringify btoa parse
    cookie searchParams s defaultSegment = inr (w, c) ->
  get k (payload w)
  = match get k (buildSegmentCookie searchParams) with
    | Some v => Some v
    | None =>
        match get k fromCookie with
        | Some v => Some v
        | None =>
            match get k (match defaultSegment with
                         | Some d => d | None => [] end) with
            | Some v => Some v
            | None => get k (DEFAULT_SEGMENT Json)
            end
        end
    end.
Proof.
  intros Hd Hc Hcookie H.
  rewrite (setSegmentBag_payload _ _ _ _ Hcookie H).
  apply get_merged; [exact Hd | exact Hc |].
  apply buildSegmentCookie_NoDup.
Qed.

(** X21. A segment built without a [channel] in the cookie and in the
    default segment of the context has the channel ["1"] of
    [DEFAULT_SEGMENT], so it is not anonymous. *)
Theorem default_channel_is_not_anonymous cookie searchParams s defaultSegment
    fromCookie w c :
  NoDup (keys (match defaultSegment with Some d => d | None => [] end)) ->
  NoDup (keys fromCookie) ->
  segmentFromCookie parse cookie = inr fromCookie ->
  setSegmentBag truthyJson removeNonLatin1Chars stringify btoa parse
    cookie searchParams s defaultSegment = inr (w, c) ->
  get "channel" fromCookie = None ->
  get "channel" (match defaultSegment with Some d => d | None => [] end)
  = None ->
  prop "channel" (payload w) = Str "1"
  /\ isAnonymous truthyJson (payload w) = false.
Proof.
  intros Hd Hc Hcookie H Hck Hdk.
  assert (Hp : get "channel" (payload w) = Some (Str "1")).
  { rewrite (setSegmentBag_payload _ _ _ _ Hcookie H).
    rewrite get_merged;
      [|exact Hd | exact Hc | apply buildSegmentCookie_NoDup].
    now rewrite buildSegmentCookie_no_channel, Hck, Hdk. }
  assert (Hch : prop "channel" (payload w) = Str "1").
  { unfold prop. rewrite Hp. reflexivity. }
  split; [exact Hch|]. unfold isAnonymous. rewrite Hch. simpl.
  now rewrite !andb_false_r.
Qed.

End SegmentLaws.

(* ================================================================= *)
(** ** Block keys and links on the concrete host *)

Section KeysAndLinksOnTheDemoHost.
Import Async JsObject.

(** The amended C3 on the unit of [Demo.nested]: the leaf [foo/bar.ts]
    under [loaders] has the key [acme/loaders/foo/bar.ts]. *)
Lemma block_key_of_unit_on_nested :
  exists r,
    outcome (App Demo.env Demo.nested) = inr r
    /\ has "acme/loaders/foo/bar.ts" (app_sourceMap r) = true
    /\ binding "loaders" "acme/loaders/foo/bar.ts" (app_manifest r) <> None
    /\ endsWith "acme/loaders/foo/bar.ts" "/" = false
    /\ (endsWith "foo/bar.ts" ".ts" || endsWith "foo/bar.ts" ".tsx") = true.
Proof.
  eexists. split; [vm_compute; reflexivity|].
  apply (@block_key_of_unit _ _ Demo.env "acme" Demo.nested "loaders"
           (Demo.unit "foo/bar.ts" "A")).
  - reflexivity.
  - simpl. intuition discriminate.
  - vm_compute. tauto.
  - reflexivity.
Defined.

(** C8 on the second link of a pass: [b.ts] is linked into a manifest that
    has [a.ts] under [loaders], and a source map that has its entry. *)
Lemma compile_frame_on_second_link :
  exists h',
    Heap.compile Demo.env (fun _ => []) "loaders" (Demo.unit "b.ts" "B")
      0 2 DemoStore.store
    = (([EvTransform "B"; EvImport "data:application/javascript;base64,B"],
        inr (5, 7)), h')
    /\ Heap.unchanged DemoStore.store h'
    /\ events (compile Demo.env "loaders" (Demo.unit "b.ts" "B")
                 DemoStore.manifest DemoStore.sourceMap)
       = [EvTransform "B"; EvImport "data:application/javascript;base64,B"]
    /\ exists tsModule ns m' sm' category,
         outcome (importFromString Demo.env "B") = inr tsModule
         /\ toString Demo.env (get "name" DemoStore.manifest) = inr ns
         /\ outcome (compile Demo.env "loaders" (Demo.unit "b.ts" "B")
                       DemoStore.manifest DemoStore.sourceMap)
            = inr (m', sm')
         /\ Heap.fresh DemoStore.store 5 /\ Heap.fresh DemoStore.store 7
         /\ Heap.fresh DemoStore.store category
         /\ Heap.represents h' (Heap.VRef 5) (JObj m')
         /\ Heap.represents h' (Heap.VRef 7) (JObj sm')
         /\ get "loaders" (nth 5 h' []) = Some (Heap.VRef category)
         /\ (forall c', c' <> "loaders" ->
               get c' (nth 5 h' []) = get c' (nth 0 DemoStore.store [])
               /\ get c' m' = get c' DemoStore.manifest)
         /\ (forall o, get "loaders" DemoStore.manifest = Some (JObj o) ->
               get "loaders" m'
               = Some (JObj (set (blockKeyOf ns "loaders" "b.ts")
                               (JMod tsModule) o)))
         /\ (get "loaders" DemoStore.manifest = None ->
             get "loaders" m'
             = Some (JObj [(blockKeyOf ns "loaders" "b.ts", JMod tsModule)]))
         /\ binding "loaders" (blockKeyOf ns "loaders" "b.ts") m'
            = Some (JMod tsModule)
         /\ (forall k, k <> blockKeyOf ns "loaders" "b.ts" ->
               get "loaders" DemoStore.manifest = None
               \/ (exists o, get "loaders" DemoStore.manifest
                             = Some (JObj o)) ->
               binding "loaders" k m' = binding "loaders" k DemoStore.manifest)
         /\ get (blockKeyOf ns "loaders" "b.ts") sm'
            = Some (sourceMapEntry
                      (Posix.join "file:///deco/apps/workspace" "loaders"
                         "b.ts") "B")
         /\ (forall k, k <> blockKeyOf ns "loaders" "b.ts" ->
               get k sm' = get k DemoStore.sourceMap).
Proof.
  eexists. split; [vm_compute; reflexivity|].
  apply (@compile_frame _ _ Demo.env (fun _ => []) "loaders"
           (Demo.unit "b.ts" "B") 0 2 DemoStore.store
           DemoStore.manifest DemoStore.sourceMap
           [EvTransform "B"; EvImport "data:application/javascript;base64,B"]
           (inr (5, 7))).
  - intros x. constructor.
  - repeat (econstructor; simpl).
  - repeat (econstructor; simpl).
  - reflexivity.
Defined.

End KeysAndLinksOnTheDemoHost.

(* ================================================================= *)
(** ** The further properties on concrete inputs *)

Section FurtherPropertiesOnSamples.
Import Async JsObject.

Ltac ordinary :=
  repeat first
    [ apply ordinary_Directory | apply ordinary_File
    | apply Forall_cons | apply Forall_nil
    | split; [split; [discriminate | reflexivity]|] ].

Lemma pass_without_units_on_top_level_leaf :
  App uninitialized {| fileSystem := [Demo.file "top.ts" "T"] |}
  = ([], inr {| app_manifest := Demo.base;
                app_state := [("top.ts", FsFile "T")];
                app_sourceMap := [] |}).
Proof.
  apply (@pass_without_units _ _ uninitialized
           {| fileSystem := [Demo.file "top.ts" "T"] |}).
  reflexivity.
Defined.

Lemma fulfilled_pass_transforms_each_unit_once_on_colliding :
  transformed (events (App Demo.env Demo.colliding)) = ["A"; "B"].
Proof.
  apply (@fulfilled_pass_transforms_each_unit_once _ _ Demo.env Demo.colliding
           {| app_manifest :=
                [("name", JStr "acme");
                 ("baseUrl", JStr "file:///deco/apps/workspace/");
                 ("loaders",
                  JObj [("acme/loaders/x.ts",
                         JMod "data:application/javascript;base64,B")])];
              app_state := buildFs (fileSystem Demo.colliding);
              app_sourceMap :=
                [("acme/loaders/x.ts",
                  sourceMapEntry "file:/deco/apps/workspace/loaders/x.ts" "B")]
           |}).
  vm_compute. reflexivity.
Defined.

Lemma pass_stops_at_first_failure_on_five :
  outcome (App Demo.env Demo.five) = inl "SyntaxError"
  /\ transformed (events (App Demo.env Demo.five))
     = ["A"; "B"; Demo.broken].
Proof.
  apply (@pass_stops_at_first_failure _ _ Demo.env "acme" Demo.five
           [("loaders", Demo.unit "a.ts" "A"); ("loaders", Demo.unit "b.ts" "B")]
           ("loaders", Demo.unit "c.ts" Demo.broken)
           [("loaders", Demo.unit "d.ts" "D"); ("loaders", Demo.unit "e.ts" "E")]
           "SyntaxError");
    try reflexivity.
  repeat constructor; eexists; reflexivity.
Defined.

Lemma uninitialized_pass_rejects_on_nested :
  App uninitialized Demo.nested = ([], inl "InitializationError").
Proof.
  apply (@uninitialized_pass_rejects _ _ uninitialized Demo.nested
           "InitializationError"); [reflexivity | discriminate].
Defined.

Lemma pass_extends_the_base_on_nested :
  exists r,
    outcome (App Demo.env Demo.nested) = inr r
    /\ (forall c, has c (manifest Demo.env) = true ->
                  has c (app_manifest r) = true)
    /\ (forall K, has K (buildSourceMap Demo.env (manifest Demo.env)) = true ->
                  has K (app_sourceMap r) = true)
    /\ (forall c,
          ~ In c (map fst (App_units (buildFs (fileSystem Demo.nested)))) ->
          get c (app_manifest r) = get c (manifest Demo.env))
    /\ (forall K,
          ~ In K (block_keys "acme"
                    (App_units (buildFs (fileSystem Demo.nested)))) ->
          get K (app_sourceMap r)
          = get K (buildSourceMap Demo.env (manifest Demo.env))).
Proof.
  eexists. split; [vm_compute; reflexivity|].
  apply (@pass_extends_the_base _ _ Demo.env "acme" Demo.nested);
    reflexivity.
Defined.

Lemma blockKeyOf_injective_on_loaders :
  "loaders" = "loaders" /\ "foo/bar.ts" = "foo/bar.ts".
Proof.
  apply (@blockKeyOf_injective "acme" "loaders" "foo/bar.ts"
           "loaders" "foo/bar.ts"); reflexivity.
Defined.

Lemma ordinary_names_give_distinct_paths_on_nested :
  NoDup (map path (walk (FsDir (buildFs (fileSystem Demo.nested))) "")).
Proof.
  apply (@ordinary_names_give_distinct_paths (fileSystem Demo.nested) "").
  simpl. unfold Demo.dir, Demo.file. ordinary.
Defined.

Lemma ordinary_names_give_distinct_keys_on_nested :
  block_keys "acme" (App_units (buildFs (fileSystem Demo.nested)))
  = map (fun cu => blockKeyOf "acme" (fst cu) (path (snd cu)))
        (App_units (buildFs (fileSystem Demo.nested)))
  /\ NoDup (block_keys "acme" (App_units (buildFs (fileSystem Demo.nested)))).
Proof.
  apply (@ordinary_names_give_distinct_keys "acme" Demo.nested).
  - simpl. unfold Demo.dir, Demo.file. ordinary.
  - simpl. intuition discriminate.
Defined.

Lemma ordinary_tree_keeps_every_unit_on_nested :
  exists r,
    outcome (App Demo.env Demo.nested) = inr r
    /\ get "acme/loaders/foo/bar.ts" (app_sourceMap r)
       = Some (JObj [("path", JStr (Posix.join "file:///deco/apps/workspace"
                                      "loaders" "foo/bar.ts"));
                     ("content", JStr "A")])
    /\ exists tsModule,
         outcome (importFromString Demo.env "A") = inr tsModule
         /\ binding "loaders" "acme/loaders/foo/bar.ts" (app_manifest r)
            = Some (JMod tsModule).
Proof.
  eexists. split; [vm_compute; reflexivity|].
  apply ordinary_tree_keeps_every_unit
    with (env := Demo.env) (ns := "acme") (st := Demo.nested)
         (c := "loaders") (u := Demo.unit "foo/bar.ts" "A").
  - simpl. unfold Demo.dir, Demo.file. ordinary.
  - simpl. intuition discriminate.
  - reflexivity.
  - reflexivity.
  - vm_compute. tauto.
Defined.

Lemma first_assistant_of_a_name_wins_on_helpers :
  exists o,
    Assistants.assistants (Some Samples.helpers) = inr o
    /\ NoDup (keys o)
    /\ match find (fun e => Assistants.name e =? "helper")
                  (Assistants.truthy Samples.helpers) with
       | Some e =>
           Assistants.assistantDeferred e
           = inr (match get "helper" o with
                  | Some d => d
                  | None => Assistants.Pending
                  end)
           /\ has "helper" o = true
       | None => get "helper" o = None
       end.
Proof.
  eexists. split; [vm_compute; reflexivity|].
  apply (@first_assistant_of_a_name_wins string string Samples.helpers).
  reflexivity.
Defined.

Lemma metadata_of_a_block_on_home :
  Pages.prop "module" (Pages.toMetadata ("pages-home", Samples.home))
  = Pages.prop "__resolveType" Samples.home
  /\ has "__resolveType" (Pages.toMetadata ("pages-home", Samples.home)) = false
  /\ get "id" (Pages.toMetadata ("pages-home", Samples.home))
     = Some (match get "id" Samples.home with
             | Some v => v
             | None => Pages.Str "pages-home"
             end)
  /\ forall k, k <> "id" -> k <> "module" -> k <> "__resolveType" ->
       get k (Pages.toMetadata ("pages-home", Samples.home))
       = get k Samples.home.
Proof.
  apply (@metadata_of_a_block unit "pages-home" Samples.home).
  unfold keys. simpl. repeat constructor; simpl; intuition discriminate.
Defined.

Lemma serialize_is_stable_on_two :
  Segment.serialize (fun _ : unit => true) (fun v => inr v)
    Samples.stringify (fun s => @inr string string s)
    [("channel", Segment.Str "1"); ("utm_source", Segment.Str "mail")]
  = Segment.serialize (fun _ : unit => true) (fun v => inr v)
      Samples.stringify (fun s => @inr string string s)
      [("utm_source", Segment.Str "mail"); ("channel", Segment.Str "1")].
Proof.
  assert (Hnd : NoDup (keys [("channel", @Segment.Str unit "1");
                              ("utm_source", Segment.Str "mail")]))
    by (unfold keys; simpl; repeat constructor; simpl; intuition discriminate).
  exact (@serialize_is_stable unit string (fun _ => true) (fun v => inr v)
           Samples.stringify (fun s => inr s)
           [("channel", Segment.Str "1"); ("utm_source", Segment.Str "mail")]
           [("utm_source", Segment.Str "mail"); ("channel", Segment.Str "1")]
           Hnd (perm_swap _ _ _)).
Defined.

Lemma segment_precedence_on_query :
  exists w c,
    Samples.setSegmentBag None Samples.query (Segment.Str "2") None
    = inr (w, c)
    /\ get "utm_campaign" (Segment.payload w)
       = match get "utm_campaign"
                 (@Segment.buildSegmentCookie unit Samples.query) with
         | Some v => Some v
         | None =>
             match get "utm_campaign" (@nil (string * Segment.Val unit)) with
             | Some v => Some v
             | None =>
                 match get "utm_campaign"
                         (@nil (string * Segment.Val unit)) with
                 | Some v => Some v
                 | None => get "utm_campaign" (Segment.DEFAULT_SEGMENT unit)
                 end
             end
         end.
Proof.
  eexists. eexists. split; [vm_compute; reflexivity|].
  apply (@segment_precedence unit string (fun _ => true) (fun v => inr v)
           Samples.stringify (fun s => inr s) (fun _ => inr [])
           None Samples.query (Segment.Str "2") None []
           _ (Some "campaigns,channel,priceTables,regionId,utm_campaign,utm_source,utmi_campaign,currencyCode,currencySymbol,countryCode,cultureInfo,channelPrivacy"));
    first [reflexivity | apply NoDup_nil].
Defined.

Lemma default_channel_is_not_anonymous_on_query :
  exists w c,
    Samples.setSegmentBag None Samples.query (Segment.Str "2") None
    = inr (w, c)
    /\ Segment.prop "channel" (Segment.payload w) = Segment.Str "1"
    /\ Segment.isAnonymous (fun _ : unit => true) (Segment.payload w) = false.
Proof.
  eexists. eexists. split; [vm_compute; reflexivity|].
  apply (@default_channel_is_not_anonymous unit string (fun _ => true)
           (fun v => inr v) Samples.stringify (fun s => inr s)
           (fun _ => inr [])
           None Samples.query (Segment.Str "2") None []
           _ (Some "campaigns,channel,priceTables,regionId,utm_campaign,utm_source,utmi_campaign,currencyCode,currencySymbol,countryCode,cultureInfo,channelPrivacy"));
    first [reflexivity | apply NoDup_nil].
Defined.

Lemma forwarded_cookies_on_sample :
  AddItems.action Samples.platform Samples.addTwo Samples.request
    Samples.context
  = ([AddItems.Fetch (option string) "https://shop.example/comprar/"
        {| AddItems.method := "POST";
           AddItems.headers :=
             [("Cookie", "sid=1");
              ("Origin", "https://shop.example");
              ("Referer", "https://shop.example/produtos/x");
              ("X-Requested-With", "XMLHttpRequest");
              ("Content-Type", "application/x-www-form-urlencoded")];
           AddItems.body :=
             [("add_to_cart", "77"); ("quantity", "2");
              ("add_to_cart_enhanced", "1")] |};
      AddItems.Json (option string) (list (string * string));
      AddItems.SetCartCookie (list (string * string)) (Some "cart-1");
      AddItems.Append (option string) (list (string * string))
        "Set-Cookie" "store_login_session=abc; Expires=Wed";
      AddItems.Append (option string) (list (string * string))
        "Set-Cookie" "store_session_payload_2734114=xyz; Path=/"],
     inr (Some "cart-1"))
  /\ CartCookies.cookiesToSet (Some Samples.upstreamSetCookie)
     = ["store_login_session=abc; Expires=Wed";
        "store_session_payload_2734114=xyz; Path=/"].
Proof.
  destruct (@forwarded_cookies _ _ _ _ _ Samples.platform Samples.addTwo
              Samples.request Samples.context
              [("Cookie", "sid=1");
               ("Origin", "https://shop.example");
               ("Referer", "https://shop.example/produtos/x");
               ("X-Requested-With", "XMLHttpRequest");
               ("Content-Type", "application/x-www-form-urlencoded")]
              {| AddItems.set_cookie := Some Samples.upstreamSetCookie;
                 AddItems.json := inr (AddItems.Value (Some "cart-1")) |}
              eq_refl eq_refl) as [_ [_ H]].
  split; [|reflexivity].
  exact (H (fun _ _ => eq_refl)).
Defined.

End FurtherPropertiesOnSamples.
